(** * hyperspy.events: a shallow embedding of [Events], [Event] and
    [EventSupressor], with the properties of the event subsystem.

    The Python objects live in a small heap: events and containers are
    addressed by their identity, callbacks are named by an identifier and
    their code is looked up in a function table.  Every method is a state
    transformer that returns either a value or the exception it raises. *)

From stdpp Require Import gmap strings list fin_maps.
From Stdlib Require Import ZArith.

Local Open Scope Z_scope.
Set Warnings "-register-all,-clear-no-such-hyp".

(** ** Python values and exceptions *)

Definition addr := nat.
Definition fid := nat.

(** The values that reach the event code: [None], integers, strings, tuples,
    functions or bound methods (named by [fid]), [Event] and [Events]
    instances (named by their address). *)
Inductive value : Type :=
  | VNone
  | VInt (z : Z)
  | VStr (s : string)
  | VTuple (l : list value)
  | VFunc (f : fid)
  | VEvent (a : addr)
  | VEvents (a : addr).

Inductive exn : Type :=
  | ValueError
  | TypeError
  | KeyError
  | SyntaxError
  | RuntimeError
  | IndexError
  | AttributeError
  | Raised          (* an exception raised by the body of a callback or scope *)
  | NoSuchObject.   (* a dangling address: never produced by Python itself *)

Inductive result (A : Type) : Type :=
  | Ok (a : A)
  | Err (e : exn).
Arguments Ok {A} a.
Arguments Err {A} e.

Global Instance exn_eq_dec : EqDecision exn.
Proof. solve_decision. Defined.

(** ** Arity selectors *)

(** The keys of [Event._connected]: the string ['all'] or an integer. *)
Inductive selector : Type :=
  | SAll
  | SInt (n : Z).

Global Instance selector_eq_dec : EqDecision selector.
Proof. solve_decision. Defined.

Global Instance selector_countable : Countable selector.
Proof.
  refine (inj_countable'
            (fun k => match k with SAll => None | SInt n => Some n end)
            (fun o => match o with None => SAll | Some n => SInt n end) _).
  by intros [].
Defined.

(** The [nargs] argument of [Event.connect]. *)
Inductive nargs_arg : Type :=
  | NAll
  | NAuto
  | NNone
  | NInt (n : Z).

(** ** Functions *)

(** What a callback does when it runs: it may change the connections of an
    event (re-entrant use of the event API) or raise. *)
Inductive action : Type :=
  | AConnect (e : addr) (g : fid) (n : nargs_arg)
  | ADisconnect (e : addr) (g : fid)
  | ARaise.

(** A function object as [inspect.getargspec] and the call protocol see it.
    [fn_args] is [spec.args]: for a bound method it starts with the receiver. *)
Record pyfunc : Type := PyFunc {
  fn_args : list string;
  fn_ndefaults : nat;
  fn_varargs : bool;
  fn_keywords : bool;
  fn_ismethod : bool;
  fn_body : list action
}.

(** ** Events *)

(** An element of the [arguments] tuple of an event: a bare name or a
    [(name, default)] pair. *)
Inductive argspec : Type :=
  | ArgName (s : string)
  | ArgDefault (s : string) (v : value).

Definition argspec_name (a : argspec) : string :=
  match a with ArgName s => s | ArgDefault s _ => s end.

Abbreviation kwargs := (gmap string value).

(** The instance attributes of an [Event].  [ev_wrapper] is the instance
    attribute [trigger] that [_trigger_maker] installs: the parameter names
    and the defaults of the generated function. *)
Record event_obj : Type := EventObj {
  ev_doc : string;
  ev_arguments : option (list argspec);
  ev_connected : gmap selector (gset fid);
  ev_suppress : bool;
  ev_wrapper : option (list string * list value)
}.

(** An [Events] instance: the [_events] dictionary and the names found by
    ordinary attribute lookup on the instance. *)
Record events_obj : Type := EventsObj {
  es_events : gmap string addr;
  es_dict : gset string
}.

(** Where a callable is called from: the loop of [Event.trigger] running on
    an event, for one selector, or the body of the function that
    [_trigger_maker] generated for an event. *)
Inductive site : Type :=
  | InTrigger (e : addr) (k : selector)
  | InWrapper (e : addr).

(** One call: its site, the callable, and the arguments of the call
    expression. *)
Record call : Type := Call {
  c_site : site;
  c_func : fid;
  c_args : list value;
  c_kwargs : kwargs
}.

(** The heap, the module global [f] that [_trigger_maker] overwrites, and the
    trace of the callback calls made so far (most recent last). *)
Record state : Type := State {
  st_events : gmap addr event_obj;
  st_containers : gmap addr events_obj;
  st_glob_f : option addr;
  st_log : list call
}.

Definition set_events (f : gmap addr event_obj -> gmap addr event_obj)
    (s : state) : state :=
  State (f (st_events s)) (st_containers s) (st_glob_f s) (st_log s).

Definition set_containers (f : gmap addr events_obj -> gmap addr events_obj)
    (s : state) : state :=
  State (st_events s) (f (st_containers s)) (st_glob_f s) (st_log s).

Definition set_glob_f (g : option addr) (s : state) : state :=
  State (st_events s) (st_containers s) g (st_log s).

Definition add_log (c : call) (s : state) : state :=
  State (st_events s) (st_containers s) (st_glob_f s) (st_log s ++ [c]).

Definition set_connected (c : gmap selector (gset fid)) (e : event_obj)
    : event_obj :=
  EventObj (ev_doc e) (ev_arguments e) c (ev_suppress e) (ev_wrapper e).

Definition set_suppress (b : bool) (e : event_obj) : event_obj :=
  EventObj (ev_doc e) (ev_arguments e) (ev_connected e) b (ev_wrapper e).

(** ** The state and exception monad *)

Definition M (A : Type) : Type := state -> state * result A.

Definition ret {A} (a : A) : M A := fun s => (s, Ok a).
Definition raise {A} (e : exn) : M A := fun s => (s, Err e).
Definition bind {A B} (m : M A) (k : A -> M B) : M B :=
  fun s => match m s with
           | (s', Ok a) => k a s'
           | (s', Err e) => (s', Err e)
           end.

Notation "'let!' x ':=' m 'in' k" := (bind m (fun x => k))
  (at level 10, x name, m at level 100, k at level 200).
Notation "'do!' m 'in' k" := (bind m (fun _ => k))
  (at level 10, m at level 100, k at level 200).

(** Reads the object at [a]; a dangling address is a model error. *)
Definition get_event (a : addr) : M event_obj :=
  fun s => match st_events s !! a with
           | Some e => (s, Ok e)
           | None => (s, Err NoSuchObject)
           end.

Definition put_event (a : addr) (e : event_obj) : M unit :=
  fun s => (set_events <[a := e]> s, Ok tt).

Definition get_container (a : addr) : M events_obj :=
  fun s => match st_containers s !! a with
           | Some c => (s, Ok c)
           | None => (s, Err NoSuchObject)
           end.

(** Runs [k] on every element of [l] in order, stopping at the first
    exception: a Python [for] loop over a list computed beforehand. *)
Fixpoint for_each {A} (l : list A) (k : A -> M unit) : M unit :=
  match l with
  | [] => ret tt
  | x :: l' => do! k x in for_each l' k
  end.

(** ** Calling a function *)

(** Python's slice [l[0:n]]: a negative bound counts from the end. *)
Definition slice_to {A} (l : list A) (n : Z) : list A :=
  if 0 <=? n then take (Z.to_nat n) l
  else take (Z.to_nat (Z.of_nat (length l) + n)) l.

Definition index_of (k : string) (l : list string) : option nat :=
  fst <$> list_find (fun x => x = k) l.

(** Whether the call [f( *args, **kw)] with [npos] positional arguments binds
    to the parameters of [f]; Python raises [TypeError] when it does not.  A
    bound method passes its receiver as the first positional argument. *)
Definition call_binds (fn : pyfunc) (npos : nat) (kw : kwargs) : bool :=
  let params := fn_args fn in
  let given := if fn_ismethod fn then S npos else npos in
  let np := length params in
  (fn_varargs fn || bool_decide (given ≤ np)%nat)
  && forallb (fun k => match index_of k params with
                       | Some i => bool_decide (given ≤ i)%nat
                       | None => fn_keywords fn
                       end) (map fst (map_to_list kw))
  && forallb (fun i => bool_decide (i < given)%nat
                       || bool_decide (np - fn_ndefaults fn ≤ i)%nat
                       || match params !! i with
                          | Some p => bool_decide (is_Some (kw !! p))
                          | None => true
                          end) (seq 0 np).

Section Event.

(** The code of every callback, by identifier. *)
Variable funcs : fid -> pyfunc.

(** *** [Event.connect], [Event.disconnect], [Event.connected] *)

(** The selector [connect] stores the callback under.  [getargspec] counts
    every declared parameter of [function]. *)
Definition resolve_nargs (function : fid) (nargs : nargs_arg) : selector :=
  match nargs with
  | NAuto =>
      let spec := funcs function in
      if fn_varargs spec || fn_keywords spec then SAll
      else SInt (Z.of_nat (length (fn_args spec)))
  | NNone => SInt 0
  | NAll => SAll
  | NInt n => SInt n
  end.

Definition connect (self : addr) (function : value) (nargs : nargs_arg)
    : M unit :=
  match function with
  | VFunc g =>
      let! e := get_event self in
      let k := resolve_nargs g nargs in
      let c := ev_connected e in
      let c := match c !! k with None => <[k := ∅]> c | Some _ => c end in
      let c := <[k := default ∅ (c !! k) ∪ {[g]}]> c in
      put_event self (set_connected c e)
  | _ => raise TypeError
  end.

(** Only callables are ever members of the sets, so another value is found
    in none of them. *)
Definition disconnect (self : addr) (function : value) : M unit :=
  match function with
  | VFunc g =>
      let! e := get_event self in
      put_event self
        (set_connected ((fun c : gset fid => c ∖ {[g]}) <$> ev_connected e) e)
  | _ => let! _ := get_event self in ret tt
  end.

Definition connected (self : addr) (nargs : option selector)
    : M (gset fid) :=
  let! e := get_event self in
  match nargs with
  | None => ret (⋃ (map_to_list (ev_connected e)).*2)
  | Some k => ret (default ∅ (ev_connected e !! k))
  end.

(** *** Running a callback *)

Definition run_action (a : action) : M unit :=
  match a with
  | AConnect e g n => connect e (VFunc g) n
  | ADisconnect e g => disconnect e (VFunc g)
  | ARaise => raise Raised
  end.

(** The call [f( *args, **kw)] made at [at_]: the call is recorded, then
    the arguments are bound and the body runs. *)
Definition call_function (at_ : site) (f : fid)
    (args : list value) (kw : kwargs) : M unit :=
  do! (fun s => (add_log (Call at_ f args kw) s, Ok tt)) in
  if call_binds (funcs f) (length args) kw
  then for_each (fn_body (funcs f)) run_action
  else raise TypeError.

(** *** [Event._trigger_nargs] *)

(** The first loop: fill from the keyword arguments named by
    [self.arguments], in declaration order.  An element of [self.arguments]
    that is a [(name, default)] tuple is never a key of [kwargs]. *)
Fixpoint fill_declared (nargs : Z) (decl : list argspec)
    (args : list value) (kw : kwargs) : list value * kwargs :=
  match decl with
  | [] => (args, kw)
  | a :: decl' =>
      if Z.of_nat (length args) <? nargs then
        match a with
        | ArgName n =>
            match kw !! n with
            | Some v => fill_declared nargs decl' (args ++ [v]) (delete n kw)
            | None => fill_declared nargs decl' args kw
            end
        | ArgDefault _ _ => fill_declared nargs decl' args kw
        end
      else (args, kw)
  end.

(** Iterating over a string yields its characters. *)
Definition chars (s : string) : list string :=
  (fun a => String a EmptyString) <$> String.list_ascii_of_string s.

(** [candidates] after [list(spec.args)[len(args):]] and, for a bound
    method, [candidates = candidates.pop()]: the last name, which the
    comprehension then iterates character by character. *)
Definition candidates (fn : pyfunc) (nfilled : nat) : result (list string) :=
  let c := drop nfilled (fn_args fn) in
  if fn_ismethod fn then
    match last c with
    | Some n => Ok (chars n)
    | None => Err IndexError
    end
  else Ok c.

(** The positional arguments [_trigger_nargs] calls [f] with. *)
Definition nargs_args (decl : option (list argspec)) (fn : pyfunc)
    (args : list value) (kw : kwargs) (nargs : Z) : result (list value) :=
  if Z.of_nat (length args) <? nargs then
    let '(args1, kw1) :=
      match decl with
      | Some (a :: d) => fill_declared nargs (a :: d) args kw
      | _ => (args, kw)
      end in
    if Z.of_nat (length args1) <? nargs then
      match candidates fn (length args1) with
      | Ok cs =>
          let matches := omap (fun c => kw1 !! c) cs in
          let args2 :=
            args1 ++ slice_to matches (nargs - Z.of_nat (length args1)) in
          Ok (slice_to args2 nargs)
      | Err e => Err e
      end
    else Ok (slice_to args1 nargs)
  else Ok (slice_to args nargs).

Definition _trigger_nargs (self : addr) (f : fid) (args : list value)
    (kw : kwargs) (nargs : Z) : M unit :=
  let! e := get_event self in
  match nargs_args (ev_arguments e) (funcs f) args kw nargs with
  | Ok args' => call_function (InTrigger self (SInt nargs)) f args' ∅
  | Err x => raise x
  end.

(** *** [Event.trigger] *)

(** [for f in c: f( *args, **kwargs)] over the live set registered under
    ['all'].  The iterator remembers the size [n0] the set had when the loop
    started and raises [RuntimeError] on the next step after the size
    changed; [i] is its position and [todo] the steps left. *)
Fixpoint iter_all (self : addr) (args : list value) (kw : kwargs)
    (n0 i todo : nat) : M unit :=
  let! e := get_event self in
  let c := elements (default ∅ (ev_connected e !! SAll)) in
  if bool_decide (length c = n0) then
    match todo with
    | O => ret tt
    | S todo' =>
        match c !! i with
        | Some f =>
            do! call_function (InTrigger self SAll) f args kw in
            iter_all self args kw n0 (S i) todo'
        | None => ret tt
        end
    end
  else raise RuntimeError.

(** The body of the loop of [trigger] for the key [k] of the copied
    dictionary.  The copy is shallow, so the set is the one the event still
    holds: it is read when the loop reaches [k]. *)
Definition trigger_group (self : addr) (args : list value) (kw : kwargs)
    (k : selector) : M unit :=
  match k with
  | SAll =>
      let! e := get_event self in
      let n0 := length (elements (default ∅ (ev_connected e !! SAll))) in
      iter_all self args kw n0 0 n0
  | SInt nargs =>
      if Z.of_nat (length args) + Z.of_nat (size kw) <? nargs
      then raise ValueError
      else
        let! e := get_event self in
        for_each (elements (default ∅ (ev_connected e !! k)))
          (fun f => _trigger_nargs self f args kw nargs)
  end.

Definition trigger (self : addr) (args : list value) (kw : kwargs)
    : M unit :=
  let! e := get_event self in
  if ev_suppress e then ret tt
  else for_each (map_to_list (ev_connected e)).*1
         (trigger_group self args kw).

End Event.

(** ** Construction of an event *)

Definition is_alpha_ (c : Ascii.ascii) : bool :=
  let n := Ascii.nat_of_ascii c in
  bool_decide (97 ≤ n ≤ 122)%nat || bool_decide (65 ≤ n ≤ 90)%nat
  || bool_decide (n = 95)%nat.

Definition is_alnum_ (c : Ascii.ascii) : bool :=
  is_alpha_ c || bool_decide (48 ≤ Ascii.nat_of_ascii c ≤ 57)%nat.

(** [_re_arg_name] matches the whole of [s]. *)
Definition valid_name (s : string) : bool :=
  match String.list_ascii_of_string s with
  | [] => false
  | c :: cs => is_alpha_ c && forallb is_alnum_ cs
  end.

(** The loop of [_trigger_maker] that validates the argument list;
    [seen_default] says whether [defaults] is non-empty. *)
Fixpoint validate_arguments (seen_default : bool) (arguments : list argspec)
    : result unit :=
  match arguments with
  | [] => Ok tt
  | ArgDefault n _ :: rest =>
      if valid_name n then validate_arguments true rest else Err ValueError
  | ArgName n :: rest =>
      if seen_default then Err SyntaxError
      else if valid_name n then validate_arguments false rest
      else Err ValueError
  end.

Definition defaults_of (arguments : list argspec) : list value :=
  omap (fun a => match a with ArgDefault _ v => Some v | ArgName _ => None end)
       arguments.

(** Names that cannot be parameters of the generated
    [def trigger(self, ...)]: Python 2 keywords and constants. *)
Definition reserved_words : list string :=
  ["and"; "as"; "assert"; "break"; "class"; "continue"; "def"; "del";
   "elif"; "else"; "except"; "exec"; "finally"; "for"; "from"; "global";
   "if"; "import"; "in"; "is"; "lambda"; "not"; "or"; "pass"; "print";
   "raise"; "return"; "try"; "while"; "with"; "yield"; "None";
   "__debug__"]%string.

(** Whether the generated source compiles: the parameter names, with
    [self] in front, are distinct and none is reserved. *)
Definition wrapper_compiles (names : list string) : bool :=
  bool_decide (NoDup ("self"%string :: names))
  && forallb (fun n => bool_decide (n ∉ reserved_words)) names.

Definition empty_event (doc : string) (arguments : option (list argspec))
    : event_obj :=
  EventObj doc arguments ∅ false None.

Definition fresh_addr (s : state) : addr := fresh (dom (st_events s)).

(** [_trigger_maker]: validates, stores the bound [self.trigger] in the
    module global [f] (the dictionary returned by [globals()] is the module's
    own), then compiles the wrapper and installs it on the instance. *)
Definition _trigger_maker (self : addr) (arguments : list argspec) : M unit :=
  match validate_arguments false arguments with
  | Err x => raise x
  | Ok _ =>
      let names := argspec_name <$> arguments in
      do! (fun s => (set_glob_f (Some self) s, Ok tt)) in
      if wrapper_compiles names then
        let! e := get_event self in
        put_event self
          (EventObj (ev_doc e) (ev_arguments e) (ev_connected e)
                    (ev_suppress e) (Some (names, defaults_of arguments)))
      else raise SyntaxError
  end.

(** [Event(doc, arguments)]: the new object is returned when [__init__]
    does not raise. *)
Definition Event_init (doc : string) (arguments : option (list argspec))
    : M addr :=
  let! self := (fun s => (s, Ok (fresh_addr s))) in
  let args' := match arguments with
               | Some (a :: l) => Some (a :: l)
               | _ => None
               end in
  do! put_event self (empty_event doc args') in
  do! match args' with
      | Some l => _trigger_maker self l
      | None => ret tt
      end in
  ret self.

(** [__deepcopy__]: [type(self)()]. *)
Definition Event_deepcopy (self : addr) : M addr :=
  let! _ := get_event self in
  Event_init "" None.

(** *** Calling [e.trigger] *)

(** Binding of a call to the generated [trigger(self, n1, ..., nk)] whose
    last parameters have the given defaults: the value of every parameter,
    or [TypeError]. *)
Definition bind_param (names : list string) (defaults args : list value)
    (kw : kwargs) (i : nat) (n : string) : option value :=
  match args !! i with
  | Some v => match kw !! n with Some _ => None | None => Some v end
  | None =>
      match kw !! n with
      | Some v => Some v
      | None =>
          if bool_decide (length names - length defaults ≤ i)%nat
          then defaults !! (i - (length names - length defaults))%nat
          else None
      end
  end.

Definition bind_signature (names : list string) (defaults args : list value)
    (kw : kwargs) : result kwargs :=
  if bool_decide (length args ≤ length names)%nat
     && forallb (fun n => bool_decide (n ∈ names)) (map fst (map_to_list kw))
  then
    match mapM (fun '(i, n) => bind_param names defaults args kw i n)
               (zip (seq 0 (length names)) names) with
    | Some vs => Ok (list_to_map (zip names vs))
    | None => Err TypeError
    end
  else Err TypeError.

Section Trigger.

Variable funcs : fid -> pyfunc.

(** The attribute [e.trigger] applied to arguments.  Without a fixed
    argument list it is the method.  With one it is the generated
    [trigger(self, names)] whose body is [return f(n1=n1, ..., nk=nk)]; the
    name [f] in that body is the parameter [f] if there is one, and
    otherwise the module global, which holds the method bound to the event
    whose [_trigger_maker] ran last. *)
Definition call_trigger (self : addr) (args : list value) (kw : kwargs)
    : M unit :=
  let! e := get_event self in
  match ev_wrapper e with
  | None => trigger funcs self args kw
  | Some (names, defaults) =>
      match bind_signature names defaults args kw with
      | Err x => raise x
      | Ok kw' =>
          match kw' !! "f"%string with
          | Some (VFunc h) => call_function funcs (InWrapper self) h [] kw'
          | Some _ => raise TypeError
          | None =>
              let! g := (fun s => (s, match st_glob_f s with
                                      | Some g => Ok g
                                      | None => Err NoSuchObject
                                      end)) in
              trigger funcs g [] kw'
          end
      end
  end.

End Trigger.

(** ** Scoped suppression on an event *)

Definition set_flag (a : addr) (b : bool) : M unit :=
  let! e := get_event a in put_event a (set_suppress b e).

(** Runs [body] between the two halves of a generator context manager: what
    a [with] statement does.  The part after [yield] sits in a [finally]
    clause, so it runs on both exit paths and the exception of the body is
    not swallowed. *)
Definition scoped {L A} (enter : M L) (exit : L -> M unit) (body : M A)
    : M A :=
  let! l := enter in
  fun s =>
    match body s with
    | (s1, r) =>
        match exit l s1 with
        | (s2, Ok _) => (s2, r)
        | (s2, Err x) => (s2, Err x)
        end
    end.

(** [Event.suppress] up to [yield], and its [finally] clause. *)
Definition Event_suppress_enter (self : addr) : M bool :=
  let! e := get_event self in
  let old := ev_suppress e in
  do! set_flag self true in
  ret old.

Definition Event_suppress_exit (self : addr) (old : bool) : M unit :=
  set_flag self old.

Definition selector_nargs (k : selector) : nargs_arg :=
  match k with SAll => NAll | SInt n => NInt n end.

Section Scopes.

Variable funcs : fid -> pyfunc.

(** [Event.suppress_callback] up to [yield]: the selectors [function] is
    found under, and the disconnection when there is one. *)
Definition suppress_callback_enter (self : addr) (function : value)
    : M (list selector) :=
  let! e := get_event self in
  let found :=
    match function with
    | VFunc g =>
        (filter (fun kc : selector * gset fid => g ∈ kc.2)
                (map_to_list (ev_connected e))).*1
    | _ => []
    end in
  match found with
  | [] => ret []
  | _ :: _ => do! disconnect self function in ret found
  end.

Definition suppress_callback_exit (self : addr) (function : value)
    (found : list selector) : M unit :=
  for_each found (fun k => connect funcs self function (selector_nargs k)).

End Scopes.

(** ** The [Events] container *)

(** The attributes ordinary lookup finds on the class [Events] and on
    [object]. *)
Definition class_members : list string :=
  ["suppress"; "_update_doc"; "__init__"; "__setattr__"; "__getattr__";
   "__delattr__"; "__dir__"; "__iter__"; "__repr__"; "__doc__";
   "__module__"; "__dict__"; "__weakref__"; "__class__"; "__format__";
   "__getattribute__"; "__hash__"; "__new__"; "__reduce__";
   "__reduce_ex__"; "__sizeof__"; "__str__"; "__subclasshook__"]%string.

(** What retrieving an attribute of a container gives: a member found by
    ordinary lookup, or the event that [__getattr__] returns. *)
Inductive attr : Type :=
  | AttrMember (name : string)
  | AttrEvent (e : addr).

Definition fresh_container (s : state) : addr := fresh (dom (st_containers s)).

Definition put_container (a : addr) (c : events_obj) : M unit :=
  fun s => (set_containers <[a := c]> s, Ok tt).

(** [Events()]: [self._events = {}] is an ordinary assignment. *)
Definition Events_init : M addr :=
  let! self := (fun s => (s, Ok (fresh_container s))) in
  do! put_container self (EventsObj ∅ {["_events"%string]}) in
  ret self.

(** [_update_doc] ends with the ordinary assignment [self.__doc__ = ...]. *)
Definition _update_doc (c : events_obj) : events_obj :=
  EventsObj (es_events c) (es_dict c ∪ {["__doc__"%string]}).

(** [__setattr__] with an [Event] value. *)
Definition Events_setattr (self : addr) (name : string) (e : addr) : M unit :=
  let! c := get_container self in
  put_container self
    (_update_doc (EventsObj (<[name := e]> (es_events c)) (es_dict c))).

(** [__getattr__]: [return self._events[name]]. *)
Definition Events__getattr__ (self : addr) (name : string) : M attr :=
  let! c := get_container self in
  match es_events c !! name with
  | Some e => ret (AttrEvent e)
  | None => raise KeyError
  end.

(** The expression [events.name]: [__getattr__] runs only when ordinary
    lookup on the instance and its class fails. *)
Definition Events_getattr (self : addr) (name : string) : M attr :=
  let! c := get_container self in
  if bool_decide (name ∈ es_dict c) || bool_decide (name ∈ class_members)
  then ret (AttrMember name)
  else Events__getattr__ self name.

Definition Events_delattr (self : addr) (name : string) : M unit :=
  let! c := get_container self in
  match es_events c !! name with
  | Some _ =>
      put_container self
        (_update_doc (EventsObj (delete name (es_events c)) (es_dict c)))
  | None =>
      if bool_decide (name ∈ es_dict c)
      then put_container self (EventsObj (es_events c) (es_dict c ∖ {[name]}))
      else raise AttributeError
  end.

(** [__iter__]: the values of [_events]. *)
Definition Events_iter (c : events_obj) : list addr :=
  (map_to_list (es_events c)).*2.

(** The first loop of [Events.suppress]: [old] as filled so far, and the
    exception that stopped the loop, if any. *)
Fixpoint suppress_all (l : list addr) (old : gmap addr bool) (s : state)
    : state * gmap addr bool * result unit :=
  match l with
  | [] => (s, old, Ok tt)
  | a :: l' =>
      match get_event a s with
      | (_, Ok e) =>
          suppress_all l' (<[a := ev_suppress e]> old)
            (set_events <[a := set_suppress true e]> s)
      | (_, Err x) => (s, old, Err x)
      end
  end.

(** The [finally] clause of [Events.suppress]. *)
Definition Events_suppress_exit (old : gmap addr bool) : M unit :=
  for_each (map_to_list old) (fun '(a, b) => set_flag a b).

(** [Events.suppress] up to [yield]; the loop is inside the [try], so the
    [finally] clause also runs when the loop raises. *)
Definition Events_suppress_enter (self : addr) : M (gmap addr bool) :=
  let! c := get_container self in
  fun s =>
    match suppress_all (Events_iter c) ∅ s with
    | (s1, old, Ok _) => (s1, Ok old)
    | (s1, old, Err x) => ((Events_suppress_exit old s1).1, Err x)
    end.

(** ** Programs that use the event API *)

(** The statements a scope body is made of. *)
Inductive stmt : Type :=
  | SPass
  | SSeq (a b : stmt)
  | SRaise
  | STrigger (e : addr) (args : list value) (kw : kwargs)
  | SConnect (e : addr) (function : value) (nargs : nargs_arg)
  | SDisconnect (e : addr) (function : value)
  | SSetEvent (c : addr) (name : string) (e : addr)
  | SDelEvent (c : addr) (name : string)
  | SWithSuppress (e : addr) (body : stmt)
  | SWithSuppressCallback (e : addr) (function : value) (body : stmt)
  | SWithEventsSuppress (c : addr) (body : stmt).

Section Programs.

Variable funcs : fid -> pyfunc.

Fixpoint exec (p : stmt) : M unit :=
  match p with
  | SPass => ret tt
  | SSeq a b => do! exec a in exec b
  | SRaise => raise Raised
  | STrigger e args kw => call_trigger funcs e args kw
  | SConnect e function nargs => connect funcs e function nargs
  | SDisconnect e function => disconnect e function
  | SSetEvent c name e => do! get_event e in Events_setattr c name e
  | SDelEvent c name => Events_delattr c name
  | SWithSuppress e body =>
      scoped (Event_suppress_enter e) (Event_suppress_exit e) (exec body)
  | SWithSuppressCallback e function body =>
      scoped (suppress_callback_enter e function)
             (suppress_callback_exit funcs e function) (exec body)
  | SWithEventsSuppress c body =>
      scoped (Events_suppress_enter c) Events_suppress_exit (exec body)
  end.

(** ** [EventSupressor] *)

(** The generator behind a context manager: not started, suspended at its
    [yield] with its local variables, or finished. *)
Inductive cm_kind : Type :=
  | CmSuppress (e : addr)
  | CmSuppressCallback (e : addr) (function : value)
  | CmEventsSuppress (c : addr).

Inductive cm_locals : Type :=
  | LOld (old : bool)
  | LFound (found : list selector)
  | LOlds (old : gmap addr bool).

Inductive gen_state : Type :=
  | Fresh
  | Suspended (l : cm_locals)
  | Finished.

Record cm : Type := Cm { cm_gen : cm_kind; cm_state : gen_state }.

Definition new_cm (k : cm_kind) : cm := Cm k Fresh.

Definition enter_kind (k : cm_kind) : M cm_locals :=
  match k with
  | CmSuppress e => let! old := Event_suppress_enter e in ret (LOld old)
  | CmSuppressCallback e function =>
      let! found := suppress_callback_enter e function in ret (LFound found)
  | CmEventsSuppress c =>
      let! old := Events_suppress_enter c in ret (LOlds old)
  end.

Definition exit_kind (k : cm_kind) (l : cm_locals) : M unit :=
  match k, l with
  | CmSuppress e, LOld old => Event_suppress_exit e old
  | CmSuppressCallback e function, LFound found =>
      suppress_callback_exit funcs e function found
  | CmEventsSuppress _, LOlds old => Events_suppress_exit old
  | _, _ => ret tt
  end.

(** [cm.__enter__()]: [next] on the generator must reach a [yield]. *)
Definition cm_enter (c : cm) (s : state) : state * cm * result unit :=
  match cm_state c with
  | Fresh =>
      match enter_kind (cm_gen c) s with
      | (s1, Ok l) => (s1, Cm (cm_gen c) (Suspended l), Ok tt)
      | (s1, Err x) => (s1, Cm (cm_gen c) Finished, Err x)
      end
  | Suspended l =>
      match exit_kind (cm_gen c) l s with
      | (s1, Ok _) => (s1, Cm (cm_gen c) Finished, Err RuntimeError)
      | (s1, Err x) => (s1, Cm (cm_gen c) Finished, Err x)
      end
  | Finished => (s, c, Err RuntimeError)
  end.

(** [cm.__exit__(None, None, None)]: [next] on the generator must end it. *)
Definition cm_exit (c : cm) (s : state) : state * cm * result unit :=
  match cm_state c with
  | Fresh =>
      match enter_kind (cm_gen c) s with
      | (s1, Ok l) => (s1, Cm (cm_gen c) (Suspended l), Err RuntimeError)
      | (s1, Err x) => (s1, Cm (cm_gen c) Finished, Err x)
      end
  | Suspended l =>
      match exit_kind (cm_gen c) l s with
      | (s1, Ok _) => (s1, Cm (cm_gen c) Finished, Ok tt)
      | (s1, Err x) => (s1, Cm (cm_gen c) Finished, Err x)
      end
  | Finished => (s, c, Ok tt)
  end.

(** The first loop of [EventSupressor.suppress]: the managers entered so
    far (most recent first, so this is also [reversed(cms)]), the managers
    not reached, and the result of the loop. *)
Fixpoint enter_all (todo entered : list cm) (s : state)
    : state * list cm * list cm * result unit :=
  match todo with
  | [] => (s, entered, [], Ok tt)
  | c :: todo' =>
      match cm_enter c s with
      | (s1, c1, Ok _) => enter_all todo' (c1 :: entered) s1
      | (s1, c1, Err x) => (s1, entered, c1 :: todo', Err x)
      end
  end.

(** The loop of the [finally] clause over [reversed(cms)]: the managers
    after their exit, in list order again, and the result of the loop. *)
Fixpoint exit_all (entered done : list cm) (s : state)
    : state * list cm * result unit :=
  match entered with
  | [] => (s, done, Ok tt)
  | c :: entered' =>
      match cm_exit c s with
      | (s1, c1, Ok _) => exit_all entered' (c1 :: done) s1
      | (s1, c1, Err x) => (s1, rev_append entered' (c1 :: done), Err x)
      end
  end.

(** [with es.suppress(): body], for the suppressor whose [_cms] is [cms]:
    the final state, [_cms] afterwards, and how the statement ends. *)
Definition EventSupressor_suppress (cms : list cm) (body : M unit)
    (s : state) : state * list cm * result unit :=
  match enter_all cms [] s with
  | (s1, entered, rest, Ok _) =>
      match body s1 with
      | (s2, r) =>
          match exit_all entered rest s2 with
          | (s3, cms', Ok _) => (s3, cms', r)
          | (s3, cms', Err x) => (s3, cms', Err x)
          end
      end
  | (s1, entered, rest, Err x) =>
      match exit_all entered rest s1 with
      | (s3, cms', Ok _) => (s3, cms', Err x)
      | (s3, cms', Err y) => (s3, cms', Err y)
      end
  end.

End Programs.

(** *** [EventSupressor.add] *)

(** [isinstance(v, collections.Iterable)]: strings and tuples, and [Events],
    which defines [__iter__]. *)
Definition is_iterable (v : value) : bool :=
  match v with
  | VStr _ | VTuple _ | VEvents _ => true
  | _ => false
  end.

(** [len(v)] for an iterable [v]; [Events] defines no [__len__]. *)
Definition py_len (v : value) : result nat :=
  match v with
  | VStr s => Ok (String.length s)
  | VTuple l => Ok (length l)
  | _ => Err TypeError
  end.

(** The elements of a string or tuple, for indexing and iteration. *)
Definition py_items (v : value) : list value :=
  match v with
  | VTuple l => l
  | VStr s => VStr <$> chars s
  | _ => []
  end.

Definition is_callable (v : value) : bool :=
  match v with VFunc _ => true | _ => false end.

Definition is_event_or_events (v : value) : bool :=
  match v with VEvent _ | VEvents _ => true | _ => false end.

Definition _is_tuple_target (candidate : value) : result bool :=
  if is_iterable candidate then
    match py_len candidate with
    | Err x => Err x
    | Ok n =>
        if bool_decide (n = 2%nat) then
          match py_items candidate with
          | [a; b] => Ok (is_event_or_events a && is_callable b)
          | _ => Ok false
          end
        else Ok false
    end
  else Ok false.

Definition _is_target (candidate : value) : result bool :=
  if is_event_or_events candidate then Ok true
  else _is_tuple_target candidate.

(** [_add_single]: the managers are created, not entered.  For an
    [(Events, callback)] pair the container is iterated here. *)
Definition _add_single (cms : list cm) (target : value) (s : state)
    : list cm * result unit :=
  match _is_tuple_target target with
  | Err x => (cms, Err x)
  | Ok true =>
      match target with
      | VTuple [VEvent e; function] =>
          (cms ++ [new_cm (CmSuppressCallback e function)], Ok tt)
      | VTuple [VEvents c; function] =>
          match st_containers s !! c with
          | Some co =>
              (cms ++ ((fun e => new_cm (CmSuppressCallback e function))
                         <$> Events_iter co), Ok tt)
          | None => (cms, Err NoSuchObject)
          end
      | _ => (cms, Err TypeError)
      end
  | Ok false =>
      match target with
      | VEvent e => (cms ++ [new_cm (CmSuppress e)], Ok tt)
      | VEvents c => (cms ++ [new_cm (CmEventsSuppress c)], Ok tt)
      | _ => (cms, Err AttributeError)
      end
  end.

(** The [while] loop that removes layers of one-element iterables; [None]
    when [fuel] iterations do not end it. *)
Fixpoint unwrap (fuel : nat) (v : value) : option (result value) :=
  match fuel with
  | O => None
  | S fuel' =>
      if is_iterable v then
        match py_len v with
        | Err x => Some (Err x)
        | Ok n =>
            if bool_decide (n = 1%nat) then
              match py_items v with
              | x :: _ => unwrap fuel' x
              | [] => Some (Ok v)
              end
            else Some (Ok v)
        end
      else Some (Ok v)
  end.

(** The [for] loop of [add] over the elements of [to_suppress]. *)
Fixpoint add_each (cms : list cm) (l : list value) (s : state)
    : list cm * result unit :=
  match l with
  | [] => (cms, Ok tt)
  | t :: l' =>
      match _is_target t with
      | Err x => (cms, Err x)
      | Ok true =>
          match _add_single cms t s with
          | (cms', Ok _) => add_each cms' l' s
          | (cms', Err x) => (cms', Err x)
          end
      | Ok false => add_each cms l' s
      end
  end.

(** [es.add( *to_suppress)] on the suppressor whose [_cms] is [cms]: the new
    [_cms] and how the call ends. *)
Definition add (fuel : nat) (cms : list cm) (to_suppress : list value)
    (s : state) : option (list cm * result unit) :=
  match unwrap fuel (VTuple to_suppress) with
  | None => None
  | Some (Err x) => Some (cms, Err x)
  | Some (Ok v) =>
      Some
        match _is_target v with
        | Err x => (cms, Err x)
        | Ok true => _add_single cms v s
        | Ok false =>
            if is_iterable v then
              match py_len v with
              | Err x => (cms, Err x)
              | Ok O => (cms, Err ValueError)
              | Ok (S _) => add_each cms (py_items v) s
              end
            else (cms, Err ValueError)
        end
  end.

(** [EventSupressor( *to_suppress)]. *)
Definition EventSupressor_init (fuel : nat) (to_suppress : list value)
    (s : state) : option (list cm * result unit) :=
  match to_suppress with
  | [] => Some ([], Ok tt)
  | _ :: _ => add fuel [] to_suppress s
  end.

(** * Properties: vocabulary *)

(** [hoare P m Q]: from a state in [P], [m] ends in a state and with a
    result in [Q]. *)
Definition hoare {A} (P : state -> Prop) (m : M A)
    (Q : result A -> state -> Prop) : Prop :=
  forall s s' r, P s -> m s = (s', r) -> Q r s'.

(** [m] keeps the invariant [I], however it ends. *)
Definition keeps {A} (I : state -> Prop) (m : M A) : Prop :=
  hoare I m (fun _ s' => I s').

(** [m] makes no call. *)
Definition same_log {A} (m : M A) : Prop :=
  forall s, st_log (m s).1 = st_log s.

(** Since [log0] was recorded, only calls in [P] were made. *)
Definition log_ext (P : call -> Prop) (log0 : list call) (s : state) : Prop :=
  exists new, st_log s = log0 ++ new /\ Forall P new.

(** What holds of a call made for the trigger [e.trigger( *args, **kw)]
    under an integer selector [n >= 0]: no keyword argument, at most [n]
    positional ones, the first [n] supplied ones when there are that many,
    and [n] is not more than the number of supplied arguments. *)
Definition arity_ok (e : addr) (args : list value) (kw : kwargs) (c : call)
    : Prop :=
  forall n, c_site c = InTrigger e (SInt n) -> 0 <= n ->
    c_kwargs c = ∅
    /\ Z.of_nat (length (c_args c)) <= n
    /\ n <= Z.of_nat (length args) + Z.of_nat (size kw)
    /\ (n <= Z.of_nat (length args) -> c_args c = take (Z.to_nat n) args).

(** ** Example programs *)

(** Callbacks used in the examples: [0] is [def f(a, b)], [1] is
    [def g(): e.disconnect(h)], [2] is [def h(x): e.disconnect(g)], [3] is
    the bound method [obj.m] of [def m(self, a)], [4] is
    [def p(): e.disconnect(q)], [5] is [def q(): e.disconnect(p)], the
    others are
    [def k()] with an empty body; [e] is the event at address [0]. *)
Definition ex_funcs (f : fid) : pyfunc :=
  match f with
  | 0%nat => PyFunc ["a"; "b"]%string 0%nat false false false []
  | 1%nat => PyFunc [] 0%nat false false false [ADisconnect 0%nat 2%nat]
  | 2%nat => PyFunc ["x"]%string 0%nat false false false [ADisconnect 0%nat 1%nat]
  | 3%nat => PyFunc ["self"; "a"]%string 0%nat false false true []
  | 4%nat => PyFunc [] 0%nat false false false [ADisconnect 0%nat 5%nat]
  | 5%nat => PyFunc [] 0%nat false false false [ADisconnect 0%nat 4%nat]
  | _ => PyFunc [] 0%nat false false false []
  end.

(** A heap with one event, [Event()], at address [0]. *)
Definition ex_state : state :=
  State {[ 0%nat := empty_event "" None ]} ∅ None [].

(** [e.connect(f, 2); e.trigger(1, z=3)]. *)
Definition ex_backfill : M unit :=
  do! connect ex_funcs 0%nat (VFunc 0%nat) (NInt 2) in
  trigger ex_funcs 0%nat [VInt 1] {[ "z"%string := VInt 3 ]}.

(** The event [e] after [e.connect(f, 2)], and the heap that holds it. *)
Definition ex_event_f2 : event_obj :=
  EventObj "" None {[ SInt 2 := {[ 0%nat ]} ]} false None.

Definition ex_state_f2 : state :=
  State {[ 0%nat := ex_event_f2 ]} ∅ None [].

(** [e.connect(g, 0); e.connect(h, 1)]: each of the two callbacks
    disconnects the other one. *)
Definition ex_state_gh : state :=
  ((do! connect ex_funcs 0%nat (VFunc 1%nat) (NInt 0) in
    connect ex_funcs 0%nat (VFunc 2%nat) (NInt 1)) ex_state).1.

(** [e.connect(p); e.connect(q)], both under ['all']. *)
Definition ex_state_pq : state :=
  ((do! connect ex_funcs 0%nat (VFunc 4%nat) NAll in
    connect ex_funcs 0%nat (VFunc 5%nat) NAll) ex_state).1.

(** [e.connect(obj.m, 'auto')]. *)
Definition ex_state_auto : state :=
  (connect ex_funcs 0%nat (VFunc 3%nat) NAuto ex_state).1.

(** [Event(doc, arguments=("a", ("b", 10)))] in an empty heap: the event is
    at address [0]; then it is connected and suppressed. *)
Definition ex_state_sig : state :=
  ((do! Event_init "doc" (Some [ArgName "a"; ArgDefault "b" (VInt 10)]) in
    do! connect ex_funcs 0%nat (VFunc 0%nat) (NInt 2) in
    set_flag 0%nat true) (State ∅ ∅ None [])).1.

(** A container at address [0] that holds the event [0] under the name
    [changed]. *)
Definition ex_container : events_obj :=
  EventsObj {[ "changed"%string := 0%nat ]}
            {[ "_events"%string; "__doc__"%string ]}.

Definition ex_state_c : state :=
  State {[ 0%nat := empty_event "" None ]} {[ 0%nat := ex_container ]} None [].

(** ** Invariants *)

(** [m] leads from every state to a state related to it by [R]. *)
Definition preserves {A} (R : state -> state -> Prop) (m : M A) : Prop :=
  forall s, R s (m s).1.

(** The suppression flag of the event at [e], if there is one. *)
Definition flag_of (s : state) (e : addr) : option bool :=
  ev_suppress <$> st_events s !! e.

Definition same_flags (s s' : state) : Prop :=
  forall a, flag_of s' a = flag_of s a.

(** The call was made by the loop of [trigger] running on [e]. *)
Definition from_trigger_of (e : addr) (c : call) : Prop :=
  exists k, c_site c = InTrigger e k.

(** The invariant inside [with e.suppress()]: [e] is suppressed, and since
    [log0] no call was made by the trigger of [e]. *)
Definition suppressed_inv (e : addr) (log0 : list call) (s : state) : Prop :=
  flag_of s e = Some true
  /\ log_ext (fun c => ~ from_trigger_of e c) log0 s.

(** Whether the program contains the statement [e.connect(f, ...)]. *)
Fixpoint connects_to (e : addr) (f : fid) (p : stmt) : bool :=
  match p with
  | SSeq a b => connects_to e f a || connects_to e f b
  | SConnect a (VFunc g) _ => bool_decide (a = e /\ g = f)
  | SWithSuppress _ body => connects_to e f body
  | SWithSuppressCallback _ _ body => connects_to e f body
  | SWithEventsSuppress _ body => connects_to e f body
  | _ => false
  end.

(** No callback connects [f] to [e] when it runs. *)
Definition no_callback_connects (funcs : fid -> pyfunc) (e : addr) (f : fid)
    : Prop :=
  forall g n, AConnect e f n ∉ fn_body (funcs g).

(** The sets of callbacks of the event at [e], by selector. *)
Definition connected_of (s : state) (e : addr)
    : option (gmap selector (gset fid)) :=
  ev_connected <$> st_events s !! e.

(** The event at [e] exists and [f] is under none of its selectors. *)
Definition not_connected (e : addr) (f : fid) (s : state) : Prop :=
  exists c, connected_of s e = Some c
            /\ forall k fs, c !! k = Some fs -> f ∉ fs.

(** The call was made by the trigger of [e] and is a call of [f]. *)
Definition call_of (e : addr) (f : fid) (c : call) : Prop :=
  from_trigger_of e c /\ c_func c = f.

(** The invariant inside [with e.suppress_callback(f)]. *)
Definition callback_suppressed_inv (e : addr) (f : fid) (log0 : list call)
    (s : state) : Prop :=
  not_connected e f s /\ log_ext (fun c => ~ call_of e f c) log0 s.

(** [f] is registered under the selector [k] of the event at [e]. *)
Definition registered_under (s : state) (e : addr) (f : fid) (k : selector)
    : Prop :=
  exists c fs, connected_of s e = Some c /\ c !! k = Some fs /\ f ∈ fs.

(** The selectors that [suppress_callback] finds [f] under. *)
Definition found_in (c : gmap selector (gset fid)) (f : fid) : list selector :=
  (filter (fun kc : selector * gset fid => f ∈ kc.2) (map_to_list c)).*1.

(** Two events, at [0] and [1], each with the callback [6] under the
    selector 0, and a container at [0] that holds the first one only. *)
Definition ex_event_k : event_obj :=
  EventObj "" None {[ SInt 0 := {[ 6%nat ]} ]} false None.

Definition ex_state_two : state :=
  State {[ 0%nat := ex_event_k; 1%nat := ex_event_k ]}
        {[ 0%nat := ex_container ]} None [].

(** [es.add(events, k)] on a new suppressor. *)
Definition ex_cms : list cm :=
  match add 1 [] [VEvents 0%nat; VFunc 6%nat] ex_state_two with
  | Some (cms, _) => cms
  | None => []
  end.

(** The heap after [events.other = e1], done after the [add]. *)
Definition ex_state_two_later : state :=
  (Events_setattr 0%nat "other" 1%nat ex_state_two).1.

(** ** Nested scopes *)

Section Nested.

Variable funcs : fid -> pyfunc.

(** The statement [with c1: with c2: ... with cn: body] written with the
    managers in registration order: a manager is exited when, and only
    when, it was entered, after everything entered later has been exited.
    Returns the final state, the managers afterwards and how the statement
    ends. *)
Fixpoint nested_with (cms : list cm) (body : M unit) (s : state)
    : state * list cm * result unit :=
  match cms with
  | [] => let '(s1, r) := body s in (s1, [], r)
  | c :: rest =>
      match cm_enter funcs c s with
      | (s1, c1, Err x) => (s1, c1 :: rest, Err x)
      | (s1, c1, Ok _) =>
          let '(s2, rest', r) := nested_with rest body s1 in
          match cm_exit funcs c1 s2 with
          | (s3, c2, Ok _) => (s3, c2 :: rest', r)
          | (s3, c2, Err y) => (s3, c2 :: rest', Err y)
          end
      end
  end.

End Nested.

(** No event object disappears from [s] to [s']. *)
Definition alive (s s' : state) : Prop :=
  forall a, is_Some (st_events s !! a) -> is_Some (st_events s' !! a).

(** The events that the local variables of a suspended manager refer to
    exist. *)
Definition locals_alive (k : cm_kind) (l : cm_locals) (s : state) : Prop :=
  match k, l with
  | CmSuppress e, LOld _ => is_Some (st_events s !! e)
  | CmSuppressCallback e v, LFound found =>
      found = [] \/ (is_Some (st_events s !! e) /\ exists f, v = VFunc f)
  | CmEventsSuppress _, LOlds old =>
      forall a, is_Some (old !! a) -> is_Some (st_events s !! a)
  | _, _ => True
  end.

(** The manager is not inside its scope: it was never entered, or it has
    been exited. *)
Definition idle (c : cm) : Prop :=
  match cm_state c with Suspended _ => False | _ => True end.

(** No event is registered under two names of the container a manager
    suppresses. *)
Definition distinct_events (s : state) (c : cm) : Prop :=
  match cm_gen c with
  | CmEventsSuppress a =>
      forall co, st_containers s !! a = Some co -> NoDup (Events_iter co)
  | _ => True
  end.

Section Unwind.

Variable funcs : fid -> pyfunc.

(** The [finally] clause of [EventSupressor.suppress] for the managers
    [entered], when the statement would otherwise end with [r]. *)
Definition unwind (entered rest : list cm) (r : result unit) (s : state)
    : state * list cm * result unit :=
  match exit_all funcs entered rest s with
  | (s3, cms', Ok _) => (s3, cms', r)
  | (s3, cms', Err y) => (s3, cms', Err y)
  end.

(** [EventSupressor.suppress] from the middle of its first loop: [entered]
    have been entered, [todo] are still to be. *)
Definition suppress_from (entered todo : list cm) (body : M unit) (s : state)
    : state * list cm * result unit :=
  match enter_all funcs todo entered s with
  | (s1, entered', rest, Ok _) =>
      let '(s2, r) := body s1 in unwind entered' rest r s2
  | (s1, entered', rest, Err x) => unwind entered' rest (Err x) s1
  end.

End Unwind.

Definition same_containers (s s' : state) : Prop :=
  st_containers s' = st_containers s.

(** A suppressor for the event [0] and for the callback [6] in the event
    [1], as [EventSupressor(e0, (e1, k))] builds it. *)
Definition ex_cms_two : list cm :=
  [new_cm (CmSuppress 0%nat); new_cm (CmSuppressCallback 1%nat (VFunc 6%nat))].

(** What [add] appends to [_cms]: managers that have not been entered, for
    an event or for a callback of an event. *)
Definition built_by_add (c : cm) : Prop :=
  cm_state c = Fresh
  /\ match cm_gen c with CmEventsSuppress _ => False | _ => True end.

(** A container that holds the event [0] under two names. *)
Definition ex_state_alias : state :=
  State {[ 0%nat := empty_event "" None ]}
        {[ 0%nat := EventsObj {[ "a"%string := 0%nat; "b"%string := 0%nat ]}
                              {[ "_events"%string ]} ]} None [].

(** [e1 = Event(arguments=["a"]); e2 = Event(arguments=["a"])], with the
    callback [7] connected to [e1] and the callback [8] to [e2], then
    [e1.trigger(1)]. *)
Definition ex_two_signatures : state * result unit :=
  (let! e1 := Event_init "" (Some [ArgName "a"]) in
   let! e2 := Event_init "" (Some [ArgName "a"]) in
   do! connect ex_funcs e1 (VFunc 7%nat) (NInt 0) in
   do! connect ex_funcs e2 (VFunc 8%nat) (NInt 0) in
   call_trigger ex_funcs e1 [VInt 1] ∅) (State ∅ ∅ None []).

(** ** Vocabulary of the further properties *)

(** From [s] to [s'] no event and no selector of an event has been
    removed. *)
Definition selectors_kept (s s' : state) : Prop :=
  forall a c, connected_of s a = Some c ->
    exists c', connected_of s' a = Some c' /\ dom c ⊆ dom c'.

(** A call made by the trigger [e.trigger( *args, **kw)] itself; under
    ['all'] it passes every argument as supplied. *)
Definition verbatim (e : addr) (args : list value) (kw : kwargs) (c : call)
    : Prop :=
  exists k, c_site c = InTrigger e k
            /\ (k = SAll -> c_args c = args /\ c_kwargs c = kw).

(** The site and the callable of a call. *)
Definition call_key (c : call) : site * fid := (c_site c, c_func c).

(** The calls the loop of [e.trigger] makes for the callbacks [fs]
    registered under [k]. *)
Definition group_calls (e : addr) (k : selector) (fs : list fid)
    : list (site * fid) :=
  (fun f => (InTrigger e k, f)) <$> fs.

(** The calls a trigger of [e] makes when nothing stops it, in order. *)
Definition expected_calls (e : addr) (c : gmap selector (gset fid))
    : list (site * fid) :=
  map_to_list c ≫= (fun kc => group_calls e kc.1 (elements kc.2)).

(** What a part of a trigger does from [s] when its callbacks do nothing:
    the events stay [evs], and the calls it adds are a prefix of [out], all
    of [out] when it returns. *)
Definition traces (evs : gmap addr event_obj) (out : list (site * fid))
    (m : M unit) : Prop :=
  forall s, st_events s = evs ->
    exists new, st_events (m s).1 = evs
                /\ st_log (m s).1 = st_log s ++ new
                /\ call_key <$> new `prefix_of` out
                /\ ((m s).2 = Ok tt -> call_key <$> new = out).

(** An element of [arguments] that is a name, not a [(name, default)]
    pair. *)
Definition is_bare (a : argspec) : bool :=
  match a with ArgName _ => true | ArgDefault _ _ => false end.

(** The event of [ex_state_sig]. *)
Definition ex_event_sig : event_obj :=
  default (empty_event "" None) (st_events ex_state_sig !! 0%nat).

(** The manager that [add] builds for an [Event] or an
    [(Event, callback)] target. *)
Definition simple_target (t : value) : option cm :=
  match t with
  | VEvent e => Some (new_cm (CmSuppress e))
  | VTuple [VEvent e; VFunc f] =>
      Some (new_cm (CmSuppressCallback e (VFunc f)))
  | _ => None
  end.

(** * Proofs *)

(** ** Reasoning about state transformers *)

Lemma hoare_bind {A B} (P : state -> Prop) (R : A -> state -> Prop)
    (Q : result B -> state -> Prop) (m : M A) (k : A -> M B) :
  hoare P m (fun r s' => match r with Ok a => R a s' | Err x => Q (Err x) s' end) ->
  (forall a, hoare (R a) (k a) Q) ->
  hoare P (bind m k) Q.
Proof.
  intros Hm Hk s s' r HP. unfold bind.
  destruct (m s) as [s1 [a|x]] eqn:E; intros H.
  - eapply Hk; [|exact H]. exact (Hm _ _ _ HP E).
  - inversion H; subst. exact (Hm _ _ _ HP E).
Qed.

Lemma keeps_bind {A B} (I : state -> Prop) (m : M A) (k : A -> M B) :
  keeps I m -> (forall a, keeps I (k a)) -> keeps I (bind m k).
Proof.
  intros Hm Hk. apply hoare_bind with (R := fun _ => I); [|exact Hk].
  intros s s' r HI E. specialize (Hm _ _ _ HI E). by destruct r.
Qed.

Lemma keeps_ret {A} (I : state -> Prop) (a : A) : keeps I (ret a).
Proof. intros s s' r HI [= <- _]. done. Qed.

Lemma keeps_raise {A} (I : state -> Prop) (x : exn) : keeps I (@raise A x).
Proof. intros s s' r HI [= <- _]. done. Qed.

Lemma keeps_for_each {A} (I : state -> Prop) (l : list A) (k : A -> M unit) :
  (forall a, a ∈ l -> keeps I (k a)) -> keeps I (for_each l k).
Proof.
  induction l as [|a l IH]; intros Hk; simpl.
  - apply keeps_ret.
  - apply keeps_bind.
    + apply Hk. by left.
    + intros _. apply IH. intros b Hb. apply Hk. by right.
Qed.

Lemma keeps_get_event (I : state -> Prop) (a : addr) : keeps I (get_event a).
Proof.
  intros s s' r HI. unfold get_event.
  destruct (st_events s !! a); intros [= <- _]; done.
Qed.

Lemma keeps_get_container (I : state -> Prop) (a : addr) :
  keeps I (get_container a).
Proof.
  intros s s' r HI. unfold get_container.
  destruct (st_containers s !! a); intros [= <- _]; done.
Qed.

(** [get_event] returns the object stored at the address. *)
Lemma hoare_get_event (I : state -> Prop) (a : addr)
    (Q : result event_obj -> state -> Prop) :
  (forall s e, I s -> st_events s !! a = Some e -> Q (Ok e) s) ->
  (forall s, I s -> st_events s !! a = None -> Q (Err NoSuchObject) s) ->
  hoare I (get_event a) Q.
Proof.
  intros H1 H2 s s' r HI. unfold get_event.
  destruct (st_events s !! a) eqn:E; intros [= <- <-]; auto.
Qed.

(** An error in the body of a loop ends the loop with an error. *)
Lemma for_each_fails {A} (l : list A) (k : A -> M unit) (a : A) (s : state) :
  a ∈ l -> (forall s0, exists x, (k a s0).2 = Err x) ->
  exists x, (for_each l k s).2 = Err x.
Proof.
  intros Hin Hk. revert s. induction l as [|b l IH]; intros s.
  - by apply elem_of_nil in Hin.
  - simpl. unfold bind. destruct (k b s) as [s1 [[]|x]] eqn:E.
    + apply elem_of_cons in Hin as [->|Hin].
      * destruct (Hk s) as [x Hx]. rewrite E in Hx. done.
      * by apply IH.
    + by exists x.
Qed.

Lemma keeps_conj {A} (I J : state -> Prop) (m : M A) :
  keeps I m -> keeps J m -> keeps (fun s => I s /\ J s) m.
Proof.
  intros HI HJ s s' r [H1 H2] E. split; [eapply HI|eapply HJ]; eauto.
Qed.

(** ** The trace of calls *)

Lemma same_log_keeps {A} (Q : list call -> Prop) (m : M A) :
  same_log m -> keeps (fun s => Q (st_log s)) m.
Proof.
  intros Hm s s' r HQ E. specialize (Hm s). rewrite E in Hm. simpl in Hm.
  by rewrite Hm.
Qed.

Lemma same_log_bind {A B} (m : M A) (k : A -> M B) :
  same_log m -> (forall a, same_log (k a)) -> same_log (bind m k).
Proof.
  intros Hm Hk s. unfold bind. specialize (Hm s).
  destruct (m s) as [s1 [a|x]]; simpl in *; [|done].
  by rewrite Hk.
Qed.

Lemma same_log_for_each {A} (l : list A) (k : A -> M unit) :
  (forall a, same_log (k a)) -> same_log (for_each l k).
Proof.
  intros Hk. induction l as [|a l IH]; [done|].
  simpl. apply same_log_bind; auto.
Qed.

Lemma get_event_same_log (a : addr) : same_log (get_event a).
Proof. intros s. unfold get_event. by destruct (st_events s !! a). Qed.

Lemma put_event_same_log (a : addr) (e : event_obj) : same_log (put_event a e).
Proof. done. Qed.

Lemma set_flag_same_log (a : addr) (b : bool) : same_log (set_flag a b).
Proof.
  apply same_log_bind; [apply get_event_same_log|intros; apply put_event_same_log].
Qed.

Section LogFacts.

Variable funcs : fid -> pyfunc.

Lemma connect_same_log (a : addr) (f : value) (n : nargs_arg) :
  same_log (connect funcs a f n).
Proof.
  destruct f; try done. simpl.
  apply same_log_bind; [apply get_event_same_log|intros; apply put_event_same_log].
Qed.

Lemma disconnect_same_log (a : addr) (f : value) : same_log (disconnect a f).
Proof.
  destruct f; simpl;
    (apply same_log_bind; [apply get_event_same_log|intros; done]).
Qed.

Lemma run_action_same_log (a : action) : same_log (run_action funcs a).
Proof.
  destruct a; unfold run_action;
    [apply connect_same_log|apply disconnect_same_log|done].
Qed.

(** A call is recorded once, whatever its body does. *)
Lemma call_function_log (at_ : site) (f : fid) (args : list value)
    (kw : kwargs) (s : state) :
  st_log (call_function funcs at_ f args kw s).1
  = st_log s ++ [Call at_ f args kw].
Proof.
  unfold call_function, bind. simpl.
  destruct (call_binds _ _ _); [|done].
  by rewrite same_log_for_each by apply run_action_same_log.
Qed.

Lemma call_function_log_ext (P : call -> Prop) (log0 : list call)
    (at_ : site) (f : fid) (args : list value) (kw : kwargs) :
  P (Call at_ f args kw) ->
  keeps (log_ext P log0) (call_function funcs at_ f args kw).
Proof.
  intros HP s s' r [new [Hl Hn]] E.
  pose proof (call_function_log at_ f args kw s) as H. rewrite E in H.
  simpl in H. exists (new ++ [Call at_ f args kw]). split.
  - by rewrite H, Hl, (assoc_L (++)).
  - apply Forall_app. split; [done|]. by constructor.
Qed.

End LogFacts.

(** ** Integer selectors: the arguments a callback receives *)

Lemma slice_to_length {A} (l : list A) (n : Z) :
  0 <= n -> Z.of_nat (length (slice_to l n)) <= n.
Proof.
  intros Hn. unfold slice_to. destruct (Z.leb_spec 0 n); [|lia].
  rewrite length_take. lia.
Qed.

Lemma nargs_args_length (decl : option (list argspec)) (fn : pyfunc)
    (args a : list value) (kw : kwargs) (n : Z) :
  0 <= n -> nargs_args decl fn args kw n = Ok a ->
  Z.of_nat (length a) <= n.
Proof.
  intros Hn. unfold nargs_args.
  destruct (Z.of_nat (length args) <? n).
  - destruct (match decl with Some (a0 :: d) => _ | _ => _ end) as [a1 k1].
    destruct (Z.of_nat (length a1) <? n).
    + destruct (candidates fn (length a1)); [|done].
      intros [= <-]. by apply slice_to_length.
    + intros [= <-]. by apply slice_to_length.
  - intros [= <-]. by apply slice_to_length.
Qed.

Lemma nargs_args_enough (decl : option (list argspec)) (fn : pyfunc)
    (args : list value) (kw : kwargs) (n : Z) :
  0 <= n -> n <= Z.of_nat (length args) ->
  nargs_args decl fn args kw n = Ok (take (Z.to_nat n) args).
Proof.
  intros Hn Hle. unfold nargs_args.
  destruct (Z.ltb_spec (Z.of_nat (length args)) n); [lia|].
  unfold slice_to. by destruct (Z.leb_spec 0 n); [|lia].
Qed.

Section Arity.

Variable funcs : fid -> pyfunc.

Lemma _trigger_nargs_arity (log0 : list call) (e : addr) (f : fid)
    (args : list value) (kw : kwargs) (n : Z) :
  n <= Z.of_nat (length args) + Z.of_nat (size kw) ->
  keeps (log_ext (arity_ok e args kw) log0)
        (_trigger_nargs funcs e f args kw n).
Proof.
  intros Hle. unfold _trigger_nargs. apply keeps_bind.
  { apply keeps_get_event. }
  intros ev. destruct (nargs_args _ _ _ _ _) as [a|x] eqn:E.
  - apply call_function_log_ext. intros m [= <-] Hm. simpl.
    repeat split; [by eapply nargs_args_length|done|].
    intros Hargs. rewrite nargs_args_enough in E by done. by injection E as <-.
  - apply keeps_raise.
Qed.

Lemma iter_all_arity (log0 : list call) (e : addr) (args : list value)
    (kw : kwargs) (n0 i todo : nat) :
  keeps (log_ext (arity_ok e args kw) log0)
        (iter_all funcs e args kw n0 i todo).
Proof.
  revert i. induction todo as [|todo IH]; intros i; simpl.
  - apply keeps_bind; [apply keeps_get_event|]. intros ev.
    case_bool_decide; [apply keeps_ret|apply keeps_raise].
  - apply keeps_bind; [apply keeps_get_event|]. intros ev.
    case_bool_decide; [|apply keeps_raise].
    destruct (_ !! i); [|apply keeps_ret].
    apply keeps_bind; [|intros; apply IH].
    apply call_function_log_ext. intros m [=].
Qed.

Lemma trigger_group_arity (log0 : list call) (e : addr) (args : list value)
    (kw : kwargs) (k : selector) :
  keeps (log_ext (arity_ok e args kw) log0)
        (trigger_group funcs e args kw k).
Proof.
  destruct k as [|n]; simpl.
  - apply keeps_bind; [apply keeps_get_event|]. intros ev.
    apply iter_all_arity.
  - destruct (Z.ltb_spec (Z.of_nat (length args) + Z.of_nat (size kw)) n).
    + apply keeps_raise.
    + apply keeps_bind; [apply keeps_get_event|]. intros ev.
      apply keeps_for_each. intros f _. by apply _trigger_nargs_arity.
Qed.

Lemma trigger_arity (log0 : list call) (e : addr) (args : list value)
    (kw : kwargs) :
  keeps (log_ext (arity_ok e args kw) log0) (trigger funcs e args kw).
Proof.
  unfold trigger. apply keeps_bind; [apply keeps_get_event|]. intros ev.
  destruct (ev_suppress ev); [apply keeps_ret|].
  apply keeps_for_each. intros k _. apply trigger_group_arity.
Qed.

(** Reaching an integer selector with too few arguments raises the
    insufficient-arguments error and changes nothing. *)
Lemma trigger_group_insufficient (e : addr) (args : list value)
    (kw : kwargs) (n : Z) (s : state) :
  Z.of_nat (length args) + Z.of_nat (size kw) < n ->
  trigger_group funcs e args kw (SInt n) s = (s, Err ValueError).
Proof.
  intros Hlt. simpl.
  by destruct (Z.ltb_spec (Z.of_nat (length args) + Z.of_nat (size kw)) n);
    [|lia].
Qed.

End Arity.

(** The first loop of the backfill with bare declared names: the values of
    the declared names that are keyword arguments are appended in
    declaration order until [nargs] arguments are reached. *)
Lemma fill_declared_names (nargs : Z) (names : list string)
    (args : list value) (kw : kwargs) :
  NoDup names ->
  (fill_declared nargs (ArgName <$> names) args kw).1
  = args ++ take (Z.to_nat (nargs - Z.of_nat (length args)))
                 (omap (fun n => kw !! n) names).
Proof.
  revert args kw. induction names as [|x names IH]; intros args kw Hnd.
  - simpl. by rewrite take_nil, app_nil_r.
  - apply NoDup_cons in Hnd as [Hx Hnd]. cbn [fmap list_fmap fill_declared].
    destruct (Z.ltb_spec (Z.of_nat (length args)) nargs) as [Hlt|Hge].
    + cbn [omap list_omap]. destruct (kw !! x) as [v|] eqn:Hkx.
      * rewrite IH by done. rewrite length_app. simpl.
        replace (Z.to_nat (nargs - Z.of_nat (length args)))
          with (S (Z.to_nat (nargs - Z.of_nat (length args + 1)))) by lia.
        simpl. rewrite <- (assoc_L (++)). simpl. do 3 f_equal.
        apply list_omap_ext, Forall_Forall2_diag, Forall_forall.
        intros y Hy. simpl. rewrite lookup_delete_ne; [done|]. by intros ->.
      * by rewrite IH.
    + replace (Z.to_nat (nargs - Z.of_nat (length args))) with 0%nat by lia.
      simpl. by rewrite app_nil_r.
Qed.

(** With enough declared names among the keyword arguments, the callback
    gets exactly [nargs] arguments: the positional ones, then the values of
    the declared names in declaration order. *)
Lemma nargs_args_declared (x : string) (names : list string) (fn : pyfunc)
    (args : list value) (kw : kwargs) (nargs : Z) :
  NoDup (x :: names) ->
  Z.of_nat (length args) < nargs ->
  nargs <= Z.of_nat (length args)
           + Z.of_nat (length (omap (fun n => kw !! n) (x :: names))) ->
  nargs_args (Some (ArgName <$> x :: names)) fn args kw nargs
  = Ok (args ++ take (Z.to_nat (nargs - Z.of_nat (length args)))
                     (omap (fun n => kw !! n) (x :: names)))
  /\ Z.of_nat (length (args ++ take (Z.to_nat (nargs - Z.of_nat (length args)))
                         (omap (fun n => kw !! n) (x :: names)))) = nargs.
Proof.
  intros Hnd Hlt Hle.
  assert (Hlen : Z.of_nat (length
            (args ++ take (Z.to_nat (nargs - Z.of_nat (length args)))
                       (omap (fun n => kw !! n) (x :: names)))) = nargs).
  { rewrite length_app, length_take. lia. }
  split; [|done]. unfold nargs_args.
  destruct (Z.ltb_spec (Z.of_nat (length args)) nargs); [|lia].
  pose proof (fill_declared_names nargs (x :: names) args kw Hnd) as Hfill.
  cbn [fmap list_fmap].
  destruct (fill_declared _ _ _ _) as [a1 k1] eqn:E.
  assert (Ha1 : a1 = args ++ take (Z.to_nat (nargs - Z.of_nat (length args)))
                               (omap (fun n => kw !! n) (x :: names))).
  { exact Hfill. }
  rewrite Ha1.
  destruct (Z.ltb_spec (Z.of_nat (length
              (args ++ take (Z.to_nat (nargs - Z.of_nat (length args)))
                         (omap (fun n => kw !! n) (x :: names))))) nargs);
    [lia|].
  unfold slice_to. destruct (Z.leb_spec 0 nargs); [|lia].
  f_equal. apply take_ge. lia.
Qed.




(** ** The callbacks a trigger calls *)

(** C2 fails on the code at two callbacks that disconnect each other.  Both
    are connected when the trigger starts; the copy of [_connected] shares
    its sets with the event, so the first callback called empties the set
    of the other selector before the loop copies it, and one callback only
    is called.  Under ['all'] the set is iterated without a copy, and the
    change of size makes the loop raise [RuntimeError] after one call. *)
Theorem trigger_reads_live_sets :
  (connected 0%nat None ex_state_gh).2 = Ok ({[ 1%nat; 2%nat ]} : gset fid)
  /\ length (st_log (trigger ex_funcs 0%nat [VInt 7] ∅ ex_state_gh).1) = 1%nat
  /\ (trigger ex_funcs 0%nat [VInt 7] ∅ ex_state_gh).2 = Ok tt
  /\ (connected 0%nat None ex_state_pq).2 = Ok ({[ 4%nat; 5%nat ]} : gset fid)
  /\ length (st_log (trigger ex_funcs 0%nat [] ∅ ex_state_pq).1) = 1%nat
  /\ (trigger ex_funcs 0%nat [] ∅ ex_state_pq).2 = Err RuntimeError.
Proof. repeat split; by vm_compute. Qed.

(** ** Automatic arity *)

(** C8 fails on the code at a bound method: [connect(obj.m, 'auto')] for
    [def m(self, a)] stores the callback under 2, the length of
    [spec.args], which counts the receiver.  The method takes one argument,
    so a trigger with one argument raises the insufficient-arguments error
    and a trigger with two calls the method with one argument too many. *)
Theorem connect_auto_counts_receiver :
  fn_ismethod (ex_funcs 3%nat) = true
  /\ fn_args (ex_funcs 3%nat) = ["self"; "a"]%string
  /\ resolve_nargs ex_funcs 3%nat NAuto = SInt 2
  /\ (connected 0%nat (Some (SInt 2)) ex_state_auto).2
     = Ok ({[ 3%nat ]} : gset fid)
  /\ (trigger ex_funcs 0%nat [VInt 5] ∅ ex_state_auto).2 = Err ValueError
  /\ (trigger ex_funcs 0%nat [VInt 5; VInt 6] ∅ ex_state_auto).2
     = Err TypeError.
Proof. repeat split; by vm_compute. Qed.

(** What ['auto'] resolves to in general: ['all'] for a callback with
    variable parameters, and otherwise the number of names in
    [spec.args]. *)
Lemma resolve_nargs_auto (funcs : fid -> pyfunc) (f : fid) :
  resolve_nargs funcs f NAuto
  = if fn_varargs (funcs f) || fn_keywords (funcs f) then SAll
    else SInt (Z.of_nat (length (fn_args (funcs f)))).
Proof. reflexivity. Qed.

(** ** Targets of a suppressor *)

(** C5 fails on the code at [es.add(1, 2)]: no argument is a target, the
    loop over the arguments skips both, and [add] returns without an error
    and without adding anything. *)
Theorem add_without_target_returns (cms : list cm) (s : state) :
  _is_target (VInt 1) = Ok false
  /\ _is_target (VInt 2) = Ok false
  /\ add 1 cms [VInt 1; VInt 2] s = Some (cms, Ok tt).
Proof. done. Qed.

(** The two places where [add] does raise: no argument at all, and a single
    argument that is neither a target nor iterable. *)
Lemma add_raises (cms : list cm) (s : state) :
  add 1 cms [] s = Some (cms, Err ValueError)
  /\ add 2 cms [VInt 1] s = Some (cms, Err ValueError).
Proof. done. Qed.

(** ** Copies of an event *)

Lemma fresh_addr_unused (s : state) : st_events s !! fresh_addr s = None.
Proof. unfold fresh_addr. apply not_elem_of_dom. apply is_fresh. Qed.

(** The trigger of an event without connections calls nothing. *)
Lemma trigger_default (funcs : fid -> pyfunc) (doc : string) (a : addr)
    (args : list value) (kw : kwargs) (s : state) :
  st_events s !! a = Some (empty_event doc None) ->
  call_trigger funcs a args kw s = (s, Ok tt).
Proof.
  intros Ha. unfold call_trigger, bind, get_event. rewrite Ha. simpl.
  unfold trigger, bind, get_event. rewrite Ha. simpl.
  by rewrite map_to_list_empty.
Qed.

(** C10: the deep copy of an event is a new object that equals [Event()]:
    no connection, not suppressed, an empty docstring, no argument list and
    no generated [trigger]; the other objects are unchanged, and the copy
    accepts a trigger with any arguments. *)
Theorem Event_deepcopy_is_default (funcs : fid -> pyfunc) (e : addr)
    (s : state) :
  is_Some (st_events s !! e) ->
  exists c s',
    Event_deepcopy e s = (s', Ok c)
    /\ st_events s !! c = None
    /\ st_events s' !! c = Some (EventObj "" None ∅ false None)
    /\ (forall a, a <> c -> st_events s' !! a = st_events s !! a)
    /\ (connected c None s').2 = Ok ∅
    /\ (forall args kw, call_trigger funcs c args kw s' = (s', Ok tt)).
Proof.
  intros [ev Hev].
  exists (fresh_addr s), (set_events <[fresh_addr s := empty_event "" None]> s).
  assert (Hc : st_events (set_events <[fresh_addr s := empty_event "" None]> s)
               !! fresh_addr s = Some (empty_event "" None))
    by apply lookup_insert_eq.
  split; [|split; [|split; [|split; [|split]]]].
  - unfold Event_deepcopy, bind, get_event. by rewrite Hev.
  - apply fresh_addr_unused.
  - exact Hc.
  - intros a Ha. simpl. by rewrite lookup_insert_ne.
  - unfold connected, bind, get_event. rewrite Hc. simpl.
    by rewrite map_to_list_empty.
  - intros args kw. by eapply trigger_default.
Qed.

(** C10 at an event built with the arguments [("a", ("b", 10))], then
    connected and suppressed: [e.trigger()] is refused by the generated
    function, and the copy has none of this. *)
Lemma Event_deepcopy_is_default_witness :
  (call_trigger ex_funcs 0%nat [] ∅ ex_state_sig).2 = Err TypeError
  /\ (ev_suppress <$> st_events ex_state_sig !! 0%nat) = Some true
  /\ exists c s',
    Event_deepcopy 0%nat ex_state_sig = (s', Ok c)
    /\ st_events ex_state_sig !! c = None
    /\ st_events s' !! c = Some (EventObj "" None ∅ false None)
    /\ (forall a, a <> c -> st_events s' !! a = st_events ex_state_sig !! a)
    /\ (connected c None s').2 = Ok ∅
    /\ (forall args kw, call_trigger ex_funcs c args kw s' = (s', Ok tt)).
Proof.
  split; [by vm_compute|]. split; [by vm_compute|].
  apply Event_deepcopy_is_default. eexists. vm_compute. reflexivity.
Defined.

(** ** Retrieval of an event by name *)

(** C9: [__getattr__] returns the event registered under the name and
    raises [KeyError] for a name that is not registered; the expression
    [events.name] is that call for every name that ordinary lookup does not
    find. *)
Theorem Events_getattr_registered (self : addr) (name : string)
    (c : events_obj) (s : state) :
  st_containers s !! self = Some c ->
  (forall e, es_events c !! name = Some e ->
     Events__getattr__ self name s = (s, Ok (AttrEvent e)))
  /\ (es_events c !! name = None ->
      Events__getattr__ self name s = (s, Err KeyError))
  /\ (name ∉ es_dict c -> name ∉ class_members ->
      Events_getattr self name s = Events__getattr__ self name s).
Proof.
  intros Hc. split; [|split].
  - intros e He. unfold Events__getattr__, bind, get_container.
    by rewrite Hc, He.
  - intros He. unfold Events__getattr__, bind, get_container.
    by rewrite Hc, He.
  - intros H1 H2. unfold Events_getattr, bind at 1, get_container at 1.
    rewrite Hc. by rewrite !bool_decide_eq_false_2.
Qed.

(** C9 at a container that holds one event under the name [changed]. *)
Lemma Events_getattr_registered_witness :
  Events_getattr 0%nat "changed" ex_state_c = (ex_state_c, Ok (AttrEvent 0%nat))
  /\ Events_getattr 0%nat "missing" ex_state_c = (ex_state_c, Err KeyError).
Proof.
  split.
  - destruct (Events_getattr_registered 0%nat "changed" ex_container
                ex_state_c eq_refl) as (H1 & _ & H3).
    rewrite H3; [by apply H1| |]; apply (bool_decide_unpack _); by vm_compute.
  - destruct (Events_getattr_registered 0%nat "missing" ex_container
                ex_state_c eq_refl) as (_ & H2 & H3).
    rewrite H3; [by apply H2| |]; apply (bool_decide_unpack _); by vm_compute.
Defined.

(** ** Relations kept by every step *)

Lemma preserves_bind {A B} (R : relation state) `{!PreOrder R}
    (m : M A) (k : A -> M B) :
  preserves R m -> (forall a, preserves R (k a)) -> preserves R (bind m k).
Proof.
  intros Hm Hk s. unfold bind. specialize (Hm s).
  destruct (m s) as [s1 [a|x]]; simpl in *; [|done].
  etrans; [exact Hm|apply Hk].
Qed.

Lemma preserves_for_each {A} (R : relation state) `{!PreOrder R}
    (l : list A) (k : A -> M unit) :
  (forall a, preserves R (k a)) -> preserves R (for_each l k).
Proof.
  intros Hk. induction l as [|a l IH]; [intros s; simpl; reflexivity|].
  simpl. apply preserves_bind; auto.
Qed.

Lemma preserves_get_event (R : relation state) `{!PreOrder R} (a : addr) :
  preserves R (get_event a).
Proof.
  intros s. unfold get_event. destruct (st_events s !! a); simpl; reflexivity.
Qed.

Lemma preserves_keeps {A} (R : relation state) (I : state -> Prop) (m : M A) :
  (forall s s', I s -> R s s' -> I s') -> preserves R m -> keeps I m.
Proof.
  intros HR Hm s s' r HI E. apply (HR s); [done|].
  specialize (Hm s). by rewrite E in Hm.
Qed.

Global Instance same_flags_preorder : PreOrder same_flags.
Proof.
  split; [done|]. intros s1 s2 s3 H12 H23 a. by rewrite H23, H12.
Qed.

(** Replacing the connections of an event keeps every flag. *)
Lemma put_connected_same_flags (a : addr) (ev : event_obj)
    (c : gmap selector (gset fid)) (s : state) :
  st_events s !! a = Some ev ->
  same_flags s (put_event a (set_connected c ev) s).1.
Proof.
  intros Ha b. unfold flag_of. simpl.
  destruct (decide (a = b)) as [->|Hne].
  - by rewrite lookup_insert_eq, Ha.
  - by rewrite lookup_insert_ne.
Qed.

Section Flags.

Variable funcs : fid -> pyfunc.

Lemma connect_same_flags (a : addr) (f : value) (n : nargs_arg) :
  preserves same_flags (connect funcs a f n).
Proof.
  intros s. destruct f; try done. unfold connect, bind, get_event.
  destruct (st_events s !! a) as [ev|] eqn:Ha; [|done].
  by apply put_connected_same_flags.
Qed.

Lemma disconnect_same_flags (a : addr) (f : value) :
  preserves same_flags (disconnect a f).
Proof.
  intros s. unfold disconnect.
  destruct f; unfold bind, get_event;
    destruct (st_events s !! a) as [ev|] eqn:Ha; try done.
  by apply put_connected_same_flags.
Qed.

Lemma run_action_same_flags (a : action) :
  preserves same_flags (run_action funcs a).
Proof.
  destruct a; unfold run_action;
    [apply connect_same_flags|apply disconnect_same_flags|done].
Qed.

Lemma call_function_same_flags (at_ : site) (f : fid) (args : list value)
    (kw : kwargs) :
  preserves same_flags (call_function funcs at_ f args kw).
Proof.
  unfold call_function. apply preserves_bind; [apply _|done|].
  intros _. destruct (call_binds _ _ _); [|done].
  apply preserves_for_each; [apply _|apply run_action_same_flags].
Qed.

End Flags.

(** ** Inside [with e.suppress()] *)

Lemma suppressed_inv_step (e : addr) (log0 new : list call) (s s' : state) :
  suppressed_inv e log0 s -> same_flags s s' ->
  st_log s' = st_log s ++ new ->
  Forall (fun c => ~ from_trigger_of e c) new ->
  suppressed_inv e log0 s'.
Proof.
  intros [Hf (old & Hl & Hold)] Hfl Hlog Hnew. split.
  - by rewrite Hfl.
  - exists (old ++ new). split.
    + by rewrite Hlog, Hl, (assoc_L (++)).
    + by apply Forall_app.
Qed.

Lemma suppressed_inv_frame {A} (e : addr) (log0 : list call) (m : M A) :
  preserves same_flags m -> same_log m -> keeps (suppressed_inv e log0) m.
Proof.
  intros Hf Hl s s' r HI E. specialize (Hf s). specialize (Hl s).
  rewrite E in Hf, Hl. simpl in *.
  apply (suppressed_inv_step e log0 [] s); [done..| |done].
  by rewrite app_nil_r.
Qed.

Section Suppressed.

Variable funcs : fid -> pyfunc.
Variable e : addr.
Variable log0 : list call.

Local Abbreviation Inv := (suppressed_inv e log0).

Lemma connect_suppressed (a : addr) (f : value) (n : nargs_arg) :
  keeps Inv (connect funcs a f n).
Proof.
  apply suppressed_inv_frame;
    [apply connect_same_flags|apply connect_same_log].
Qed.

Lemma disconnect_suppressed (a : addr) (f : value) :
  keeps Inv (disconnect a f).
Proof.
  apply suppressed_inv_frame;
    [apply disconnect_same_flags|apply disconnect_same_log].
Qed.

Lemma call_function_suppressed (at_ : site) (f : fid) (args : list value)
    (kw : kwargs) :
  ~ from_trigger_of e (Call at_ f args kw) ->
  keeps Inv (call_function funcs at_ f args kw).
Proof.
  intros Hat s s' r HI E.
  pose proof (call_function_same_flags funcs at_ f args kw s) as Hf.
  pose proof (call_function_log funcs at_ f args kw s) as Hl.
  rewrite E in Hf, Hl. simpl in *.
  eapply suppressed_inv_step; [done..|]. by constructor.
Qed.

Lemma other_trigger_site (g : addr) (k : selector) (f : fid)
    (args : list value) (kw : kwargs) :
  g <> e -> ~ from_trigger_of e (Call (InTrigger g k) f args kw).
Proof. intros Hne [k' [= -> _]]. done. Qed.

Lemma iter_all_suppressed (g : addr) (args : list value) (kw : kwargs)
    (n0 i todo : nat) :
  g <> e -> keeps Inv (iter_all funcs g args kw n0 i todo).
Proof.
  intros Hne. revert i. induction todo as [|todo IH]; intros i; simpl.
  - apply keeps_bind; [apply keeps_get_event|]. intros ev.
    case_bool_decide; [apply keeps_ret|apply keeps_raise].
  - apply keeps_bind; [apply keeps_get_event|]. intros ev.
    case_bool_decide; [|apply keeps_raise].
    destruct (_ !! i); [|apply keeps_ret].
    apply keeps_bind; [|intros; apply IH].
    by apply call_function_suppressed, other_trigger_site.
Qed.

Lemma trigger_group_suppressed (g : addr) (args : list value) (kw : kwargs)
    (k : selector) :
  g <> e -> keeps Inv (trigger_group funcs g args kw k).
Proof.
  intros Hne. destruct k as [|n]; simpl.
  - apply keeps_bind; [apply keeps_get_event|]. intros ev.
    by apply iter_all_suppressed.
  - destruct (_ <? n); [apply keeps_raise|].
    apply keeps_bind; [apply keeps_get_event|]. intros ev.
    apply keeps_for_each. intros f _. unfold _trigger_nargs.
    apply keeps_bind; [apply keeps_get_event|]. intros ev'.
    destruct (nargs_args _ _ _ _ _); [|apply keeps_raise].
    by apply call_function_suppressed, other_trigger_site.
Qed.

(** The trigger of the suppressed event does nothing; the trigger of
    another event makes calls of its own only. *)
Lemma trigger_suppressed (g : addr) (args : list value) (kw : kwargs) :
  keeps Inv (trigger funcs g args kw).
Proof.
  destruct (decide (g = e)) as [->|Hne].
  - intros s s' r HI. pose proof HI as [Hf _]. unfold flag_of in Hf.
    unfold trigger, bind, get_event.
    destruct (st_events s !! e) as [ev|]; simpl in Hf; [|done].
    injection Hf as ->. by intros [= <- _].
  - unfold trigger. apply keeps_bind; [apply keeps_get_event|]. intros ev.
    destruct (ev_suppress ev); [apply keeps_ret|].
    apply keeps_for_each. intros k _. by apply trigger_group_suppressed.
Qed.

Lemma call_trigger_suppressed (g : addr) (args : list value) (kw : kwargs) :
  keeps Inv (call_trigger funcs g args kw).
Proof.
  unfold call_trigger. apply keeps_bind; [apply keeps_get_event|]. intros ev.
  destruct (ev_wrapper ev) as [[names defaults]|]; [|apply trigger_suppressed].
  destruct (bind_signature _ _ _ _) as [kw'|x]; [|apply keeps_raise].
  destruct (kw' !! _) as [v|].
  - destruct v; try apply keeps_raise.
    apply call_function_suppressed. by intros [k [=]].
  - apply keeps_bind; [|intros; apply trigger_suppressed].
    intros s s' r HI. by destruct (st_glob_f s); intros [= <- _].
Qed.

Lemma set_flag_suppressed (a : addr) (b : bool) :
  (a = e -> b = true) -> keeps Inv (set_flag a b).
Proof.
  intros Hb s s' r [Hf Hl]. unfold set_flag, bind, get_event, put_event.
  destruct (st_events s !! a) as [ev|] eqn:Ha; intros [= <- _]; [|done].
  split; [|done]. unfold flag_of in *. simpl.
  destruct (decide (a = e)) as [->|Hne].
  - rewrite lookup_insert_eq. simpl. by rewrite Hb.
  - by rewrite lookup_insert_ne.
Qed.

(** Operations on a container touch neither the events nor the trace. *)
Lemma container_op_suppressed {A} (m : M A) :
  (forall s, st_events (m s).1 = st_events s /\ st_log (m s).1 = st_log s) ->
  keeps Inv m.
Proof.
  intros Hm s s' r [Hf Hl] E. destruct (Hm s) as [He Hlog].
  rewrite E in He, Hlog. simpl in *. split.
  - unfold flag_of in *. by rewrite He.
  - unfold log_ext in *. by rewrite Hlog.
Qed.

Lemma Events_setattr_suppressed (c : addr) (name : string) (a : addr) :
  keeps Inv (Events_setattr c name a).
Proof.
  apply container_op_suppressed. intros s.
  unfold Events_setattr, bind, get_container.
  by destruct (st_containers s !! c).
Qed.

Lemma Events_delattr_suppressed (c : addr) (name : string) :
  keeps Inv (Events_delattr c name).
Proof.
  apply container_op_suppressed. intros s.
  unfold Events_delattr, bind, get_container.
  destruct (st_containers s !! c) as [co|]; [|done].
  destruct (es_events co !! name); [done|]. by case_bool_decide.
Qed.

(** A scope keeps what its two halves and its body keep; [J] is what the
    second half needs to know about the local variables. *)
Lemma keeps_scoped {L A} (I : state -> Prop) (J : L -> Prop)
    (enter : M L) (exit : L -> M unit) (body : M A) :
  hoare I enter
    (fun r s' => I s' /\ match r with Ok l => J l | Err _ => True end) ->
  keeps I body -> (forall l, J l -> keeps I (exit l)) ->
  keeps I (scoped enter exit body).
Proof.
  intros Hen Hb Hex s s' r HI. unfold scoped, bind.
  destruct (enter s) as [s1 [l|x]] eqn:E1.
  - destruct (Hen _ _ _ HI E1) as [H1 HJ].
    destruct (body s1) as [s2 rb] eqn:E2.
    pose proof (Hb _ _ _ H1 E2) as H2.
    destruct (exit l s2) as [s3 [[]|y]] eqn:E3; intros [= <- _];
      by eapply (Hex l HJ _ _ _ H2 E3).
  - intros [= <- _]. by destruct (Hen _ _ _ HI E1).
Qed.

Lemma Event_suppress_enter_suppressed (a : addr) :
  hoare Inv (Event_suppress_enter a)
    (fun r s' => Inv s' /\ match r with
                           | Ok old => a = e -> old = true
                           | Err _ => True
                           end).
Proof.
  intros s s' r HI. unfold Event_suppress_enter, bind at 1, get_event at 1.
  destruct (st_events s !! a) as [ev|] eqn:Ha; [|by intros [= <- <-]].
  unfold bind. destruct (set_flag a true s) as [s1 [[]|x]] eqn:E1.
  - intros [= <- <-]. split.
    + by eapply (set_flag_suppressed a true).
    + intros ->. destruct HI as [Hf _]. unfold flag_of in Hf.
      rewrite Ha in Hf. by injection Hf.
  - intros [= <- <-]. split; [|done]. by eapply (set_flag_suppressed a true).
Qed.

Lemma suppress_all_suppressed (l : list addr) (old old' : gmap addr bool)
    (s s' : state) (r : result unit) :
  Inv s -> (forall b, old !! e = Some b -> b = true) ->
  suppress_all l old s = (s', old', r) ->
  Inv s' /\ (forall b, old' !! e = Some b -> b = true).
Proof.
  revert old s. induction l as [|a l IH]; intros old s HI HJ; simpl.
  - by intros [= <- <- _].
  - unfold get_event. destruct (st_events s !! a) as [ev|] eqn:Ha;
      [|by intros [= <- <- _]].
    apply IH.
    + destruct HI as [Hf Hl]. split; [|done]. unfold flag_of in *. simpl.
      destruct (decide (a = e)) as [->|Hne].
      * by rewrite lookup_insert_eq.
      * by rewrite lookup_insert_ne.
    + intros b. destruct (decide (a = e)) as [->|Hne].
      * rewrite lookup_insert_eq. intros [= <-].
        destruct HI as [Hf _]. unfold flag_of in Hf. rewrite Ha in Hf.
        by injection Hf.
      * rewrite lookup_insert_ne by done. apply HJ.
Qed.

Lemma Events_suppress_exit_suppressed (old : gmap addr bool) :
  (forall b, old !! e = Some b -> b = true) ->
  keeps Inv (Events_suppress_exit old).
Proof.
  intros HJ. apply keeps_for_each. intros [a b] Hab.
  apply elem_of_map_to_list in Hab. apply set_flag_suppressed.
  intros ->. by apply HJ.
Qed.

Lemma Events_suppress_enter_suppressed (c : addr) :
  hoare Inv (Events_suppress_enter c)
    (fun r s' => Inv s' /\ match r with
                           | Ok old => forall b, old !! e = Some b -> b = true
                           | Err _ => True
                           end).
Proof.
  intros s s' r HI. unfold Events_suppress_enter, bind, get_container.
  destruct (st_containers s !! c) as [co|]; [|by intros [= <- <-]].
  assert (H0 : forall b, (∅ : gmap addr bool) !! e = Some b -> b = true)
    by (intros b; by rewrite lookup_empty).
  destruct (suppress_all _ _ _) as [[s1 old] [[]|x]] eqn:E.
  - intros [= <- <-]. by eapply suppress_all_suppressed.
  - intros [= <- <-]. split; [|done].
    destruct (suppress_all_suppressed _ _ _ _ _ _ HI H0 E) as [H1 HJ].
    destruct (Events_suppress_exit old s1) as [s2 r2] eqn:E2.
    by eapply (Events_suppress_exit_suppressed old HJ).
Qed.

(** Every program keeps the invariant. *)
Lemma exec_suppressed (p : stmt) : keeps Inv (exec funcs p).
Proof.
  induction p; simpl.
  - apply keeps_ret.
  - apply keeps_bind; auto.
  - apply keeps_raise.
  - apply call_trigger_suppressed.
  - apply connect_suppressed.
  - apply disconnect_suppressed.
  - apply keeps_bind; [apply keeps_get_event|].
    intros _. apply Events_setattr_suppressed.
  - apply Events_delattr_suppressed.
  - eapply keeps_scoped;
      [apply Event_suppress_enter_suppressed|done|].
    intros old Hold. by apply set_flag_suppressed.
  - apply keeps_scoped with (J := fun _ => True); [|done|].
    + intros s s' r HI E. split; [|by destruct r].
      revert s s' r HI E. unfold suppress_callback_enter.
      apply keeps_bind; [apply keeps_get_event|]. intros ev.
      destruct (match function with VFunc _ => _ | _ => _ end);
        [apply keeps_ret|].
      apply keeps_bind; [apply disconnect_suppressed|].
      intros; apply keeps_ret.
    + intros found _. apply keeps_for_each. intros k _.
      apply connect_suppressed.
  - eapply keeps_scoped;
      [apply Events_suppress_enter_suppressed|done|].
    intros old Hold. by apply Events_suppress_exit_suppressed.
Qed.

End Suppressed.



(** ** What [connect] and [disconnect] do to the sets *)

Section Connections.

Variable funcs : fid -> pyfunc.

Lemma connect_some (a : addr) (g : fid) (n : nargs_arg) (ev : event_obj)
    (s : state) :
  st_events s !! a = Some ev ->
  connect funcs a (VFunc g) n s
  = (set_events
       <[a := set_connected
                (<[resolve_nargs funcs g n :=
                     default ∅ (ev_connected ev !! resolve_nargs funcs g n)
                     ∪ {[g]}]> (ev_connected ev)) ev]> s, Ok tt).
Proof.
  intros Ha. unfold connect, bind, get_event, put_event. rewrite Ha.
  destruct (ev_connected ev !! resolve_nargs funcs g n) as [fs|] eqn:Hk.
  - by rewrite Hk.
  - by rewrite lookup_insert_eq, insert_insert_eq.
Qed.

Lemma connect_none (a : addr) (f : value) (n : nargs_arg) (s : state) :
  st_events s !! a = None -> (connect funcs a f n s).1 = s.
Proof.
  intros Ha. unfold connect, bind, get_event. destruct f; try done.
  by rewrite Ha.
Qed.

Lemma disconnect_some (a : addr) (g : fid) (ev : event_obj) (s : state) :
  st_events s !! a = Some ev ->
  disconnect a (VFunc g) s
  = (set_events
       <[a := set_connected
                ((fun c : gset fid => c ∖ {[g]}) <$> ev_connected ev) ev]> s,
     Ok tt).
Proof.
  intros Ha. unfold disconnect, bind, get_event, put_event. by rewrite Ha.
Qed.

(** A value that is not a function changes nothing in either. *)
Lemma connect_not_function (a : addr) (f : value) (n : nargs_arg) (s : state) :
  (forall g, f <> VFunc g) -> connect funcs a f n s = (s, Err TypeError).
Proof. intros Hf. destruct f; try done. by destruct (Hf f). Qed.

Lemma disconnect_not_function (a : addr) (f : value) (s : state) :
  (forall g, f <> VFunc g) -> (disconnect a f s).1 = s.
Proof.
  intros Hf. destruct f; try (by destruct (Hf f));
    unfold disconnect, bind, get_event; by destruct (st_events s !! a).
Qed.

End Connections.

(** ** Inside [with e.suppress_callback(f)] *)

Lemma hoare_bind_get_event {B} (I : state -> Prop) (a : addr)
    (k : event_obj -> M B) :
  (forall ev, hoare (fun s => I s /\ st_events s !! a = Some ev) (k ev)
                    (fun _ s' => I s')) ->
  keeps I (bind (get_event a) k).
Proof.
  intros Hk s s' r HI. unfold bind, get_event.
  destruct (st_events s !! a) as [ev|] eqn:Ha.
  - apply (Hk ev). by split.
  - by intros [= <- _].
Qed.

Lemma connected_of_insert (a b : addr) (ev : event_obj) (s : state) :
  connected_of (set_events <[a := ev]> s) b
  = if decide (a = b) then Some (ev_connected ev) else connected_of s b.
Proof.
  unfold connected_of, set_events. cbn [st_events].
  destruct (decide (a = b)) as [->|Hne].
  - by rewrite lookup_insert_eq.
  - by rewrite lookup_insert_ne.
Qed.

Lemma connected_of_some (a : addr) (ev : event_obj) (s : state) :
  st_events s !! a = Some ev -> connected_of s a = Some (ev_connected ev).
Proof. intros Ha. unfold connected_of. by rewrite Ha. Qed.

Section CallbackSuppressed.

Variable funcs : fid -> pyfunc.
Variable e : addr.
Variable f : fid.
Variable log0 : list call.
Hypothesis Hfuncs : no_callback_connects funcs e f.

Local Abbreviation Inv := (callback_suppressed_inv e f log0).

Lemma callback_inv_frame (s s' : state) :
  Inv s -> connected_of s' e = connected_of s e -> st_log s' = st_log s ->
  Inv s'.
Proof.
  intros [(c & Hc & Hn) Hl] He Hlog. split.
  - exists c. by rewrite He.
  - unfold log_ext. by rewrite Hlog.
Qed.

Lemma callback_inv_log (c : call) (s : state) :
  ~ call_of e f c -> Inv s -> Inv (add_log c s).
Proof.
  intros Hc [Hn (new & Hl & Hnew)]. split; [done|].
  exists (new ++ [c]). split.
  - simpl. by rewrite Hl, (assoc_L (++)).
  - apply Forall_app. split; [done|]. by constructor.
Qed.

Lemma connect_callback_suppressed (a : addr) (g : fid) (n : nargs_arg) :
  ~ (a = e /\ g = f) -> keeps Inv (connect funcs a (VFunc g) n).
Proof.
  intros Hne s s' r HI E.
  pose proof (connect_same_log funcs a (VFunc g) n s) as Hlog.
  destruct (st_events s !! a) as [ev|] eqn:Ha.
  - rewrite (connect_some funcs a g n ev s Ha) in E, Hlog.
    injection E as <- _. simpl in Hlog.
    destruct (decide (a = e)) as [->|Hae].
    + destruct HI as [(c & Hc & Hn) Hl]. split; [|done].
      rewrite (connected_of_some _ _ _ Ha) in Hc. injection Hc as <-.
      eexists. split.
      { rewrite connected_of_insert. by rewrite decide_True. }
      intros k fs. cbn [ev_connected set_connected].
      destruct (decide (resolve_nargs funcs g n = k)) as [<-|Hk].
      * rewrite lookup_insert_eq. intros [= <-].
        apply not_elem_of_union. split; [|set_solver].
        destruct (ev_connected ev !! resolve_nargs funcs g n) eqn:Hr;
          simpl; [by eapply Hn|set_solver].
      * rewrite lookup_insert_ne by done. apply Hn.
    + apply (callback_inv_frame s); [done| |done].
      rewrite connected_of_insert. by rewrite decide_False.
  - pose proof (connect_none funcs a (VFunc g) n s Ha) as Hs.
    rewrite E in Hs. simpl in Hs. by subst.
Qed.

Lemma disconnect_callback_suppressed (a : addr) (v : value) :
  keeps Inv (disconnect a v).
Proof.
  intros s s' r HI E. destruct v as [|z|s0|l|g|a0|a0];
    try (match type of E with
         | disconnect _ ?v _ = _ =>
             assert (Hs : (disconnect a v s).1 = s)
               by (by apply disconnect_not_function)
         end; rewrite E in Hs; simpl in Hs; by subst).
  destruct (st_events s !! a) as [ev|] eqn:Ha.
  - rewrite (disconnect_some a g ev s Ha) in E. injection E as <- _.
    destruct (decide (a = e)) as [->|Hae].
    + destruct HI as [(c & Hc & Hn) Hl]. split; [|done].
      rewrite (connected_of_some _ _ _ Ha) in Hc. injection Hc as <-.
      eexists. split.
      { rewrite connected_of_insert. by rewrite decide_True. }
      intros k fs. cbn [ev_connected set_connected]. rewrite lookup_fmap.
      destruct (ev_connected ev !! k) as [fs0|] eqn:Hk; [|done].
      intros [= <-]. specialize (Hn k fs0 Hk). set_solver.
    + apply (callback_inv_frame s); [done| |done].
      rewrite connected_of_insert. by rewrite decide_False.
  - unfold disconnect, bind, get_event in E. rewrite Ha in E.
    by injection E as <- _.
Qed.

Lemma set_flag_callback_suppressed (a : addr) (b : bool) :
  keeps Inv (set_flag a b).
Proof.
  intros s s' r HI. unfold set_flag, bind, get_event, put_event.
  destruct (st_events s !! a) as [ev|] eqn:Ha; intros [= <- _]; [|done].
  apply (callback_inv_frame s); [done| |done].
  rewrite connected_of_insert. destruct (decide (a = e)) as [->|Hae]; [|done].
  by rewrite (connected_of_some _ _ _ Ha).
Qed.

Lemma container_op_callback_suppressed {A} (m : M A) :
  (forall s, st_events (m s).1 = st_events s /\ st_log (m s).1 = st_log s) ->
  keeps Inv m.
Proof.
  intros Hm s s' r HI E. destruct (Hm s) as [He Hlog].
  rewrite E in He, Hlog. simpl in *.
  apply (callback_inv_frame s); [done| |done].
  unfold connected_of. by rewrite He.
Qed.

Lemma run_action_callback_suppressed (a : action) :
  (forall n, a <> AConnect e f n) -> keeps Inv (run_action funcs a).
Proof.
  intros Ha. destruct a as [a g n|a g|]; unfold run_action.
  - apply connect_callback_suppressed. intros [-> ->]. by apply (Ha n).
  - apply disconnect_callback_suppressed.
  - apply keeps_raise.
Qed.

Lemma call_function_callback_suppressed (at_ : site) (g : fid)
    (args : list value) (kw : kwargs) :
  ~ call_of e f (Call at_ g args kw) ->
  keeps Inv (call_function funcs at_ g args kw).
Proof.
  intros Hc. unfold call_function. apply keeps_bind.
  - intros s s' r HI [= <- _]. by apply callback_inv_log.
  - intros _. destruct (call_binds _ _ _); [|apply keeps_raise].
    apply keeps_for_each. intros a Ha. apply run_action_callback_suppressed.
    intros n ->. by apply (Hfuncs g n).
Qed.

(** A callback found in a set of an event is not a call of [f] by [e]. *)
Lemma callee_not_suppressed (g : addr) (ev : event_obj) (k k' : selector)
    (h : fid) (args : list value) (kw : kwargs) (s : state) :
  Inv s -> st_events s !! g = Some ev ->
  h ∈ default ∅ (ev_connected ev !! k) ->
  ~ call_of e f (Call (InTrigger g k') h args kw).
Proof.
  intros [(c & Hc & Hn) _] Hg Hh [[k0 [= -> _]] Hf]. simpl in Hf. subst h.
  unfold connected_of in Hc. rewrite Hg in Hc. injection Hc as <-.
  destruct (ev_connected ev !! k) as [fs|] eqn:Hk; simpl in Hh; [|set_solver].
  by apply (Hn k fs).
Qed.

Lemma iter_all_callback_suppressed (g : addr) (args : list value)
    (kw : kwargs) (n0 i todo : nat) :
  keeps Inv (iter_all funcs g args kw n0 i todo).
Proof.
  revert i. induction todo as [|todo IH]; intros i; simpl.
  - apply keeps_bind; [apply keeps_get_event|]. intros ev.
    case_bool_decide; [apply keeps_ret|apply keeps_raise].
  - apply hoare_bind_get_event. intros ev s s' r [HI Hev].
    case_bool_decide; [|by intros [= <- _]].
    destruct (_ !! i) as [h|] eqn:Hi; [|by intros [= <- _]].
    intros E. eapply (keeps_bind Inv); [|intros; apply IH|exact HI|exact E].
    apply call_function_callback_suppressed.
    eapply callee_not_suppressed; [done..|].
    apply elem_of_elements. by eapply list_elem_of_lookup_2.
Qed.

Lemma trigger_group_callback_suppressed (g : addr) (args : list value)
    (kw : kwargs) (k : selector) :
  keeps Inv (trigger_group funcs g args kw k).
Proof.
  destruct k as [|n]; simpl.
  - apply keeps_bind; [apply keeps_get_event|]. intros ev.
    apply iter_all_callback_suppressed.
  - destruct (_ <? n); [apply keeps_raise|].
    apply hoare_bind_get_event. intros ev s s' r [HI Hev].
    intros E. eapply (keeps_for_each Inv); [|exact HI|exact E].
    intros h Hh. unfold _trigger_nargs.
    apply keeps_bind; [apply keeps_get_event|]. intros ev'.
    destruct (nargs_args _ _ _ _ _); [|apply keeps_raise].
    apply call_function_callback_suppressed.
    eapply callee_not_suppressed; [done..|]. by apply elem_of_elements.
Qed.

Lemma trigger_callback_suppressed (g : addr) (args : list value)
    (kw : kwargs) :
  keeps Inv (trigger funcs g args kw).
Proof.
  unfold trigger. apply keeps_bind; [apply keeps_get_event|]. intros ev.
  destruct (ev_suppress ev); [apply keeps_ret|].
  apply keeps_for_each. intros k _. apply trigger_group_callback_suppressed.
Qed.

Lemma call_trigger_callback_suppressed (g : addr) (args : list value)
    (kw : kwargs) :
  keeps Inv (call_trigger funcs g args kw).
Proof.
  unfold call_trigger. apply keeps_bind; [apply keeps_get_event|]. intros ev.
  destruct (ev_wrapper ev) as [[names defaults]|];
    [|apply trigger_callback_suppressed].
  destruct (bind_signature _ _ _ _) as [kw'|x]; [|apply keeps_raise].
  destruct (kw' !! _) as [v|].
  - destruct v; try apply keeps_raise.
    apply call_function_callback_suppressed. by intros [[k [=]] _].
  - apply keeps_bind; [|intros; apply trigger_callback_suppressed].
    intros s s' r HI. by destruct (st_glob_f s); intros [= <- _].
Qed.

(** With [f] under no selector of [e], a nested
    [e.suppress_callback(f)] finds nothing to reconnect. *)
Lemma suppress_callback_enter_callback_suppressed (a : addr) (v : value) :
  hoare Inv (suppress_callback_enter a v)
    (fun r s' => Inv s' /\ match r with
                           | Ok found => a = e -> v = VFunc f -> found = []
                           | Err _ => True
                           end).
Proof.
  intros s s' r HI. unfold suppress_callback_enter, bind at 1, get_event.
  destruct (st_events s !! a) as [ev|] eqn:Ha; [|by intros [= <- <-]].
  destruct (match v with VFunc _ => _ | _ => _ end) as [|k found] eqn:Hfound.
  - by intros [= <- <-].
  - unfold bind. destruct (disconnect a v s) as [s1 [[]|x]] eqn:E.
    + intros [= <- <-]. split.
      * by eapply disconnect_callback_suppressed.
      * intros -> ->. exfalso.
        assert (Hk : k ∈ (filter (fun kc : selector * gset fid => f ∈ kc.2)
                            (map_to_list (ev_connected ev))).*1)
          by (rewrite Hfound; by left).
        apply list_elem_of_fmap in Hk as ([k' fs] & -> & Hin).
        apply list_elem_of_filter in Hin as [Hf Hin]. simpl in Hf.
        apply elem_of_map_to_list in Hin.
        destruct HI as [(c & Hc & Hn) _].
        rewrite (connected_of_some _ _ _ Ha) in Hc. injection Hc as <-.
        by apply (Hn k' fs).
    + intros [= <- <-]. split; [|done].
      by eapply disconnect_callback_suppressed.
Qed.

Lemma suppress_callback_exit_callback_suppressed (a : addr) (v : value)
    (found : list selector) :
  (a = e -> v = VFunc f -> found = []) ->
  keeps Inv (suppress_callback_exit funcs a v found).
Proof.
  intros Hfound. unfold suppress_callback_exit. apply keeps_for_each.
  intros k Hk. destruct v as [|z|s0|l|g|a0|a0];
    try (intros s s' r HI E; rewrite connect_not_function in E by done;
         by injection E as <- _).
  apply connect_callback_suppressed. intros [-> ->].
  rewrite Hfound in Hk by done. by apply elem_of_nil in Hk.
Qed.

(** Every program without [e.connect(f, ...)] keeps the invariant. *)
Lemma exec_callback_suppressed (p : stmt) :
  connects_to e f p = false -> keeps Inv (exec funcs p).
Proof.
  induction p as [|p1 IH1 p2 IH2| |a args kw|a v n|a v|c name a|c name
                  |a body IH|a v body IH|c body IH]; simpl; intros Hp.
  - apply keeps_ret.
  - apply orb_false_iff in Hp as [H1 H2]. apply keeps_bind; auto.
  - apply keeps_raise.
  - apply call_trigger_callback_suppressed.
  - destruct v as [|z|s0|l|g|a0|a0];
      try (intros s s' r HI E; rewrite connect_not_function in E by done;
           by injection E as <- _).
    apply connect_callback_suppressed. by apply bool_decide_eq_false in Hp.
  - apply disconnect_callback_suppressed.
  - apply keeps_bind; [apply keeps_get_event|]. intros _.
    apply container_op_callback_suppressed. intros s.
    unfold Events_setattr, bind, get_container.
    by destruct (st_containers s !! c).
  - apply container_op_callback_suppressed. intros s.
    unfold Events_delattr, bind, get_container.
    destruct (st_containers s !! c) as [co|]; [|done].
    destruct (es_events co !! name); [done|]. by case_bool_decide.
  - apply keeps_scoped with (J := fun _ => True); [|by apply IH|].
    + intros s s' r HI E. split; [|by destruct r].
      revert s s' r HI E. unfold Event_suppress_enter.
      apply keeps_bind; [apply keeps_get_event|]. intros ev.
      apply keeps_bind; [apply set_flag_callback_suppressed|].
      intros; apply keeps_ret.
    + intros old _. apply set_flag_callback_suppressed.
  - eapply keeps_scoped;
      [apply suppress_callback_enter_callback_suppressed|by apply IH|].
    intros found Hfound. by apply suppress_callback_exit_callback_suppressed.
  - apply keeps_scoped with (J := fun _ => True); [|by apply IH|].
    + intros s s' r HI E. split; [|by destruct r].
      revert E. unfold Events_suppress_enter, bind, get_container.
      destruct (st_containers s !! c) as [co|]; [|by intros [= <- _]].
      assert (Hall : forall l old s0 s1 old1 r1, Inv s0 ->
                suppress_all l old s0 = (s1, old1, r1) -> Inv s1).
      { clear. induction l as [|b l IHl]; intros old s0 s1 old1 r1 H0; simpl.
        - by intros [= <- _ _].
        - unfold get_event. destruct (st_events s0 !! b) as [ev|] eqn:Hb;
            [|by intros [= <- _ _]].
          apply IHl. apply (callback_inv_frame s0); [done| |done].
          rewrite connected_of_insert.
          destruct (decide (b = e)) as [->|]; [|done].
          by rewrite (connected_of_some _ _ _ Hb). }
      destruct (suppress_all _ _ _) as [[s1 old] [[]|x]] eqn:E1.
      * intros [= <- _]. by eapply Hall.
      * intros [= <- _].
        destruct (Events_suppress_exit old s1) as [s2 r2] eqn:E2. simpl.
        eapply (keeps_for_each Inv); [|by eapply Hall|exact E2].
        intros [b v] _. apply set_flag_callback_suppressed.
    + intros old _. apply keeps_for_each. intros [b v] _.
      apply set_flag_callback_suppressed.
Qed.

End CallbackSuppressed.

(** ** The round trip of [suppress_callback] *)

Lemma found_in_spec (c : gmap selector (gset fid)) (f : fid) (k : selector) :
  k ∈ found_in c f <-> exists fs, c !! k = Some fs /\ f ∈ fs.
Proof.
  unfold found_in. rewrite list_elem_of_fmap. split.
  - intros ([k' fs] & -> & Hin). apply list_elem_of_filter in Hin as [Hf Hin].
    apply elem_of_map_to_list in Hin. by exists fs.
  - intros (fs & Hk & Hf). exists (k, fs). split; [done|].
    apply list_elem_of_filter. split; [done|]. by apply elem_of_map_to_list.
Qed.

Lemma resolve_selector_nargs (funcs : fid -> pyfunc) (f : fid) (k : selector) :
  resolve_nargs funcs f (selector_nargs k) = k.
Proof. by destruct k. Qed.

(** The [finally] clause adds [f] to the set of every selector in [found]
    and changes nothing else. *)
Lemma suppress_callback_exit_lookup (funcs : fid -> pyfunc) (e : addr)
    (f : fid) (found : list selector) (ev : event_obj) (s : state) :
  st_events s !! e = Some ev ->
  exists c',
    (forall k, c' !! k = if decide (k ∈ found)
                         then Some (default ∅ (ev_connected ev !! k) ∪ {[f]})
                         else ev_connected ev !! k)
    /\ exists s',
      suppress_callback_exit funcs e (VFunc f) found s = (s', Ok tt)
      /\ st_events s' = <[e := set_connected c' ev]> (st_events s)
      /\ st_log s' = st_log s.
Proof.
  revert ev s. induction found as [|k found IH]; intros ev s He.
  - exists (ev_connected ev). split.
    + intros k. rewrite decide_False; [done|]. apply not_elem_of_nil.
    + exists s. split; [done|]. split; [|done].
      rewrite insert_id; [done|]. rewrite He. by destruct ev.
  - set (c1 := <[k := default ∅ (ev_connected ev !! k) ∪ {[f]}]>
                 (ev_connected ev)).
    set (s1 := set_events <[e := set_connected c1 ev]> s).
    assert (E1 : connect funcs e (VFunc f) (selector_nargs k) s = (s1, Ok tt)).
    { rewrite (connect_some funcs e f _ ev s He).
      by rewrite resolve_selector_nargs. }
    assert (He1 : st_events s1 !! e = Some (set_connected c1 ev))
      by apply lookup_insert_eq.
    destruct (IH _ _ He1) as (c' & Hc' & s' & E2 & Hev & Hlog).
    exists c'. split.
    + intros k'. rewrite Hc'. cbn [ev_connected set_connected]. unfold c1.
      destruct (decide (k' = k)) as [->|Hne].
      * rewrite lookup_insert_eq. rewrite (decide_True (P := k ∈ k :: found))
          by (by left).
        destruct (decide (k ∈ found)); [|done].
        simpl. f_equal. set_solver.
      * rewrite lookup_insert_ne by done.
        destruct (decide (k' ∈ found)) as [Hin|Hnin].
        -- rewrite decide_True by (by right). done.
        -- rewrite decide_False; [done|].
           intros [?|?]%elem_of_cons; done.
    + exists s'. split; [|split].
      * change (suppress_callback_exit funcs e (VFunc f) (k :: found) s)
          with (bind (connect funcs e (VFunc f) (selector_nargs k))
                  (fun _ => suppress_callback_exit funcs e (VFunc f) found) s).
        unfold bind. by rewrite E1.
      * rewrite Hev. unfold s1. simpl. rewrite insert_insert_eq.
        by destruct ev.
      * by rewrite Hlog.
Qed.

Lemma set_connected_id (ev : event_obj) (c : gmap selector (gset fid)) :
  set_connected (ev_connected ev) (set_connected c ev) = ev.
Proof. by destruct ev. Qed.

Lemma registered_under_found (s : state) (e : addr) (f : fid)
    (ev : event_obj) (k : selector) :
  st_events s !! e = Some ev ->
  registered_under s e f k <-> k ∈ found_in (ev_connected ev) f.
Proof.
  intros He. rewrite found_in_spec. unfold registered_under.
  rewrite (connected_of_some _ _ _ He). split.
  - intros (c & fs & [= <-] & Hk & Hf). by exists fs.
  - intros (fs & Hk & Hf). by exists (ev_connected ev), fs.
Qed.

(** Removing [f] from every set changes no set that does not hold it. *)
Lemma remove_absent (c : gmap selector (gset fid)) (f : fid) :
  found_in c f = [] -> (fun fs : gset fid => fs ∖ {[f]}) <$> c = c.
Proof.
  intros Hfound. apply map_eq. intros k. rewrite lookup_fmap.
  destruct (c !! k) as [fs|] eqn:Hk; [|done]. simpl. f_equal.
  assert (f ∉ fs); [|set_solver].
  intros Hf. assert (Hin : k ∈ found_in c f)
    by (apply found_in_spec; by exists fs).
  rewrite Hfound in Hin. by apply elem_of_nil in Hin.
Qed.


Lemma ex_funcs_no_connect (e : addr) (f : fid) :
  no_callback_connects ex_funcs e f.
Proof.
  intros g n. unfold ex_funcs.
  do 6 (destruct g as [|g]; simpl;
        [rewrite ?elem_of_cons, ?elem_of_nil; naive_solver|]).
  apply not_elem_of_nil.
Qed.


(** ** Targets given as a container and a callback *)

(** C6, as stated, fails: the container holds one event when
    [es.add(events, k)] runs, a second event is registered afterwards, and
    inside [with es.suppress()] the trigger of the second event still calls
    [k], while the trigger of the first one does not. *)
Lemma add_scans_container_once :
  add 1 [] [VEvents 0%nat; VFunc 6%nat] ex_state_two
  = Some ([new_cm (CmSuppressCallback 0%nat (VFunc 6%nat))], Ok tt)
  /\ (Events_iter <$> st_containers ex_state_two_later !! 0%nat)
     = Some [1%nat; 0%nat]
  /\ st_log (EventSupressor_suppress ex_funcs ex_cms
               (do! trigger ex_funcs 0%nat [] ∅ in trigger ex_funcs 1%nat [] ∅)
               ex_state_two_later).1.1
     = [Call (InTrigger 1%nat (SInt 0)) 6%nat [] ∅].
Proof. repeat split; by vm_compute. Qed.

(** Entry into [e.suppress_callback(f)] for an event that exists: [f] is
    removed from every set of [e]; nothing else changes. *)
Lemma suppress_callback_enter_some (e : addr) (f : fid) (ev : event_obj)
    (s : state) :
  st_events s !! e = Some ev ->
  exists s1,
    suppress_callback_enter e (VFunc f) s
    = (s1, Ok (found_in (ev_connected ev) f))
    /\ st_events s1
       = <[e := set_connected
                   ((fun fs : gset fid => fs ∖ {[f]}) <$> ev_connected ev) ev]>
           (st_events s)
    /\ st_containers s1 = st_containers s
    /\ st_log s1 = st_log s.
Proof.
  intros He. unfold suppress_callback_enter, bind at 1, get_event. rewrite He.
  fold (found_in (ev_connected ev) f).
  destruct (found_in (ev_connected ev) f) as [|k l] eqn:Hfound.
  - exists s. repeat split; try done.
    rewrite remove_absent by done. rewrite insert_id; [done|].
    rewrite He. by destruct ev.
  - unfold bind. rewrite (disconnect_some e f ev s He).
    eexists. repeat split; done.
Qed.

Lemma suppress_callback_enter_none (e : addr) (v : value) (s : state) :
  st_events s !! e = None ->
  suppress_callback_enter e v s = (s, Err NoSuchObject).
Proof.
  intros He. unfold suppress_callback_enter, bind, get_event. by rewrite He.
Qed.

Lemma not_connected_insert_removed (e a : addr) (f : fid) (ev : event_obj)
    (s s1 : state) :
  st_events s !! e = Some ev ->
  st_events s1
  = <[e := set_connected
              ((fun fs : gset fid => fs ∖ {[f]}) <$> ev_connected ev) ev]>
      (st_events s) ->
  (a = e \/ not_connected a f s) -> not_connected a f s1.
Proof.
  intros He H1 Ha. unfold not_connected, connected_of. rewrite H1.
  destruct (decide (a = e)) as [->|Hne].
  - rewrite lookup_insert_eq. eexists. split; [done|].
    intros k fs. simpl. rewrite lookup_fmap.
    destruct (ev_connected ev !! k); [|done]. intros [= <-]. set_solver.
  - rewrite lookup_insert_ne by done. by destruct Ha.
Qed.

Section ContainerTarget.

Variable funcs : fid -> pyfunc.
Variable f : fid.

Local Abbreviation built l :=
  ((fun e => new_cm (CmSuppressCallback e (VFunc f))) <$> l).

(** Entering the managers built for the events [l] touches no other
    event. *)
Lemma enter_all_built_others (l : list addr) (entered : list cm)
    (s : state) (a : addr) :
  a ∉ l ->
  st_events (enter_all funcs (built l) entered s).1.1.1 !! a
  = st_events s !! a.
Proof.
  revert entered s. induction l as [|e l IH]; intros entered s Ha; [done|].
  apply not_elem_of_cons in Ha as [Hne Ha].
  cbn [fmap list_fmap enter_all]. unfold cm_enter. cbn [new_cm cm_state cm_gen].
  unfold enter_kind, bind.
  destruct (st_events s !! e) as [ev|] eqn:He.
  - destruct (suppress_callback_enter_some e f ev s He)
      as (s1 & -> & H1 & _ & _).
    cbn [ret]. rewrite IH by done. rewrite H1. by rewrite lookup_insert_ne.
  - by rewrite (suppress_callback_enter_none e _ s He).
Qed.

(** When the events [l] exist, every manager is entered and afterwards [f]
    is under no selector of any of them. *)
Lemma enter_all_built_covers (l : list addr) (entered : list cm) (s : state) :
  (forall e, e ∈ l -> is_Some (st_events s !! e)) ->
  (enter_all funcs (built l) entered s).2 = Ok tt
  /\ forall a, a ∈ l \/ not_connected a f s ->
       not_connected a f (enter_all funcs (built l) entered s).1.1.1.
Proof.
  revert entered s. induction l as [|e l IH]; intros entered s Hl.
  - split; [done|]. intros a [Ha|Ha]; [by apply elem_of_nil in Ha|done].
  - destruct (Hl e) as [ev He]; [by left|].
    cbn [fmap list_fmap enter_all]. unfold cm_enter.
    cbn [new_cm cm_state cm_gen]. unfold enter_kind, bind.
    destruct (suppress_callback_enter_some e f ev s He)
      as (s1 & -> & H1 & _ & _).
    cbn [ret].
    assert (Hl1 : forall e0, e0 ∈ l -> is_Some (st_events s1 !! e0)).
    { intros e0 H0. rewrite H1. destruct (decide (e0 = e)) as [->|Hne].
      - rewrite lookup_insert_eq. by eexists.
      - rewrite lookup_insert_ne by done. apply Hl. by right. }
    destruct (IH (Cm (CmSuppressCallback e (VFunc f))
                     (Suspended (LFound (found_in (ev_connected ev) f)))
                  :: entered) s1 Hl1) as [Hok Hcov].
    split; [exact Hok|].
    intros a Ha. apply Hcov.
    destruct (decide (a ∈ l)) as [Hin|Hnin]; [by left|right].
    apply (not_connected_insert_removed e a f ev s s1 He H1).
    destruct Ha as [[->|Hin]%elem_of_cons|Ha]; [by left|done|by right].
Qed.

End ContainerTarget.

(** C6, amended: [_add_single] builds the managers of an
    [(Events, callback)] target when the target is added, one for each
    event that the container holds then, and only the search for the
    callback is left to the entry.  Entering them touches no event outside
    that list, so an event registered later is not covered; for the events
    of the list, the callback is under no selector once they are
    entered. *)
Theorem add_single_container_target (funcs : fid -> pyfunc)
    (cms : list cm) (c : addr) (f : fid) (co : events_obj) (s : state) :
  st_containers s !! c = Some co ->
  _add_single cms (VTuple [VEvents c; VFunc f]) s
  = (cms ++ ((fun e => new_cm (CmSuppressCallback e (VFunc f)))
               <$> Events_iter co), Ok tt)
  /\ (forall entered s2 a, a ∉ Events_iter co ->
        st_events
          (enter_all funcs
             ((fun e => new_cm (CmSuppressCallback e (VFunc f)))
                <$> Events_iter co) entered s2).1.1.1 !! a
        = st_events s2 !! a)
  /\ (forall entered s2,
        (forall e, e ∈ Events_iter co -> is_Some (st_events s2 !! e)) ->
        (enter_all funcs
           ((fun e => new_cm (CmSuppressCallback e (VFunc f)))
              <$> Events_iter co) entered s2).2 = Ok tt
        /\ forall e, e ∈ Events_iter co ->
             not_connected e f
               (enter_all funcs
                  ((fun e => new_cm (CmSuppressCallback e (VFunc f)))
                     <$> Events_iter co) entered s2).1.1.1).
Proof.
  intros Hc. split; [|split].
  - unfold _add_single. simpl. by rewrite Hc.
  - intros entered s2 a Ha. by apply enter_all_built_others.
  - intros entered s2 Hl.
    destruct (enter_all_built_covers funcs f _ entered s2 Hl) as [Hok Hcov].
    split; [done|]. intros e He. apply Hcov. by left.
Qed.

(** The amended C6 at the container that holds the event [0]: the manager
    is built for that event, and the event [1], registered later, is as it
    was after the managers are entered. *)
Lemma add_single_container_target_witness :
  _add_single [] (VTuple [VEvents 0%nat; VFunc 6%nat]) ex_state_two
  = ([new_cm (CmSuppressCallback 0%nat (VFunc 6%nat))], Ok tt)
  /\ st_events
       (enter_all ex_funcs [new_cm (CmSuppressCallback 0%nat (VFunc 6%nat))]
          [] ex_state_two_later).1.1.1 !! 1%nat
     = Some ex_event_k.
Proof.
  destruct (add_single_container_target ex_funcs [] 0%nat 6%nat ex_container
              ex_state_two eq_refl) as (H1 & H2 & _).
  split; [exact H1|].
  etrans; [|reflexivity].
  apply (H2 [] ex_state_two_later 1%nat).
  apply (bool_decide_unpack _). by vm_compute.
Defined.

(** ** Objects stay alive *)

Global Instance alive_preorder : PreOrder alive.
Proof.
  split; [by intros s a|]. intros s1 s2 s3 H12 H23 a Ha. by apply H23, H12.
Qed.

Lemma alive_insert (a : addr) (ev : event_obj) (s : state) :
  alive s (set_events <[a := ev]> s).
Proof.
  intros b Hb. simpl. rewrite lookup_insert_is_Some.
  destruct (decide (a = b)); auto.
Qed.

Lemma alive_same_events (s s' : state) :
  st_events s' = st_events s -> alive s s'.
Proof. intros He a. by rewrite He. Qed.

Lemma locals_alive_mono (k : cm_kind) (l : cm_locals) (s s' : state) :
  alive s s' -> locals_alive k l s -> locals_alive k l s'.
Proof.
  intros Hs. destruct k, l; simpl; auto.
  intros [->|[He Hf]]; [by left|right]. split; [by apply Hs|done].
Qed.

Lemma put_event_alive (a : addr) (ev : event_obj) :
  preserves alive (put_event a ev).
Proof. intros s. apply alive_insert. Qed.

Lemma set_flag_alive (a : addr) (b : bool) : preserves alive (set_flag a b).
Proof.
  apply preserves_bind; [apply _|apply preserves_get_event; apply _|].
  intros ev. apply put_event_alive.
Qed.

Lemma disconnect_alive (a : addr) (v : value) : preserves alive (disconnect a v).
Proof.
  destruct v; unfold disconnect;
    (apply preserves_bind; [apply _|apply preserves_get_event; apply _|]);
    intros ev; try apply put_event_alive; by intros ?.
Qed.

Lemma connect_alive (funcs : fid -> pyfunc) (a : addr) (v : value)
    (n : nargs_arg) :
  preserves alive (connect funcs a v n).
Proof.
  destruct v; unfold connect; try (by intros ?).
  apply preserves_bind; [apply _|apply preserves_get_event; apply _|].
  intros ev. apply put_event_alive.
Qed.

Lemma suppress_all_alive (l : list addr) (old : gmap addr bool) (s : state) :
  alive s (suppress_all l old s).1.1.
Proof.
  revert old s. induction l as [|a l IH]; intros old s; simpl; [done|].
  unfold get_event. destruct (st_events s !! a) as [ev|]; [|done].
  etrans; [|apply IH]. apply alive_insert.
Qed.

Lemma Events_suppress_exit_alive (old : gmap addr bool) :
  preserves alive (Events_suppress_exit old).
Proof.
  apply preserves_for_each; [apply _|]. intros [a b]. apply set_flag_alive.
Qed.

Lemma enter_kind_alive_suppress (e : addr) :
  preserves alive (Event_suppress_enter e).
Proof.
  unfold Event_suppress_enter.
  apply preserves_bind; [apply _|apply preserves_get_event; apply _|].
  intros ev. apply preserves_bind; [apply _|apply set_flag_alive|].
  by intros ? ?.
Qed.

Lemma enter_kind_alive_callback (e : addr) (v : value) :
  preserves alive (suppress_callback_enter e v).
Proof.
  unfold suppress_callback_enter.
  apply preserves_bind; [apply _|apply preserves_get_event; apply _|].
  intros ev. destruct (match v with VFunc _ => _ | _ => _ end);
    [by intros ?|].
  apply preserves_bind; [apply _|apply disconnect_alive|]. by intros ? ?.
Qed.

Lemma enter_kind_alive_events (c : addr) :
  preserves alive (Events_suppress_enter c).
Proof.
  intros s. unfold Events_suppress_enter, bind, get_container.
  destruct (st_containers s !! c) as [co|]; [|done].
  pose proof (suppress_all_alive (Events_iter co) ∅ s) as H.
  destruct (suppress_all _ _ _) as [[s1 old] [[]|x]]; [done|].
  simpl in *. etrans; [exact H|]. apply Events_suppress_exit_alive.
Qed.

Section Alive.

Variable funcs : fid -> pyfunc.

Lemma enter_kind_alive (k : cm_kind) : preserves alive (enter_kind k).
Proof.
  destruct k as [e|e v|c]; unfold enter_kind;
    (apply preserves_bind; [apply _| |by intros ? ?]).
  - apply enter_kind_alive_suppress.
  - apply enter_kind_alive_callback.
  - apply enter_kind_alive_events.
Qed.

Lemma exit_kind_alive (k : cm_kind) (l : cm_locals) :
  preserves alive (exit_kind funcs k l).
Proof.
  destruct k, l; unfold exit_kind; try (by intros ?).
  - apply set_flag_alive.
  - apply preserves_for_each; [apply _|]. intros k. apply connect_alive.
  - apply Events_suppress_exit_alive.
Qed.

Lemma cm_enter_alive (c : cm) (s : state) : alive s (cm_enter funcs c s).1.1.
Proof.
  unfold cm_enter. destruct (cm_state c) as [|l|].
  - pose proof (enter_kind_alive (cm_gen c) s) as H.
    by destruct (enter_kind _ _) as [s1 [l|x]].
  - pose proof (exit_kind_alive (cm_gen c) l s) as H.
    by destruct (exit_kind _ _ _ _) as [s1 [[]|x]].
  - done.
Qed.

Lemma cm_exit_alive (c : cm) (s : state) : alive s (cm_exit funcs c s).1.1.
Proof.
  unfold cm_exit. destruct (cm_state c) as [|l|].
  - pose proof (enter_kind_alive (cm_gen c) s) as H.
    by destruct (enter_kind _ _) as [s1 [l|x]].
  - pose proof (exit_kind_alive (cm_gen c) l s) as H.
    by destruct (exit_kind _ _ _ _) as [s1 [[]|x]].
  - done.
Qed.

End Alive.

(** ** Exits of entered managers return *)

Lemma for_each_ok {A} (Q : state -> Prop) (l : list A) (k : A -> M unit) :
  (forall x, x ∈ l -> forall s, Q s -> exists s', k x s = (s', Ok tt) /\ Q s') ->
  forall s, Q s -> exists s', for_each l k s = (s', Ok tt) /\ Q s'.
Proof.
  induction l as [|x l IH]; intros Hk s HQ; simpl.
  - by exists s.
  - destruct (Hk x ltac:(by left) s HQ) as (s1 & E1 & H1).
    destruct (IH (fun y Hy => Hk y ltac:(by right)) s1 H1) as (s2 & E2 & H2).
    exists s2. unfold bind. by rewrite E1.
Qed.

Lemma set_flag_ok (a : addr) (b : bool) (s : state) :
  is_Some (st_events s !! a) ->
  exists s', set_flag a b s = (s', Ok tt) /\ alive s s'.
Proof.
  intros [ev Ha]. unfold set_flag, bind, get_event. rewrite Ha.
  eexists. split; [done|]. apply alive_insert.
Qed.

Lemma suppress_all_locals (l : list addr) (old old' : gmap addr bool)
    (s s' : state) (r : result unit) :
  (forall a, is_Some (old !! a) -> is_Some (st_events s !! a)) ->
  suppress_all l old s = (s', old', r) ->
  forall a, is_Some (old' !! a) -> is_Some (st_events s' !! a).
Proof.
  revert old s. induction l as [|b l IH]; intros old s Hold; simpl.
  - by intros [= <- <- _].
  - unfold get_event. destruct (st_events s !! b) as [ev|] eqn:Hb;
      [|by intros [= <- <- _]].
    apply IH. intros a. simpl. rewrite !lookup_insert_is_Some.
    intros [->|[Hne Ha]]; [by left|]. right. split; [done|]. by apply Hold.
Qed.

Section Exits.

Variable funcs : fid -> pyfunc.

Lemma enter_kind_locals (k : cm_kind) (l : cm_locals) (s s1 : state) :
  enter_kind k s = (s1, Ok l) -> locals_alive k l s1.
Proof.
  destruct k as [e|e v|c]; unfold enter_kind, bind.
  - destruct (Event_suppress_enter e s) as [s0 [old|x]] eqn:E; [|done].
    intros [= <- <-]. simpl. revert E.
    unfold Event_suppress_enter, set_flag, bind, get_event.
    destruct (st_events s !! e) as [ev|] eqn:He; [|done].
    simpl. rewrite He. intros [= <- _]. simpl. rewrite lookup_insert_eq.
    by eexists.
  - destruct (suppress_callback_enter e v s) as [s0 [found|x]] eqn:E; [|done].
    intros [= <- <-]. simpl. revert E.
    unfold suppress_callback_enter, bind at 1, get_event.
    destruct (st_events s !! e) as [ev|] eqn:He; [|done].
    destruct v as [|z|s2|l|g|a0|a0]; try (intros [= _ <-]; by left).
    destruct (filter _ _).*1 as [|k found0]; [intros [= _ <-]; by left|].
    unfold bind. rewrite (disconnect_some e g ev s He).
    intros [= <- <-]. right. split; [|by eexists].
    simpl. rewrite lookup_insert_eq. by eexists.
  - destruct (Events_suppress_enter c s) as [s0 [old|x]] eqn:E; [|done].
    intros [= <- <-]. simpl. revert E.
    unfold Events_suppress_enter, bind, get_container.
    destruct (st_containers s !! c) as [co|]; [|done].
    destruct (suppress_all _ _ _) as [[s2 old2] [[]|x]] eqn:E2; [|done].
    intros [= <- <-]. eapply suppress_all_locals; [|exact E2].
    intros a. rewrite lookup_empty. by intros [? ?].
Qed.

Lemma exit_kind_ok (k : cm_kind) (l : cm_locals) (s : state) :
  locals_alive k l s -> exists s', exit_kind funcs k l s = (s', Ok tt).
Proof.
  destruct k as [e|e v|c], l as [b|found|old]; simpl;
    try (intros _; by eexists).
  - intros He. destruct (set_flag_ok e b s He) as (s' & E & _). by exists s'.
  - intros [->|[He [f ->]]]; [by eexists|].
    destruct (for_each_ok (fun s0 => is_Some (st_events s0 !! e)) found
                (fun k => connect funcs e (VFunc f) (selector_nargs k)))
      with (s := s) as (s' & E & _); [|done|by exists s'].
    intros k _ s0 [ev H0]. rewrite (connect_some funcs e f _ ev s0 H0).
    eexists. split; [done|]. simpl. rewrite lookup_insert_eq. by eexists.
  - intros Hold.
    destruct (for_each_ok
                (fun s0 => forall a, is_Some (old !! a) ->
                                     is_Some (st_events s0 !! a))
                (map_to_list old) (fun '(a, b) => set_flag a b))
      with (s := s) as (s' & E & _); [|done|by exists s'].
    intros [a b] Hab s0 H0. apply elem_of_map_to_list in Hab.
    destruct (set_flag_ok a b s0) as (s' & E & Hal); [by apply H0|].
    exists s'. split; [done|]. intros a' Ha'. by apply Hal, H0.
Qed.

Lemma cm_enter_ok (c c1 : cm) (s s1 : state) :
  cm_enter funcs c s = (s1, c1, Ok tt) ->
  exists l, c1 = Cm (cm_gen c) (Suspended l) /\ locals_alive (cm_gen c) l s1.
Proof.
  unfold cm_enter. destruct (cm_state c) as [|l|]; [| |done].
  - destruct (enter_kind (cm_gen c) s) as [s0 [l|x]] eqn:E; [|done].
    intros [= <- <-]. exists l. split; [done|]. by eapply enter_kind_locals.
  - by destruct (exit_kind _ _ _ _) as [s0 [[]|x]].
Qed.

Lemma cm_exit_ok (k : cm_kind) (l : cm_locals) (s : state) :
  locals_alive k l s ->
  exists s', cm_exit funcs (Cm k (Suspended l)) s = (s', Cm k Finished, Ok tt).
Proof.
  intros Hl. destruct (exit_kind_ok k l s Hl) as (s' & E).
  exists s'. unfold cm_exit. simpl. by rewrite E.
Qed.

End Exits.

(** ** The suppressor unwinds as nested scopes do *)

Section Unwinding.

Variable funcs : fid -> pyfunc.
Variable body : M unit.
Hypothesis Hbody : preserves alive body.

Lemma nested_with_alive (cms : list cm) (s : state) :
  alive s (nested_with funcs cms body s).1.1.
Proof.
  revert s. induction cms as [|c cms IH]; intros s; simpl.
  - pose proof (Hbody s) as H. by destruct (body s).
  - pose proof (cm_enter_alive funcs c s) as H1.
    destruct (cm_enter funcs c s) as [[s1 c1] [[]|x]]; [|done].
    pose proof (IH s1) as H2.
    destruct (nested_with funcs cms body s1) as [[s2 rest'] r].
    pose proof (cm_exit_alive funcs c1 s2) as H3.
    destruct (cm_exit funcs c1 s2) as [[s3 c2] [[]|y]]; simpl in *;
      (etrans; [exact H1|]; etrans; [exact H2|exact H3]).
Qed.

(** The loops of [EventSupressor.suppress], started with [entered] already
    entered, do what the nested statement over [todo] does, followed by the
    exits of [entered]. *)
Lemma suppress_from_nested (todo entered : list cm) (s : state) :
  suppress_from funcs entered todo body s
  = let '(s2, todo', r) := nested_with funcs todo body s in
    unwind funcs entered todo' r s2.
Proof.
  revert entered s. induction todo as [|c todo IH]; intros entered s.
  - unfold suppress_from. simpl. by destruct (body s).
  - unfold suppress_from in *. simpl.
    destruct (cm_enter funcs c s) as [[s1 c1] [[]|x]] eqn:E1; [|done].
    rewrite IH.
    pose proof (nested_with_alive todo s1) as Hal.
    destruct (nested_with funcs todo body s1) as [[s2 rest'] r].
    destruct (cm_enter_ok funcs c c1 s s1 E1) as (l & -> & Hl).
    destruct (cm_exit_ok funcs (cm_gen c) l s2) as (s3 & E3);
      [by eapply locals_alive_mono|].
    unfold unwind. simpl. by rewrite E3.
Qed.

Lemma EventSupressor_suppress_nested (cms : list cm) (s : state) :
  EventSupressor_suppress funcs cms body s = nested_with funcs cms body s.
Proof.
  transitivity (suppress_from funcs [] cms body s).
  - unfold EventSupressor_suppress, suppress_from, unwind.
    destruct (enter_all funcs cms [] s) as [[[s1 entered] rest] [[]|x]];
      [|done].
    by destruct (body s1).
  - rewrite suppress_from_nested.
    destruct (nested_with funcs cms body s) as [[s2 todo'] r].
    unfold unwind. simpl. by destruct r.
Qed.

End Unwinding.

(** ** Every scope is a round trip on the events *)

Lemma set_suppress_id (ev : event_obj) (b : bool) :
  set_suppress (ev_suppress ev) (set_suppress b ev) = ev.
Proof. by destruct ev. Qed.

(** Reconnecting [f] under the selectors it was found under undoes its
    removal. *)
Lemma reconnect_restores (c c' : gmap selector (gset fid)) (f : fid) :
  (forall k, c' !! k
             = if decide (k ∈ found_in c f)
               then Some (default ∅ (((fun fs : gset fid => fs ∖ {[f]}) <$> c)
                                       !! k) ∪ {[f]})
               else ((fun fs : gset fid => fs ∖ {[f]}) <$> c) !! k) ->
  c' = c.
Proof.
  intros Hc'. apply map_eq. intros k. rewrite Hc', lookup_fmap.
  destruct (decide (k ∈ found_in c f)) as [Hin|Hnin].
  - apply found_in_spec in Hin as (fs & -> & Hf). simpl. f_equal.
    rewrite difference_union_L. set_solver.
  - destruct (c !! k) as [fs|] eqn:Hk; [|done]. simpl. f_equal.
    assert (f ∉ fs); [|set_solver].
    intros Hf. apply Hnin, found_in_spec. by exists fs.
Qed.

(** The first loop of [Events.suppress] over distinct events: an event is
    either untouched, or suppressed with its flag recorded in [old]. *)
Lemma suppress_all_spec (l : list addr) (old old1 : gmap addr bool)
    (s s1 : state) (r : result unit) :
  NoDup l -> (forall a, a ∈ l -> old !! a = None) ->
  suppress_all l old s = (s1, old1, r) ->
  forall a,
    (old1 !! a = old !! a /\ st_events s1 !! a = st_events s !! a)
    \/ (a ∈ l /\ exists ev, st_events s !! a = Some ev
                   /\ old1 !! a = Some (ev_suppress ev)
                   /\ st_events s1 !! a = Some (set_suppress true ev)).
Proof.
  revert old s. induction l as [|b l IH]; intros old s Hnd Hold; simpl.
  - intros [= <- <- _] a. by left.
  - apply NoDup_cons in Hnd as [Hb Hnd].
    unfold get_event. destruct (st_events s !! b) as [ev|] eqn:Heb;
      [|intros [= <- <- _] a; by left].
    intros E a.
    assert (Hold' : forall a', a' ∈ l ->
              <[b := ev_suppress ev]> old !! a' = None).
    { intros a' Ha'. rewrite lookup_insert_ne; [apply Hold; by right|].
      by intros ->. }
    destruct (IH _ _ Hnd Hold' E a) as [[H1 H2]|(Ha & ev' & H1 & H2 & H3)].
    + cbn [st_events set_events] in H2.
      destruct (decide (a = b)) as [->|Hne].
      * right. split; [by left|]. exists ev.
        rewrite lookup_insert_eq in H1. rewrite lookup_insert_eq in H2. done.
      * left. rewrite lookup_insert_ne in H1 by done.
        by rewrite lookup_insert_ne in H2.
    + cbn [st_events set_events] in H1. assert (a <> b) by (by intros ->).
      right. split; [by right|]. exists ev'.
      by rewrite lookup_insert_ne in H1.
Qed.

Lemma set_flags_lookup (l : list (addr * bool)) (s : state) (a : addr) :
  NoDup l.*1 ->
  (forall a0 b0, (a0, b0) ∈ l -> is_Some (st_events s !! a0)) ->
  st_events (for_each l (fun '(a0, b0) => set_flag a0 b0) s).1 !! a
  = match (list_to_map l : gmap addr bool) !! a with
    | Some b => set_suppress b <$> st_events s !! a
    | None => st_events s !! a
    end.
Proof.
  revert s. induction l as [|[a0 b0] l IH]; intros s Hnd Hl; [done|].
  cbn [fmap list_fmap fst] in Hnd. apply NoDup_cons in Hnd as [Ha0 Hnd].
  destruct (Hl a0 b0) as [ev0 He0]; [by left|].
  cbn [for_each]. unfold bind, set_flag at 1, bind, get_event, put_event.
  rewrite He0. rewrite IH; [|done|].
  - cbn [list_to_map foldr st_events set_events].
    destruct (decide (a = a0)) as [->|Hne].
    + rewrite !lookup_insert_eq, He0.
      by rewrite (not_elem_of_list_to_map_1 _ _ Ha0).
    + by rewrite !lookup_insert_ne.
  - intros a1 b1 H1. cbn [st_events set_events].
    rewrite lookup_insert_is_Some. destruct (decide (a0 = a1)); [by left|].
    right. split; [done|]. apply (Hl a1 b1). by right.
Qed.

(** [Events.suppress] over distinct events restores every flag. *)
Lemma Events_suppress_round_trip (l : list addr) (old : gmap addr bool)
    (s s1 s2 : state) (r : result unit) :
  NoDup l -> suppress_all l ∅ s = (s1, old, r) ->
  st_events s2 = st_events s1 ->
  st_events (Events_suppress_exit old s2).1 = st_events s.
Proof.
  intros Hnd E H21. apply map_eq. intros a. unfold Events_suppress_exit.
  rewrite set_flags_lookup.
  - rewrite list_to_map_to_list, H21.
    destruct (suppress_all_spec l ∅ old s s1 r Hnd ltac:(done) E a)
      as [[H1 H2]|(_ & ev & H1 & H2 & H3)].
    + by rewrite H1, lookup_empty.
    + rewrite H2, H3, H1. simpl. by rewrite set_suppress_id.
  - apply NoDup_fst_map_to_list.
  - intros a0 b0 H0. apply elem_of_map_to_list in H0. rewrite H21.
    eapply suppress_all_locals; [|exact E|by eexists].
    intros a'. rewrite lookup_empty. by intros [? ?].
Qed.

Global Instance same_containers_preorder : PreOrder same_containers.
Proof.
  split; [done|]. intros s1 s2 s3 H12 H23. unfold same_containers in *.
  by rewrite H23.
Qed.

Lemma set_flag_containers (a : addr) (b : bool) :
  preserves same_containers (set_flag a b).
Proof.
  intros s. unfold set_flag, bind, get_event.
  by destruct (st_events s !! a).
Qed.

Lemma suppress_all_containers (l : list addr) (old : gmap addr bool)
    (s : state) :
  same_containers s (suppress_all l old s).1.1.
Proof.
  revert old s. induction l as [|a l IH]; intros old s; simpl; [done|].
  unfold get_event. destruct (st_events s !! a) as [ev|]; [|done].
  etrans; [|apply IH]. done.
Qed.

Lemma enter_kind_containers (k : cm_kind) :
  preserves same_containers (enter_kind k).
Proof.
  destruct k as [e|e v|c]; unfold enter_kind.
  - apply preserves_bind; [apply _| |by intros ? ?].
    unfold Event_suppress_enter.
    apply preserves_bind; [apply _|apply preserves_get_event; apply _|].
    intros ev. apply preserves_bind; [apply _|apply set_flag_containers|].
    by intros ? ?.
  - apply preserves_bind; [apply _| |by intros ? ?].
    unfold suppress_callback_enter.
    apply preserves_bind; [apply _|apply preserves_get_event; apply _|].
    intros ev. destruct (match v with VFunc _ => _ | _ => _ end);
      [by intros ?|].
    apply preserves_bind; [apply _| |by intros ? ?].
    unfold disconnect.
    destruct v; intros s'; unfold bind, get_event;
      by destruct (st_events s' !! e).
  - apply preserves_bind; [apply _| |by intros ? ?].
    intros s. unfold Events_suppress_enter, bind, get_container.
    destruct (st_containers s !! c) as [co|]; [|done].
    pose proof (suppress_all_containers (Events_iter co) ∅ s) as H.
    destruct (suppress_all _ _ _) as [[s1 old] [[]|x]]; [done|].
    simpl in *. etrans; [exact H|].
    change (same_containers s1 (Events_suppress_exit old s1).1).
    apply (preserves_for_each same_containers).
    intros [a b]. apply set_flag_containers.
Qed.

Section RoundTrip.

Variable funcs : fid -> pyfunc.

(** Entering a manager that is not inside its scope and exiting it from a
    state with the same events gives the events before the entry back; a
    failed entry leaves them as they were. *)
Lemma cm_round_trip (c : cm) (s : state) :
  idle c -> distinct_events s c ->
  match cm_enter funcs c s with
  | (s1, c1, Ok _) =>
      st_containers s1 = st_containers s
      /\ forall s2, st_events s2 = st_events s1 ->
           st_events (cm_exit funcs c1 s2).1.1 = st_events s
  | (s1, _, Err _) => st_events s1 = st_events s
  end.
Proof.
  destruct c as [k st]. unfold idle, distinct_events, cm_enter. simpl.
  destruct st as [|l|]; [|done|done]. intros _ Hdist.
  pose proof (enter_kind_containers k s) as Hcont.
  destruct k as [e|e v|c]; unfold enter_kind, bind in *.
  - unfold Event_suppress_enter, set_flag, bind, get_event in *.
    destruct (st_events s !! e) as [ev|] eqn:He; [|done].
    simpl in *. rewrite He in *. simpl in *. split; [done|].
    intros s2 H21. unfold cm_exit, exit_kind. simpl.
    unfold Event_suppress_exit, set_flag, bind, get_event.
    rewrite H21. simpl. rewrite lookup_insert_eq. simpl.
    rewrite H21. simpl. rewrite set_suppress_id, insert_insert_eq.
    by apply insert_id.
  - destruct (st_events s !! e) as [ev|] eqn:He;
      [|by rewrite (suppress_callback_enter_none e v s He)].
    destruct v as [|z|s0|l|f|a0|a0];
      try (unfold suppress_callback_enter, bind, get_event in *;
           rewrite He in *; simpl in *; split; [done|];
           intros s2 H21; by unfold cm_exit).
    destruct (suppress_callback_enter_some e f ev s He)
      as (s1 & E1 & H1 & Hc1 & _).
    rewrite E1 in *. simpl in *. split; [done|].
    intros s2 H21. unfold cm_exit, exit_kind. simpl.
    assert (He2 : st_events s2 !! e
                  = Some (set_connected
                            ((fun fs : gset fid => fs ∖ {[f]})
                               <$> ev_connected ev) ev))
      by (rewrite H21, H1; apply lookup_insert_eq).
    destruct (suppress_callback_exit_lookup funcs e f
                (found_in (ev_connected ev) f) _ s2 He2)
      as (c' & Hc' & s' & E3 & Hev' & _).
    rewrite E3. simpl. rewrite Hev'.
    rewrite (reconnect_restores (ev_connected ev) c' f Hc').
    rewrite set_connected_id, H21, H1, insert_insert_eq.
    by apply insert_id.
  - unfold Events_suppress_enter, bind, get_container in *.
    destruct (st_containers s !! c) as [co|] eqn:Hco; [|done].
    specialize (Hdist co eq_refl).
    destruct (suppress_all (Events_iter co) ∅ s) as [[s1 old] [[]|x]] eqn:E.
    + simpl in *. split; [done|]. intros s2 H21.
      unfold cm_exit, exit_kind. simpl.
      pose proof (Events_suppress_round_trip _ _ _ _ s2 _ Hdist E H21) as H.
      by destruct (Events_suppress_exit old s2) as [s3 [[]|y]].
    + simpl. by eapply Events_suppress_round_trip.
Qed.

End RoundTrip.

Lemma distinct_events_same (c : cm) (s s1 : state) :
  st_containers s1 = st_containers s ->
  distinct_events s c -> distinct_events s1 c.
Proof. unfold distinct_events. intros ->. done. Qed.

Lemma nested_with_restores (funcs : fid -> pyfunc) (body : M unit)
    (cms : list cm) (s : state) :
  (forall s0, st_events (body s0).1 = st_events s0) ->
  Forall idle cms -> Forall (distinct_events s) cms ->
  st_events (nested_with funcs cms body s).1.1 = st_events s.
Proof.
  intros Hbody. revert s. induction cms as [|c cms IH]; intros s Hidle Hdist.
  - simpl. specialize (Hbody s). by destruct (body s).
  - apply Forall_cons in Hidle as [Hc Hidle].
    apply Forall_cons in Hdist as [Hd Hdist].
    pose proof (cm_round_trip funcs c s Hc Hd) as Hrt. simpl.
    destruct (cm_enter funcs c s) as [[s1 c1] [[]|x]]; [|done].
    destruct Hrt as [Hcont Hrt].
    assert (Hdist1 : Forall (distinct_events s1) cms).
    { eapply Forall_impl; [exact Hdist|]. intros c0.
      by apply distinct_events_same. }
    specialize (IH s1 Hidle Hdist1).
    destruct (nested_with funcs cms body s1) as [[s2 rest'] r].
    specialize (Hrt s2 IH).
    by destruct (cm_exit funcs c1 s2) as [[s3 c2] [[]|y]].
Qed.



(** ** Programs destroy no event *)

Lemma preserves_scoped {L A} (R : relation state) `{!PreOrder R}
    (enter : M L) (exit : L -> M unit) (body : M A) :
  preserves R enter -> preserves R body -> (forall l, preserves R (exit l)) ->
  preserves R (scoped enter exit body).
Proof.
  intros Hen Hb Hex s. unfold scoped, bind. specialize (Hen s).
  destruct (enter s) as [s1 [l|x]]; simpl in *; [|done].
  specialize (Hb s1). destruct (body s1) as [s2 rb]. simpl in *.
  specialize (Hex l s2). destruct (exit l s2) as [s3 [[]|y]]; simpl in *;
    (etrans; [exact Hen|]; etrans; [exact Hb|exact Hex]).
Qed.

Section ProgramsAlive.

Variable funcs : fid -> pyfunc.

Lemma call_function_alive (at_ : site) (f : fid) (args : list value)
    (kw : kwargs) :
  preserves alive (call_function funcs at_ f args kw).
Proof.
  unfold call_function. apply preserves_bind; [apply _|by intros ? ?|].
  intros _. destruct (call_binds _ _ _); [|by intros ?].
  apply preserves_for_each; [apply _|].
  intros [a g n|a g|]; unfold run_action;
    [apply connect_alive|apply disconnect_alive|by intros ?].
Qed.

Lemma iter_all_alive (g : addr) (args : list value) (kw : kwargs)
    (n0 i todo : nat) :
  preserves alive (iter_all funcs g args kw n0 i todo).
Proof.
  revert i. induction todo as [|todo IH]; intros i; simpl;
    (apply preserves_bind; [apply _|apply preserves_get_event; apply _|]);
    intros ev; case_bool_decide; try (by intros ?).
  destruct (_ !! i); [|by intros ?].
  apply preserves_bind; [apply _|apply call_function_alive|].
  intros _. apply IH.
Qed.

Lemma trigger_alive (g : addr) (args : list value) (kw : kwargs) :
  preserves alive (trigger funcs g args kw).
Proof.
  unfold trigger.
  apply preserves_bind; [apply _|apply preserves_get_event; apply _|].
  intros ev. destruct (ev_suppress ev); [by intros ?|].
  apply preserves_for_each; [apply _|]. intros [|n]; simpl.
  - apply preserves_bind; [apply _|apply preserves_get_event; apply _|].
    intros ev'. apply iter_all_alive.
  - destruct (_ <? n); [by intros ?|].
    apply preserves_bind; [apply _|apply preserves_get_event; apply _|].
    intros ev'. apply preserves_for_each; [apply _|]. intros f.
    unfold _trigger_nargs.
    apply preserves_bind; [apply _|apply preserves_get_event; apply _|].
    intros ev''. destruct (nargs_args _ _ _ _ _); [|by intros ?].
    apply call_function_alive.
Qed.

Lemma call_trigger_alive (g : addr) (args : list value) (kw : kwargs) :
  preserves alive (call_trigger funcs g args kw).
Proof.
  unfold call_trigger.
  apply preserves_bind; [apply _|apply preserves_get_event; apply _|].
  intros ev. destruct (ev_wrapper ev) as [[names defaults]|];
    [|apply trigger_alive].
  destruct (bind_signature _ _ _ _) as [kw'|x]; [|by intros ?].
  destruct (kw' !! _) as [v|].
  - destruct v; try (by intros ?). apply call_function_alive.
  - apply preserves_bind; [apply _| |intros; apply trigger_alive].
    intros s. by destruct (st_glob_f s).
Qed.

(** Every program satisfies the hypothesis of C7 on the body. *)
Lemma exec_alive (p : stmt) : preserves alive (exec funcs p).
Proof.
  induction p as [|p1 IH1 p2 IH2| |a args kw|a v n|a v|c name a|c name
                  |a body IH|a v body IH|c body IH]; simpl.
  - by intros ?.
  - apply preserves_bind; [apply _|done|done].
  - by intros ?.
  - apply call_trigger_alive.
  - apply connect_alive.
  - apply disconnect_alive.
  - apply preserves_bind; [apply _|apply preserves_get_event; apply _|].
    intros _ s. apply alive_same_events.
    unfold Events_setattr, bind, get_container.
    by destruct (st_containers s !! c).
  - intros s. apply alive_same_events.
    unfold Events_delattr, bind, get_container.
    destruct (st_containers s !! c) as [co|]; [|done].
    destruct (es_events co !! name); [done|]. by case_bool_decide.
  - apply preserves_scoped; [apply _| |done|intros; apply set_flag_alive].
    apply (enter_kind_alive_suppress a).
  - apply preserves_scoped; [apply _| |done|].
    + apply (enter_kind_alive_callback a v).
    + intros found. apply preserves_for_each; [apply _|].
      intros k. apply connect_alive.
  - apply preserves_scoped;
      [apply _| |done|intros; apply Events_suppress_exit_alive].
    apply (enter_kind_alive_events c).
Qed.

End ProgramsAlive.

(** ** The managers that [add] builds *)

Lemma built_by_add_idle (s : state) (c : cm) :
  built_by_add c -> idle c /\ distinct_events s c.
Proof.
  destruct c as [k st]. unfold built_by_add, idle, distinct_events. simpl.
  intros [-> Hk]. split; [done|]. by destruct k.
Qed.

Lemma _add_single_built (cms cms' : list cm) (target : value) (s : state)
    (r : result unit) :
  Forall built_by_add cms -> _add_single cms target s = (cms', r) ->
  Forall built_by_add cms'.
Proof.
  intros Hcms. unfold _add_single.
  destruct (_is_tuple_target target) as [[]|x] eqn:Ht.
  - destruct target as [|z|s0|l|g|a0|a0]; simpl; try (by intros [= <- _]).
    destruct l as [|v1 l]; simpl; try (by intros [= <- _]).
    destruct v1 as [|z|s0|l1|g|a0|a0]; simpl; try (by intros [= <- _]);
      destruct l as [|v2 [|v3 l]]; simpl; try (by intros [= <- _]).
    + intros [= <- _]. apply Forall_app. split; [done|].
      by repeat constructor.
    + destruct (st_containers s !! a0) as [co|]; [|by intros [= <- _]].
      intros [= <- _]. apply Forall_app. split; [done|].
      apply Forall_fmap, Forall_forall. by intros e _.
  - destruct target as [|z|s0|l|g|a0|a0]; simpl; try (by intros [= <- _]).
    intros [= <- _]. apply Forall_app. split; [done|].
    by repeat constructor.
  - by intros [= <- _].
Qed.

Lemma add_each_built (l : list value) (cms cms' : list cm) (s : state)
    (r : result unit) :
  Forall built_by_add cms -> add_each cms l s = (cms', r) ->
  Forall built_by_add cms'.
Proof.
  revert cms. induction l as [|t l IH]; intros cms Hcms; simpl.
  - by intros [= <- _].
  - destruct (_is_target t) as [[]|x]; [| |by intros [= <- _]].
    + destruct (_add_single cms t s) as [cms1 [[]|x]] eqn:E.
      * apply IH. by eapply _add_single_built.
      * intros [= <- _]. by eapply _add_single_built.
    + by apply IH.
Qed.

(** Every manager of a suppressor filled by [add] is new, and none is the
    scope of a whole container: for a bare [Events] target,
    [_is_tuple_target] asks for its length and raises. *)
Lemma add_built (fuel : nat) (cms cms' : list cm) (to_suppress : list value)
    (s : state) (r : result unit) :
  Forall built_by_add cms ->
  add fuel cms to_suppress s = Some (cms', r) ->
  Forall built_by_add cms'.
Proof.
  intros Hcms. unfold add.
  destruct (unwrap fuel (VTuple to_suppress)) as [[v|x]|];
    [|by intros [= <- _]|done].
  destruct (_is_target v) as [[]|x]; [| |by intros [= <- _]].
  - destruct (_add_single cms v s) as [cms1 r1] eqn:E.
    intros [= <- _]. by eapply _add_single_built.
  - destruct (is_iterable v); [|by intros [= <- _]].
    destruct (py_len v) as [[|n]|x]; [by intros [= <- _]| |by intros [= <- _]].
    destruct (add_each cms (py_items v) s) as [cms1 r1] eqn:E.
    intros [= <- _]. by eapply add_each_built.
Qed.

(** ** Further observations *)

(** A name that ordinary lookup finds is never passed to [__getattr__]: an
    event registered under the name of a method is shadowed by it. *)
Remark Events_getattr_member (self : addr) (name : string) (c : events_obj)
    (s : state) :
  st_containers s !! self = Some c ->
  name ∈ es_dict c \/ name ∈ class_members ->
  Events_getattr self name s = (s, Ok (AttrMember name)).
Proof.
  intros Hc Hn. unfold Events_getattr, bind, get_container. rewrite Hc.
  destruct Hn as [Hn|Hn].
  - by rewrite (bool_decide_eq_true_2 _ Hn).
  - rewrite (bool_decide_eq_true_2 (name ∈ class_members) Hn).
    by rewrite orb_true_r.
Qed.

(** A bare [Events] target cannot be added: [add] asks for its length. *)
Remark add_container_raises (cms : list cm) (c : addr) (s : state) :
  add 2 cms [VEvents c] s = Some (cms, Err TypeError)
  /\ add 1 cms [VEvent 0%nat; VEvents c] s
     = Some (cms ++ [new_cm (CmSuppress 0%nat)], Err TypeError).
Proof. done. Qed.

(** A string of one character never leaves the first loop of [add]. *)
Remark add_one_character (fuel : nat) (cms : list cm) (s : state) :
  add fuel cms [VStr "a"] s = None.
Proof.
  assert (H : forall n, unwrap n (VStr "a") = None).
  { induction n as [|n IH]; [done|]. exact IH. }
  unfold add. destruct fuel as [|fuel]; [done|].
  change (unwrap (S fuel) (VTuple [VStr "a"])) with (unwrap fuel (VStr "a")).
  by rewrite H.
Qed.

(** [Events.suppress] records the flag of an event once per name: for an
    event held under two names the recorded value is the one the first
    visit has set, and the event stays suppressed after the scope. *)
Remark Events_suppress_same_event_twice :
  flag_of ex_state_alias 0%nat = Some false
  /\ flag_of (exec ex_funcs (SWithEventsSuppress 0%nat SPass)
                ex_state_alias).1 0%nat = Some true.
Proof. split; by vm_compute. Qed.

(** A suppressor is spent after one use: its generators are finished, and
    entering it again raises before anything is entered. *)
Remark EventSupressor_single_use :
  let '(s1, cms1, r1) :=
    EventSupressor_suppress ex_funcs ex_cms_two (ret tt) ex_state_two in
  r1 = Ok tt
  /\ Forall (fun c => cm_state c = Finished) cms1
  /\ EventSupressor_suppress ex_funcs cms1 (ret tt) s1
     = (s1, cms1, Err RuntimeError).
Proof. vm_compute. repeat split; by repeat constructor. Qed.

(** The generated [trigger] functions read the module global [f] when they
    are called: after a second event with arguments has been created, the
    trigger of the first one calls the callbacks of the second. *)
Remark generated_trigger_uses_last_event :
  st_glob_f ex_two_signatures.1 = Some 1%nat
  /\ st_log ex_two_signatures.1 = [Call (InTrigger 1%nat (SInt 0)) 8%nat [] ∅]
  /\ ex_two_signatures.2 = Ok tt.
Proof. repeat split; by vm_compute. Qed.

(** For a bound method, [candidates.pop()] leaves the last parameter name,
    and the keyword arguments are matched against its characters. *)
Remark candidates_of_method :
  candidates (ex_funcs 3%nat) 0 = Ok ["a"%string]
  /\ candidates (PyFunc ["self"; "ab"]%string 0%nat false false true []) 1
     = Ok ["a"; "b"]%string
  /\ candidates (ex_funcs 3%nat) 2 = Err IndexError.
Proof. done. Qed.

(** * Further properties of the event code *)

(** ** Connections *)

(** Connecting the same callback under the same selector twice is the same
    as connecting it once. *)
Theorem connect_idempotent (funcs : fid -> pyfunc) (e : addr)
    (function : value) (n : nargs_arg) (s : state) :
  (do! connect funcs e function n in connect funcs e function n) s
  = connect funcs e function n s.
Proof.
  unfold bind at 1.
  destruct function as [|z|s0|l|f|a0|a0]; try done.
  destruct (st_events s !! e) as [ev|] eqn:He.
  - rewrite (connect_some funcs e f n ev s He).
    erewrite connect_some by apply lookup_insert_eq.
    cbn [ev_connected set_connected]. rewrite lookup_insert_eq.
    cbn [default]. rewrite insert_insert_eq.
    unfold set_events. cbn [st_events st_containers st_glob_f st_log].
    rewrite insert_insert_eq. do 3 f_equal. destruct ev.
    unfold set_connected. simpl. do 2 f_equal. set_solver.
  - unfold connect, bind, get_event. by rewrite He.
Qed.

Lemma registered_under_some (s : state) (e : addr) (ev : event_obj)
    (f : fid) (k : selector) :
  st_events s !! e = Some ev ->
  registered_under s e f k
  <-> exists fs, ev_connected ev !! k = Some fs /\ f ∈ fs.
Proof.
  intros He. rewrite (registered_under_found s e f ev k He).
  apply found_in_spec.
Qed.

(** After [e.connect(g, nargs)] the callback is registered under the
    selector that [nargs] resolves to, and no other registration of the
    event, or of another event, has changed. *)
Theorem connect_registers (funcs : fid -> pyfunc) (e : addr) (g : fid)
    (n : nargs_arg) (s : state) :
  is_Some (st_events s !! e) ->
  exists s',
    connect funcs e (VFunc g) n s = (s', Ok tt)
    /\ forall a f k,
         registered_under s' a f k
         <-> registered_under s a f k
             \/ (a = e /\ f = g /\ k = resolve_nargs funcs g n).
Proof.
  intros [ev He]. rewrite (connect_some funcs e g n ev s He).
  eexists. split; [done|]. intros a f k.
  destruct (decide (a = e)) as [->|Hne].
  - rewrite (registered_under_some s e ev f k He).
    rewrite (registered_under_some _ e _ f k (lookup_insert_eq _ _ _)).
    cbn [ev_connected set_connected].
    destruct (decide (k = resolve_nargs funcs g n)) as [->|Hk].
    + rewrite lookup_insert_eq. split.
      * intros (fs & [= <-] & [Hf|Hf]%elem_of_union).
        -- left. destruct (ev_connected ev !! resolve_nargs funcs g n)
             as [fs0|]; simpl in Hf; [by exists fs0|set_solver].
        -- right. set_solver.
      * intros [(fs & Hk & Hf)|(_ & -> & _)]; eexists; (split; [done|]).
        -- rewrite Hk. set_solver.
        -- set_solver.
    + rewrite lookup_insert_ne by done. naive_solver.
  - unfold registered_under. rewrite connected_of_insert.
    rewrite decide_False by done. naive_solver.
Qed.

Lemma connect_registers_witness :
  exists s',
    connect ex_funcs 0%nat (VFunc 3%nat) NAuto ex_state = (s', Ok tt)
    /\ forall a f k,
         registered_under s' a f k
         <-> registered_under ex_state a f k
             \/ (a = 0%nat /\ f = 3%nat
                 /\ k = resolve_nargs ex_funcs 3%nat NAuto).
Proof. apply connect_registers. eexists. reflexivity. Defined.

(** After [e.disconnect(g)] the callback is under no selector of the
    event, whichever selectors it was connected under; every other
    registration is as before, and no selector has been removed. *)
Theorem disconnect_removes_everywhere (e : addr) (g : fid) (s : state) :
  is_Some (st_events s !! e) ->
  exists s',
    disconnect e (VFunc g) s = (s', Ok tt)
    /\ (forall a f k,
          registered_under s' a f k
          <-> registered_under s a f k /\ ~ (a = e /\ f = g))
    /\ (forall a c, connected_of s a = Some c ->
          exists c', connected_of s' a = Some c' /\ dom c' = dom c).
Proof.
  intros [ev He]. rewrite (disconnect_some e g ev s He).
  eexists. split; [done|]. split.
  - intros a f k. destruct (decide (a = e)) as [->|Hne].
    + rewrite (registered_under_some s e ev f k He).
      rewrite (registered_under_some _ e _ f k (lookup_insert_eq _ _ _)).
      cbn [ev_connected set_connected]. rewrite lookup_fmap. split.
      * intros (fs & Hk & Hf).
        destruct (ev_connected ev !! k) as [fs0|]; [|done].
        injection Hk as <-. split; [exists fs0|]; set_solver.
      * intros [(fs & Hk & Hf) Hne]. rewrite Hk. eexists. split; [done|].
        set_solver.
    + unfold registered_under. rewrite connected_of_insert.
      rewrite decide_False by done. naive_solver.
  - intros a c Hc. rewrite connected_of_insert.
    destruct (decide (e = a)) as [<-|Hne]; [|by exists c].
    rewrite (connected_of_some _ _ _ He) in Hc. injection Hc as <-.
    eexists. split; [done|]. cbn [ev_connected set_connected].
    apply dom_fmap_L.
Qed.

Lemma disconnect_removes_everywhere_witness :
  exists s',
    disconnect 0%nat (VFunc 0%nat) ex_state_f2 = (s', Ok tt)
    /\ (forall a f k,
          registered_under s' a f k
          <-> registered_under ex_state_f2 a f k
              /\ ~ (a = 0%nat /\ f = 0%nat))
    /\ (forall a c, connected_of ex_state_f2 a = Some c ->
          exists c', connected_of s' a = Some c' /\ dom c' = dom c).
Proof. apply disconnect_removes_everywhere. eexists. reflexivity. Defined.

(** Disconnecting a callback that is not connected is not an error and
    leaves every event as it is. *)
Theorem disconnect_not_connected (e : addr) (g : fid) (s : state) :
  is_Some (st_events s !! e) ->
  (forall k, ~ registered_under s e g k) ->
  (disconnect e (VFunc g) s).2 = Ok tt
  /\ st_events (disconnect e (VFunc g) s).1 = st_events s.
Proof.
  intros [ev He] Hnot. rewrite (disconnect_some e g ev s He).
  split; [done|]. cbn [fst st_events set_events].
  rewrite remove_absent.
  - rewrite insert_id; [done|]. rewrite He. by destruct ev.
  - destruct (found_in (ev_connected ev) g) as [|k l] eqn:Hf; [done|].
    destruct (Hnot k). apply (registered_under_found s e g ev k He).
    rewrite Hf. by left.
Qed.

Lemma disconnect_not_connected_witness :
  (disconnect 0%nat (VFunc 9%nat) ex_state).2 = Ok tt
  /\ st_events (disconnect 0%nat (VFunc 9%nat) ex_state).1
     = st_events ex_state.
Proof.
  apply disconnect_not_connected; [eexists; reflexivity|].
  intros k (c & fs & Hc & Hk & Hf). unfold connected_of, ex_state in Hc.
  cbn [st_events] in Hc. rewrite lookup_singleton_eq in Hc.
  injection Hc as <-. cbn [ev_connected empty_event] in Hk.
  by rewrite lookup_empty in Hk.
Defined.

(** [connected()] is the union of the sets of all selectors,
    [connected(nargs)] the set of one selector, empty when the selector was
    never used. *)
Theorem connected_spec (e : addr) (ev : event_obj) (s : state) :
  st_events s !! e = Some ev ->
  (exists U, connected e None s = (s, Ok U)
             /\ forall f, f ∈ U <-> exists k, registered_under s e f k)
  /\ (forall k, exists V,
        connected e (Some k) s = (s, Ok V)
        /\ (forall f, f ∈ V <-> registered_under s e f k)
        /\ (ev_connected ev !! k = None -> V = ∅)).
Proof.
  intros He. split.
  - eexists. split.
    + unfold connected, bind, get_event. by rewrite He.
    + intros f. rewrite elem_of_union_list. split.
      * intros (fs & Hfs & Hf). apply list_elem_of_fmap in Hfs
          as ([k fs'] & -> & Hin). apply elem_of_map_to_list in Hin.
        exists k. apply (registered_under_some s e ev f k He). by exists fs'.
      * intros [k Hk]. apply (registered_under_some s e ev f k He) in Hk
          as (fs & Hk & Hf).
        exists fs. split; [|done]. apply list_elem_of_fmap.
        exists (k, fs). split; [done|]. by apply elem_of_map_to_list.
  - intros k. eexists. split; [|split].
    + unfold connected, bind, get_event. by rewrite He.
    + intros f. rewrite (registered_under_some s e ev f k He).
      destruct (ev_connected ev !! k) as [fs|]; simpl.
      * split; [by exists fs|]. by intros (fs' & [= <-] & Hf).
      * split; [set_solver|]. by intros (fs' & ? & _).
    + by intros ->.
Qed.

Lemma connected_spec_witness :
  (exists U, connected 0%nat None ex_state_f2 = (ex_state_f2, Ok U)
             /\ forall f, f ∈ U
                          <-> exists k, registered_under ex_state_f2 0%nat f k)
  /\ (forall k, exists V,
        connected 0%nat (Some k) ex_state_f2 = (ex_state_f2, Ok V)
        /\ (forall f, f ∈ V <-> registered_under ex_state_f2 0%nat f k)
        /\ (ev_connected ex_event_f2 !! k = None -> V = ∅)).
Proof. apply connected_spec. reflexivity. Defined.

(** ** Selectors are never removed *)

Global Instance selectors_kept_preorder : PreOrder selectors_kept.
Proof.
  split.
  - intros s a c Hc. by exists c.
  - intros s1 s2 s3 H12 H23 a c Hc.
    destruct (H12 a c Hc) as (c2 & Hc2 & Hd2).
    destruct (H23 a c2 Hc2) as (c3 & Hc3 & Hd3).
    exists c3. split; [done|]. set_solver.
Qed.

Lemma selectors_kept_insert (a : addr) (ev ev' : event_obj) (s : state) :
  st_events s !! a = Some ev ->
  dom (ev_connected ev) ⊆ dom (ev_connected ev') ->
  selectors_kept s (set_events <[a := ev']> s).
Proof.
  intros Ha Hd b c Hc. rewrite connected_of_insert.
  destruct (decide (a = b)) as [<-|Hne]; [|by exists c].
  rewrite (connected_of_some _ _ _ Ha) in Hc. injection Hc as <-.
  by eexists.
Qed.

Lemma selectors_kept_same_events (s s' : state) :
  st_events s' = st_events s -> selectors_kept s s'.
Proof. intros He a c Hc. exists c. unfold connected_of in *. by rewrite He. Qed.

Lemma set_flag_selectors (a : addr) (b : bool) :
  preserves selectors_kept (set_flag a b).
Proof.
  intros s. unfold set_flag, bind, get_event, put_event.
  destruct (st_events s !! a) as [ev|] eqn:Ha; [|done].
  by apply (selectors_kept_insert a ev).
Qed.

Lemma disconnect_selectors (a : addr) (v : value) :
  preserves selectors_kept (disconnect a v).
Proof.
  destruct v as [|z|s0|l|g|a0|a0]; intros s;
    try (rewrite disconnect_not_function by done; reflexivity).
  destruct (st_events s !! a) as [ev|] eqn:Ha.
  - rewrite (disconnect_some a g ev s Ha).
    apply (selectors_kept_insert a ev); [done|].
    cbn [ev_connected set_connected]. by rewrite dom_fmap_L.
  - unfold disconnect, bind, get_event. by rewrite Ha.
Qed.

Lemma connect_selectors (funcs : fid -> pyfunc) (a : addr) (v : value)
    (n : nargs_arg) :
  preserves selectors_kept (connect funcs a v n).
Proof.
  destruct v as [|z|s0|l|g|a0|a0]; intros s; try reflexivity.
  destruct (st_events s !! a) as [ev|] eqn:Ha.
  - rewrite (connect_some funcs a g n ev s Ha).
    apply (selectors_kept_insert a ev); [done|].
    cbn [ev_connected set_connected]. rewrite dom_insert_L. set_solver.
  - by rewrite connect_none.
Qed.

Lemma suppress_all_selectors (l : list addr) (old : gmap addr bool)
    (s : state) :
  selectors_kept s (suppress_all l old s).1.1.
Proof.
  revert old s. induction l as [|a l IH]; intros old s; simpl; [done|].
  unfold get_event. destruct (st_events s !! a) as [ev|] eqn:Ha; [|done].
  etrans; [|apply IH]. by apply (selectors_kept_insert a ev).
Qed.

Lemma Events_suppress_exit_selectors (old : gmap addr bool) :
  preserves selectors_kept (Events_suppress_exit old).
Proof.
  apply preserves_for_each; [apply _|]. intros [a b].
  apply set_flag_selectors.
Qed.

Section SelectorsKept.

Variable funcs : fid -> pyfunc.

Lemma call_function_selectors (at_ : site) (f : fid) (args : list value)
    (kw : kwargs) :
  preserves selectors_kept (call_function funcs at_ f args kw).
Proof.
  unfold call_function.
  apply preserves_bind;
    [apply _|intros ?; by apply selectors_kept_same_events|].
  intros _. destruct (call_binds _ _ _); [|intros ?; reflexivity].
  apply preserves_for_each; [apply _|].
  intros [a g n|a g|]; unfold run_action;
    [apply connect_selectors|apply disconnect_selectors|intros ?; reflexivity].
Qed.

Lemma iter_all_selectors (g : addr) (args : list value) (kw : kwargs)
    (n0 i todo : nat) :
  preserves selectors_kept (iter_all funcs g args kw n0 i todo).
Proof.
  revert i. induction todo as [|todo IH]; intros i; simpl;
    (apply preserves_bind; [apply _|apply preserves_get_event; apply _|]);
    intros ev; case_bool_decide; try (intros ?; reflexivity).
  destruct (_ !! i); [|intros ?; reflexivity].
  apply preserves_bind; [apply _|apply call_function_selectors|].
  intros _. apply IH.
Qed.

Lemma trigger_selectors (g : addr) (args : list value) (kw : kwargs) :
  preserves selectors_kept (trigger funcs g args kw).
Proof.
  unfold trigger.
  apply preserves_bind; [apply _|apply preserves_get_event; apply _|].
  intros ev. destruct (ev_suppress ev); [intros ?; reflexivity|].
  apply preserves_for_each; [apply _|]. intros [|n]; simpl.
  - apply preserves_bind; [apply _|apply preserves_get_event; apply _|].
    intros ev'. apply iter_all_selectors.
  - destruct (_ <? n); [intros ?; reflexivity|].
    apply preserves_bind; [apply _|apply preserves_get_event; apply _|].
    intros ev'. apply preserves_for_each; [apply _|]. intros f.
    unfold _trigger_nargs.
    apply preserves_bind; [apply _|apply preserves_get_event; apply _|].
    intros ev''. destruct (nargs_args _ _ _ _ _); [|intros ?; reflexivity].
    apply call_function_selectors.
Qed.

Lemma call_trigger_selectors (g : addr) (args : list value) (kw : kwargs) :
  preserves selectors_kept (call_trigger funcs g args kw).
Proof.
  unfold call_trigger.
  apply preserves_bind; [apply _|apply preserves_get_event; apply _|].
  intros ev. destruct (ev_wrapper ev) as [[names defaults]|];
    [|apply trigger_selectors].
  destruct (bind_signature _ _ _ _) as [kw'|x]; [|intros ?; reflexivity].
  destruct (kw' !! _) as [v|].
  - destruct v; try (intros ?; reflexivity). apply call_function_selectors.
  - apply preserves_bind; [apply _| |intros; apply trigger_selectors].
    intros s. destruct (st_glob_f s); reflexivity.
Qed.

(** Whatever a program does, and however it ends, every event it started
    with still exists and still has every selector it had: [disconnect]
    and the scopes empty sets but never remove their keys. *)
Theorem exec_keeps_selectors (p : stmt) (s : state) :
  selectors_kept s (exec funcs p s).1.
Proof.
  revert s.
  induction p as [|p1 IH1 p2 IH2| |a args kw|a v n|a v|c name a|c name
                  |a body IH|a v body IH|c body IH]; simpl.
  - intros ?; reflexivity.
  - apply preserves_bind; [apply _|done|done].
  - intros ?; reflexivity.
  - apply call_trigger_selectors.
  - apply connect_selectors.
  - apply disconnect_selectors.
  - apply preserves_bind; [apply _|apply preserves_get_event; apply _|].
    intros _ s. apply selectors_kept_same_events.
    unfold Events_setattr, bind, get_container.
    by destruct (st_containers s !! c).
  - intros s. apply selectors_kept_same_events.
    unfold Events_delattr, bind, get_container.
    destruct (st_containers s !! c) as [co|]; [|done].
    destruct (es_events co !! name); [done|]. by case_bool_decide.
  - apply preserves_scoped; [apply _| |done|intros; apply set_flag_selectors].
    unfold Event_suppress_enter.
    apply preserves_bind; [apply _|apply preserves_get_event; apply _|].
    intros ev. apply preserves_bind; [apply _|apply set_flag_selectors|].
    intros ? ?; reflexivity.
  - apply preserves_scoped; [apply _| |done|].
    + unfold suppress_callback_enter.
      apply preserves_bind; [apply _|apply preserves_get_event; apply _|].
      intros ev. destruct (match v with VFunc _ => _ | _ => _ end);
        [intros ?; reflexivity|].
      apply preserves_bind; [apply _|apply disconnect_selectors|].
      intros ? ?; reflexivity.
    + intros found. apply preserves_for_each; [apply _|].
      intros k. apply connect_selectors.
  - apply preserves_scoped;
      [apply _| |done|intros; apply Events_suppress_exit_selectors].
    intros s. unfold Events_suppress_enter, bind, get_container.
    destruct (st_containers s !! c) as [co|]; [|done].
    pose proof (suppress_all_selectors (Events_iter co) ∅ s) as H.
    destruct (suppress_all _ _ _) as [[s1 old] [[]|x]]; [done|].
    simpl in *. etrans; [exact H|]. apply Events_suppress_exit_selectors.
Qed.

End SelectorsKept.

(** ** What a trigger does and does not do *)

Section TriggerFacts.

Variable funcs : fid -> pyfunc.

Lemma iter_all_same_flags (g : addr) (args : list value) (kw : kwargs)
    (n0 i todo : nat) :
  preserves same_flags (iter_all funcs g args kw n0 i todo).
Proof.
  revert i. induction todo as [|todo IH]; intros i; simpl;
    (apply preserves_bind; [apply _|apply preserves_get_event; apply _|]);
    intros ev; case_bool_decide; try (intros ?; reflexivity).
  destruct (_ !! i); [|intros ?; reflexivity].
  apply preserves_bind; [apply _|apply call_function_same_flags|].
  intros _. apply IH.
Qed.

(** A trigger never changes the suppression flag of any event, whatever
    its callbacks connect, disconnect or raise and however it ends. *)
Theorem trigger_keeps_flags (e : addr) (args : list value) (kw : kwargs)
    (s : state) (a : addr) :
  flag_of (trigger funcs e args kw s).1 a = flag_of s a.
Proof.
  revert a. change (same_flags s (trigger funcs e args kw s).1).
  revert s. unfold trigger.
  apply preserves_bind; [apply _|apply preserves_get_event; apply _|].
  intros ev. destruct (ev_suppress ev); [intros ?; reflexivity|].
  apply preserves_for_each; [apply _|]. intros [|n]; simpl.
  - apply preserves_bind; [apply _|apply preserves_get_event; apply _|].
    intros ev'. apply iter_all_same_flags.
  - destruct (_ <? n); [intros ?; reflexivity|].
    apply preserves_bind; [apply _|apply preserves_get_event; apply _|].
    intros ev'. apply preserves_for_each; [apply _|]. intros f.
    unfold _trigger_nargs.
    apply preserves_bind; [apply _|apply preserves_get_event; apply _|].
    intros ev''. destruct (nargs_args _ _ _ _ _); [|intros ?; reflexivity].
    apply call_function_same_flags.
Qed.

Lemma iter_all_verbatim (log0 : list call) (e : addr) (args : list value)
    (kw : kwargs) (n0 i todo : nat) :
  keeps (log_ext (verbatim e args kw) log0)
        (iter_all funcs e args kw n0 i todo).
Proof.
  revert i. induction todo as [|todo IH]; intros i; simpl.
  - apply keeps_bind; [apply keeps_get_event|]. intros ev.
    case_bool_decide; [apply keeps_ret|apply keeps_raise].
  - apply keeps_bind; [apply keeps_get_event|]. intros ev.
    case_bool_decide; [|apply keeps_raise].
    destruct (_ !! i); [|apply keeps_ret].
    apply keeps_bind; [|intros; apply IH].
    apply call_function_log_ext. by exists SAll.
Qed.

Lemma trigger_verbatim (log0 : list call) (e : addr) (args : list value)
    (kw : kwargs) :
  keeps (log_ext (verbatim e args kw) log0) (trigger funcs e args kw).
Proof.
  unfold trigger. apply keeps_bind; [apply keeps_get_event|]. intros ev.
  destruct (ev_suppress ev); [apply keeps_ret|].
  apply keeps_for_each. intros [|n] _; simpl.
  - apply keeps_bind; [apply keeps_get_event|]. intros ev'.
    apply iter_all_verbatim.
  - destruct (_ <? n); [apply keeps_raise|].
    apply keeps_bind; [apply keeps_get_event|]. intros ev'.
    apply keeps_for_each. intros f _. unfold _trigger_nargs.
    apply keeps_bind; [apply keeps_get_event|]. intros ev''.
    destruct (nargs_args _ _ _ _ _); [|apply keeps_raise].
    apply call_function_log_ext. by exists (SInt n).
Qed.

(** Every call made while [e.trigger( *args, **kwargs)] runs is made by
    the loop of that trigger, and a callback connected under ['all'] is
    passed all positional and keyword arguments as they were supplied. *)
Theorem trigger_all_verbatim (e : addr) (args : list value) (kw : kwargs)
    (s : state) :
  log_ext (verbatim e args kw) (st_log s) (trigger funcs e args kw s).1.
Proof.
  destruct (trigger funcs e args kw s) as [s' r] eqn:E.
  eapply trigger_verbatim; [|exact E]. exists []. by rewrite app_nil_r.
Qed.

End TriggerFacts.

(** ** A trigger calls every registered callback once *)

Lemma traces_ret (evs : gmap addr event_obj) : traces evs [] (ret tt).
Proof. intros s Hs. exists []. by rewrite app_nil_r. Qed.

Lemma traces_raise (evs : gmap addr event_obj) (out : list (site * fid))
    (x : exn) :
  traces evs out (raise x).
Proof.
  intros s Hs. exists []. rewrite app_nil_r. simpl.
  split_and!; [done|done|apply prefix_nil|done].
Qed.

Lemma traces_bind (evs : gmap addr event_obj) (o1 o2 : list (site * fid))
    (m : M unit) (k : M unit) :
  traces evs o1 m -> traces evs o2 k ->
  traces evs (o1 ++ o2) (do! m in k).
Proof.
  intros Hm Hk s Hs. destruct (Hm s Hs) as (n1 & He1 & Hl1 & Hp1 & Ho1).
  unfold bind. destruct (m s) as [s1 [[]|x]]; simpl in *.
  - destruct (Hk s1 He1) as (n2 & He2 & Hl2 & Hp2 & Ho2).
    exists (n1 ++ n2). rewrite Hl2, Hl1, (assoc_L (++)), fmap_app.
    rewrite Ho1 by done. split_and!; [done|done|by apply prefix_app|].
    intros Hr. by rewrite Ho2.
  - exists n1. split_and!; [done|done|by apply prefix_app_r|done].
Qed.

Lemma traces_get_event (evs : gmap addr event_obj) (out : list (site * fid))
    (a : addr) (k : event_obj -> M unit) :
  (forall ev, evs !! a = Some ev -> traces evs out (k ev)) ->
  traces evs out (let! ev := get_event a in k ev).
Proof.
  intros Hk s Hs. unfold bind, get_event. rewrite Hs.
  destruct (evs !! a) as [ev|] eqn:E.
  - by apply Hk.
  - by apply traces_raise.
Qed.

Lemma traces_for_each {A} (evs : gmap addr event_obj)
    (out : A -> list (site * fid)) (l : list A) (k : A -> M unit) :
  (forall x, x ∈ l -> traces evs (out x) (k x)) ->
  traces evs (l ≫= out) (for_each l k).
Proof.
  induction l as [|x l IH]; intros Hk.
  - apply traces_ret.
  - apply traces_bind; [apply Hk; by left|].
    apply IH. intros y Hy. apply Hk. by right.
Qed.

Lemma bind_singleton_fmap {A B} (g : A -> B) (l : list A) :
  l ≫= (fun x => [g x]) = g <$> l.
Proof. induction l as [|x l IH]; [done|]. csimpl. by rewrite IH. Qed.

Lemma bind_fst_ext {K V B} (out : K -> list B) (g : K * V -> list B)
    (l : list (K * V)) :
  (forall kc, kc ∈ l -> out kc.1 = g kc) -> l.*1 ≫= out = l ≫= g.
Proof.
  induction l as [|kc l IH]; intros H; [done|]. csimpl.
  rewrite (H kc) by by left. f_equal. apply IH. intros ? ?. apply H. by right.
Qed.

Section CallsOnce.

Variable funcs : fid -> pyfunc.

Lemma traces_call_function (evs : gmap addr event_obj) (at_ : site)
    (f : fid) (args : list value) (kw : kwargs) :
  fn_body (funcs f) = [] ->
  traces evs [(at_, f)] (call_function funcs at_ f args kw).
Proof.
  intros Hf s Hs. exists [Call at_ f args kw].
  unfold call_function, bind. simpl. rewrite Hf.
  by destruct (call_binds _ _ _).
Qed.

Lemma traces_iter_all (evs : gmap addr event_obj) (e : addr)
    (ev : event_obj) (args : list value) (kw : kwargs) (i todo : nat) :
  evs !! e = Some ev ->
  (forall f, f ∈ default ∅ (ev_connected ev !! SAll) ->
     fn_body (funcs f) = []) ->
  (i + todo = length (elements (default ∅ (ev_connected ev !! SAll))))%nat ->
  traces evs
    (group_calls e SAll
       (drop i (elements (default ∅ (ev_connected ev !! SAll)))))
    (iter_all funcs e args kw
       (length (elements (default ∅ (ev_connected ev !! SAll)))) i todo).
Proof.
  intros He Hin. revert i. induction todo as [|todo IH]; intros i Hi; simpl;
    apply traces_get_event; intros ev' He'; simplify_eq;
    rewrite bool_decide_eq_true_2 by done.
  - rewrite drop_ge by lia. apply traces_ret.
  - destruct (_ !! i) as [f|] eqn:Ef.
    + rewrite (drop_S _ _ _ Ef). unfold group_calls. rewrite fmap_cons.
      apply (traces_bind _ [_]).
      * apply traces_call_function, Hin.
        apply elem_of_elements. by eapply list_elem_of_lookup_2.
      * apply IH. lia.
    + apply lookup_ge_None in Ef. lia.
Qed.

Lemma traces_trigger_group (evs : gmap addr event_obj) (e : addr)
    (ev : event_obj) (args : list value) (kw : kwargs) (k : selector)
    (V : gset fid) :
  evs !! e = Some ev -> ev_connected ev !! k = Some V ->
  (forall f, f ∈ V -> fn_body (funcs f) = []) ->
  traces evs (group_calls e k (elements V))
         (trigger_group funcs e args kw k).
Proof.
  intros He Hk Hin. destruct k as [|n]; simpl.
  - apply traces_get_event. intros ev' He'. simplify_eq.
    pose proof (traces_iter_all evs e ev args kw 0
                  (length (elements (default ∅ (ev_connected ev !! SAll))))
                  He) as H.
    rewrite Hk in H. simpl in H. rewrite Hk. simpl. by apply H.
  - destruct (_ <? n); [apply traces_raise|].
    apply traces_get_event. intros ev' He'. simplify_eq. rewrite Hk. simpl.
    unfold group_calls. rewrite <- bind_singleton_fmap.
    apply traces_for_each. intros f Hf. unfold _trigger_nargs.
    apply traces_get_event. intros ev'' He''.
    destruct (nargs_args _ _ _ _ _); [|apply traces_raise].
    apply traces_call_function, Hin. by apply elem_of_elements.
Qed.

Lemma traces_trigger (evs : gmap addr event_obj) (e : addr)
    (ev : event_obj) (args : list value) (kw : kwargs) :
  evs !! e = Some ev -> ev_suppress ev = false ->
  (forall k V f, ev_connected ev !! k = Some V -> f ∈ V ->
     fn_body (funcs f) = []) ->
  traces evs (expected_calls e (ev_connected ev)) (trigger funcs e args kw).
Proof.
  intros He Hs Hin. unfold trigger. apply traces_get_event.
  intros ev' He'. simplify_eq. rewrite Hs. unfold expected_calls.
  rewrite <- (bind_fst_ext
    (fun k => group_calls e k (elements (default ∅ (ev_connected ev !! k)))));
    [|intros [k V] Hk%elem_of_map_to_list; simpl; by rewrite Hk].
  apply traces_for_each. intros k Hk.
  apply list_elem_of_fmap in Hk as ([k' V] & -> & HkV%elem_of_map_to_list).
  simpl. rewrite HkV. simpl. eapply traces_trigger_group; eauto.
Qed.

End CallsOnce.

Lemma expected_calls_spec (e : addr) (c : gmap selector (gset fid))
    (at_ : site) (f : fid) :
  (at_, f) ∈ expected_calls e c
  <-> exists k V, c !! k = Some V /\ f ∈ V /\ at_ = InTrigger e k.
Proof.
  unfold expected_calls, group_calls. rewrite list_elem_of_bind. split.
  - intros ([k V] & Hx & Hk%elem_of_map_to_list).
    apply list_elem_of_fmap in Hx as (g & [= -> ->] & Hg%elem_of_elements).
    by exists k, V.
  - intros (k & V & Hk & Hf & ->). exists (k, V). split.
    + apply list_elem_of_fmap. exists f. by rewrite elem_of_elements.
    + by apply elem_of_map_to_list.
Qed.

Lemma expected_calls_NoDup (e : addr) (c : gmap selector (gset fid)) :
  NoDup (expected_calls e c).
Proof.
  unfold expected_calls, group_calls. apply NoDup_bind.
  - intros [k1 V1] [k2 V2] [at_ f] H1%elem_of_map_to_list
      H2%elem_of_map_to_list Hx1 Hx2.
    apply list_elem_of_fmap in Hx1 as (g1 & [= -> ->] & _).
    apply list_elem_of_fmap in Hx2 as (g2 & [= -> _] & _).
    simpl in *. congruence.
  - intros [k V] _. apply NoDup_fmap_2; [|apply NoDup_elements].
    by intros ? ? [=].
  - apply NoDup_map_to_list.
Qed.

(** When the callbacks connected to an event do nothing to the events,
    a trigger of the event that is not suppressed leaves every event as it
    is and calls no callback twice under the same selector; every call it
    makes is a call of a callback at the selector it is registered under;
    and when the trigger returns, every registered callback has been called
    under each of its selectors. *)
Theorem trigger_calls_each_once (funcs : fid -> pyfunc) (e : addr)
    (ev : event_obj) (args : list value) (kw : kwargs) (s : state) :
  st_events s !! e = Some ev -> ev_suppress ev = false ->
  (forall k V f, ev_connected ev !! k = Some V -> f ∈ V ->
     fn_body (funcs f) = []) ->
  exists new,
    st_log (trigger funcs e args kw s).1 = st_log s ++ new
    /\ st_events (trigger funcs e args kw s).1 = st_events s
    /\ NoDup (call_key <$> new)
    /\ (forall c, c ∈ new ->
          exists k, c_site c = InTrigger e k
                    /\ registered_under s e (c_func c) k)
    /\ ((trigger funcs e args kw s).2 = Ok tt ->
        forall f k, registered_under s e f k ->
          exists c, c ∈ new /\ c_site c = InTrigger e k /\ c_func c = f).
Proof.
  intros He Hs Hin.
  destruct (traces_trigger funcs (st_events s) e ev args kw He Hs Hin s eq_refl)
    as (new & Hev & Hlog & Hpre & Hok).
  exists new. split_and!; [done|done|..].
  - destruct Hpre as [rest Hrest].
    pose proof (expected_calls_NoDup e (ev_connected ev)) as Hnd.
    rewrite Hrest in Hnd. by apply NoDup_app in Hnd as [? _].
  - intros c Hc.
    assert (Hx : (c_site c, c_func c) ∈ expected_calls e (ev_connected ev)).
    { destruct Hpre as [rest ->]. apply elem_of_app. left.
      apply list_elem_of_fmap. by exists c. }
    apply expected_calls_spec in Hx as (k & V & Hk & Hf & ->).
    exists k. split; [done|]. exists (ev_connected ev), V.
    unfold connected_of. by rewrite He.
  - intros Hr f k (c & V & Hc & Hk & Hf). unfold connected_of in Hc.
    rewrite He in Hc. simplify_eq/=.
    assert (Hx : (InTrigger e k, f) ∈ call_key <$> new).
    { rewrite (Hok Hr). apply expected_calls_spec. by exists k, V. }
    apply list_elem_of_fmap in Hx as (c & [= H1 H2] & Hc). by exists c.
Qed.

Lemma trigger_calls_each_once_witness :
  exists new,
    st_log (trigger ex_funcs 0%nat [] ∅ ex_state_two).1
    = st_log ex_state_two ++ new
    /\ st_events (trigger ex_funcs 0%nat [] ∅ ex_state_two).1
       = st_events ex_state_two
    /\ NoDup (call_key <$> new)
    /\ (forall c, c ∈ new ->
          exists k, c_site c = InTrigger 0%nat k
                    /\ registered_under ex_state_two 0%nat (c_func c) k)
    /\ ((trigger ex_funcs 0%nat [] ∅ ex_state_two).2 = Ok tt ->
        forall f k, registered_under ex_state_two 0%nat f k ->
          exists c, c ∈ new /\ c_site c = InTrigger 0%nat k /\ c_func c = f).
Proof.
  apply (trigger_calls_each_once ex_funcs 0%nat ex_event_k [] ∅ ex_state_two).
  - reflexivity.
  - reflexivity.
  - intros k V f Hk. cbn [ex_event_k ev_connected] in Hk.
    apply lookup_singleton_Some in Hk as [<- <-].
    intros ->%elem_of_singleton. reflexivity.
Defined.

(** ** The scope of [Events.suppress] *)

(** The first loop of [Events.suppress] over events that all exist runs to
    its end: it records exactly the events it went through, each of them is
    suppressed afterwards, and the trace is untouched. *)
Lemma suppress_all_ok (l : list addr) (old : gmap addr bool) (s : state) :
  (forall a, a ∈ l -> is_Some (st_events s !! a)) ->
  exists s1 old1,
    suppress_all l old s = (s1, old1, Ok tt)
    /\ (forall a, flag_of s a = Some true -> flag_of s1 a = Some true)
    /\ (forall a, a ∈ l -> flag_of s1 a = Some true)
    /\ (forall a, is_Some (old1 !! a) <-> a ∈ l \/ is_Some (old !! a))
    /\ st_log s1 = st_log s.
Proof.
  revert old s. induction l as [|b l IH]; intros old s Hl; simpl.
  - exists s, old. split_and!; try done.
    + intros a Ha. by apply elem_of_nil in Ha.
    + intros a. split; [by right|]. intros [Ha|Ha]; [|done].
      by apply elem_of_nil in Ha.
  - unfold get_event. destruct (Hl b) as [ev Hb]; [by left|]. rewrite Hb.
    set (s0 := set_events <[b := set_suppress true ev]> s).
    assert (Hmono : forall a, flag_of s a = Some true ->
                      flag_of s0 a = Some true).
    { intros a Ha. unfold flag_of, s0 in *. simpl.
      destruct (decide (a = b)) as [->|Hne].
      - by rewrite lookup_insert_eq.
      - by rewrite lookup_insert_ne. }
    destruct (IH (<[b := ev_suppress ev]> old) s0)
      as (s1 & old1 & E & H1 & H2 & H3 & H4).
    { intros a Ha. unfold s0. simpl. rewrite lookup_insert_is_Some.
      destruct (decide (b = a)); [by left|]. right. split; [done|].
      apply Hl. by right. }
    exists s1, old1. split_and!; [done|auto| | |done].
    + intros a [->|Ha]%elem_of_cons; [|by apply H2].
      apply H1. unfold flag_of, s0. simpl. by rewrite lookup_insert_eq.
    + intros a. rewrite H3, lookup_insert_is_Some, elem_of_cons.
      destruct (decide (b = a)); naive_solver.
Qed.



(** ** Registering and removing events of a container *)

Lemma Events_iter_spec (c : events_obj) (a : addr) :
  a ∈ Events_iter c <-> exists n, es_events c !! n = Some a.
Proof.
  unfold Events_iter. rewrite list_elem_of_fmap. split.
  - intros ([n b] & -> & H%elem_of_map_to_list). by exists n.
  - intros [n H]. exists (n, a). by rewrite elem_of_map_to_list.
Qed.

(** [events.name = e] registers the event: [__getattr__] then returns [e]
    for the name and what it returned before for every other name, the
    expression [events.name] gives [e] unless ordinary lookup finds the
    name, iterating over the container yields [e] and the events held
    under the other names, and no event, no other container and no call
    is touched. *)
Theorem Events_setattr_registers (self : addr) (name : string) (e : addr)
    (c : events_obj) (s : state) :
  st_containers s !! self = Some c ->
  exists s' c',
    Events_setattr self name e s = (s', Ok tt)
    /\ st_containers s' = <[self := c']> (st_containers s)
    /\ st_events s' = st_events s /\ st_log s' = st_log s
    /\ Events__getattr__ self name s' = (s', Ok (AttrEvent e))
    /\ (forall n, n <> name ->
          (Events__getattr__ self n s').2 = (Events__getattr__ self n s).2)
    /\ (name ∉ es_dict c -> name ∉ class_members ->
        Events_getattr self name s' = (s', Ok (AttrEvent e)))
    /\ (forall a, a ∈ Events_iter c'
          <-> a = e \/ exists n, n <> name /\ es_events c !! n = Some a).
Proof.
  intros Hc.
  set (c' := _update_doc (EventsObj (<[name := e]> (es_events c)) (es_dict c))).
  exists (set_containers <[self := c']> s), c'.
  assert (Hc' : st_containers (set_containers <[self := c']> s) !! self
                = Some c') by (simpl; apply lookup_insert_eq).
  assert (Hg : Events__getattr__ self name (set_containers <[self := c']> s)
               = (set_containers <[self := c']> s, Ok (AttrEvent e))).
  { unfold Events__getattr__, bind, get_container. rewrite Hc'.
    unfold c'. simpl. by rewrite lookup_insert_eq. }
  split_and!; try done.
  - unfold Events_setattr, bind, get_container, put_container.
    by rewrite Hc.
  - intros n Hn. unfold Events__getattr__, bind, get_container.
    rewrite Hc', Hc. unfold c'. simpl. rewrite lookup_insert_ne by done.
    by destruct (es_events c !! n).
  - intros H1 H2. unfold Events_getattr, bind at 1, get_container at 1.
    rewrite Hc'. rewrite !bool_decide_eq_false_2; [done|done|].
    unfold c'. simpl. intros [H|H%elem_of_singleton]%elem_of_union; [done|].
    subst name. apply H2. unfold class_members. set_solver.
  - intros a. rewrite Events_iter_spec. unfold c'. simpl. split.
    + intros [n [[-> ->]|[Hn H]]%lookup_insert_Some]; [by left|].
      right. by exists n.
    + intros [->|(n & Hn & H)].
      * exists name. by rewrite lookup_insert_eq.
      * exists n. by rewrite lookup_insert_ne.
Qed.

Lemma Events_setattr_registers_witness :
  exists s' c',
    Events_setattr 0%nat "other" 1%nat ex_state_two = (s', Ok tt)
    /\ st_containers s' = <[0%nat := c']> (st_containers ex_state_two)
    /\ st_events s' = st_events ex_state_two
    /\ st_log s' = st_log ex_state_two
    /\ Events__getattr__ 0%nat "other" s' = (s', Ok (AttrEvent 1%nat))
    /\ (forall n, n <> "other"%string ->
          (Events__getattr__ 0%nat n s').2
          = (Events__getattr__ 0%nat n ex_state_two).2)
    /\ ("other"%string ∉ es_dict ex_container ->
        "other"%string ∉ class_members ->
        Events_getattr 0%nat "other" s' = (s', Ok (AttrEvent 1%nat)))
    /\ (forall a, a ∈ Events_iter c'
          <-> a = 1%nat
              \/ exists n, n <> "other"%string
                           /\ es_events ex_container !! n = Some a).
Proof.
  apply (Events_setattr_registers 0%nat "other" 1%nat ex_container
           ex_state_two).
  reflexivity.
Defined.



(** ** The argument list of an event *)

Lemma validate_arguments_gen (b : bool) (l : list argspec) :
  validate_arguments b l = Ok tt
  <-> Forall (fun a => valid_name (argspec_name a) = true) l
      /\ exists l1 l2, l = l1 ++ l2
           /\ Forall (fun a => is_bare a = true) l1
           /\ Forall (fun a => is_bare a = false) l2
           /\ (b = true -> l1 = []).
Proof.
  revert b. induction l as [|a l IH]; intros b.
  - split; [|done]. intros _. split; [done|]. by exists [], [].
  - destruct a as [n|n v]; simpl.
    + destruct b.
      * split; [done|]. intros (_ & l1 & l2 & E & _ & H2 & H3).
        rewrite (H3 eq_refl) in E. simpl in E. subst l2. by apply Forall_cons in H2 as [[=] _].
      * destruct (valid_name n) eqn:Hn.
        -- rewrite IH. split.
           ++ intros (Hv & l1 & l2 & -> & H1 & H2 & _). split.
              ** by constructor.
              ** exists (ArgName n :: l1), l2. split_and!; try done.
                 by constructor.
           ++ intros (Hv & l1 & l2 & E & H1 & H2 & _).
              apply Forall_cons in Hv as [_ Hv]. split; [done|].
              destruct l1 as [|x l1]; simpl in E.
              ** subst l2. by apply Forall_cons in H2 as [[=] _].
              ** injection E as <- ->. apply Forall_cons in H1 as [_ H1].
                 by exists l1, l2.
        -- split; [done|]. intros (Hv & _).
           apply Forall_cons in Hv as [Hv _]. simpl in Hv. congruence.
    + destruct (valid_name n) eqn:Hn.
      * rewrite IH. split.
        -- intros (Hv & l1 & l2 & -> & H1 & H2 & H3).
           pose proof (H3 eq_refl) as ->. simpl in *. split.
           ++ constructor; [by simpl|done].
           ++ exists [], (ArgDefault n v :: l2). split_and!; try done.
              by constructor.
        -- intros (Hv & l1 & l2 & E & H1 & H2 & _).
           apply Forall_cons in Hv as [_ Hv]. split; [done|].
           destruct l1 as [|x l1]; simpl in E.
           ++ subst l2. apply Forall_cons in H2 as [_ H2].
              by exists [], l.
           ++ injection E as <- ->. by apply Forall_cons in H1 as [[=] _].
      * split; [done|]. intros (Hv & _).
        apply Forall_cons in Hv as [Hv _]. simpl in Hv. congruence.
Qed.

(** The validation loop of [_trigger_maker] accepts an argument list
    exactly when every name is an identifier and the list is a run of bare
    names followed by a run of [(name, default)] pairs; and it raises
    nothing but [SyntaxError] and [ValueError]. *)
Theorem validate_arguments_spec (l : list argspec) :
  (validate_arguments false l = Ok tt
   <-> Forall (fun a => valid_name (argspec_name a) = true) l
       /\ exists l1 l2, l = l1 ++ l2
            /\ Forall (fun a => is_bare a = true) l1
            /\ Forall (fun a => is_bare a = false) l2)
  /\ (forall x, validate_arguments false l = Err x ->
        x = SyntaxError \/ x = ValueError).
Proof.
  split.
  - rewrite validate_arguments_gen. split.
    + intros (Hv & l1 & l2 & H). split; [done|]. exists l1, l2. tauto.
    + intros (Hv & l1 & l2 & H). split; [done|]. exists l1, l2.
      split_and!; try tauto. done.
  - generalize false. induction l as [|a l IH]; intros b x; [done|].
    destruct a as [n|n v]; simpl.
    + destruct b; [intros [= <-]; by left|].
      destruct (valid_name n); [apply IH|intros [= <-]; by right].
    + destruct (valid_name n); [apply IH|intros [= <-]; by right].
Qed.

(** ** Creating an event *)

Lemma fresh_addr_None (s : state) : st_events s !! fresh_addr s = None.
Proof. apply not_elem_of_dom. unfold fresh_addr. apply is_fresh. Qed.

(** [Event(doc, arguments)], however it ends, touches no existing event,
    no container and no recorded call; when it returns, the event is a new
    object with the given docstring, no callback and no suppression, and
    it has a generated [trigger] exactly when it has a fixed argument
    list. *)
Theorem Event_init_new (doc : string) (arguments : option (list argspec))
    (s : state) :
  (forall a, is_Some (st_events s !! a) ->
     st_events (Event_init doc arguments s).1 !! a = st_events s !! a)
  /\ st_containers (Event_init doc arguments s).1 = st_containers s
  /\ st_log (Event_init doc arguments s).1 = st_log s
  /\ forall a, (Event_init doc arguments s).2 = Ok a ->
       st_events s !! a = None
       /\ exists ev, st_events (Event_init doc arguments s).1 !! a = Some ev
            /\ ev_doc ev = doc /\ ev_connected ev = ∅
            /\ ev_suppress ev = false
            /\ (ev_arguments ev = None <-> ev_wrapper ev = None).
Proof.
  pose proof (fresh_addr_None s) as Hfr.
  assert (Hne : forall a, is_Some (st_events s !! a) -> fresh_addr s <> a).
  { intros a [ev Ha] <-. by rewrite Hfr in Ha. }
  unfold Event_init, bind, put_event. simpl.
  destruct arguments as [[|a0 l]|]; simpl.
  - split_and!; try done.
    + intros a Ha. by rewrite lookup_insert_ne by by apply Hne.
    + intros a [= <-]. split; [done|]. rewrite lookup_insert_eq.
      by eexists.
  - unfold _trigger_maker.
    destruct (validate_arguments false (a0 :: l)) as [[]|x]; simpl.
    + unfold bind. simpl. destruct (wrapper_compiles _); simpl.
      * unfold get_event, put_event. simpl. rewrite lookup_insert_eq. simpl.
        split_and!; try done.
        -- intros a Ha. by rewrite !lookup_insert_ne by by apply Hne.
        -- intros a [= <-]. split; [done|]. rewrite lookup_insert_eq.
           eexists. split; [done|]. by simpl.
      * split_and!; try done.
        intros a Ha. by rewrite lookup_insert_ne by by apply Hne.
    + split_and!; try done.
      intros a Ha. by rewrite lookup_insert_ne by by apply Hne.
  - split_and!; try done.
    + intros a Ha. by rewrite lookup_insert_ne by by apply Hne.
    + intros a [= <-]. split; [done|]. rewrite lookup_insert_eq.
      by eexists.
Qed.

(** ** Calls of a generated [trigger] *)

Lemma bind_signature_lookup (names : list string) (defaults args : list value)
    (kw kw' : kwargs) :
  bind_signature names defaults args kw = Ok kw' -> NoDup names ->
  (length args <= length names)%nat
  /\ (forall n, is_Some (kw !! n) -> n ∈ names)
  /\ (forall n, is_Some (kw' !! n) -> n ∈ names)
  /\ (forall i n, names !! i = Some n ->
        kw' !! n = bind_param names defaults args kw i n
        /\ is_Some (kw' !! n)).
Proof.
  unfold bind_signature. intros H Hnd.
  destruct (bool_decide (length args ≤ length names)%nat) eqn:Hlen; [|done].
  apply bool_decide_eq_true in Hlen. simpl in H.
  destruct (forallb _ _) eqn:Hkw; [|done].
  destruct (mapM _ _) as [vs|] eqn:Hm; [|done]. injection H as <-.
  apply mapM_Some in Hm. pose proof (Forall2_length _ _ _ Hm) as Hl.
  rewrite length_zip_with_l_eq, length_seq in Hl by by rewrite length_seq.
  assert (Hfst : (zip names vs).*1 = names) by (apply fst_zip; lia).
  split_and!; [done| | |].
  - intros n [v Hn]. apply Is_true_true_2, forallb_True in Hkw.
    rewrite Forall_forall in Hkw. eapply bool_decide_unpack, Hkw.
    change (map fst (map_to_list kw)) with ((map_to_list kw).*1).
    apply list_elem_of_fmap. exists (n, v). by rewrite elem_of_map_to_list.
  - intros n [v Hn]. apply elem_of_list_to_map_2 in Hn.
    by apply elem_of_zip_l in Hn.
  - intros i n Hi.
    assert (Hz : zip (seq 0 (length names)) names !! i = Some (i, n)).
    { rewrite lookup_zip_with, Hi.
      rewrite lookup_seq_lt by by eapply lookup_lt_Some. done. }
    destruct (Forall2_lookup_l _ _ _ _ _ Hm Hz) as (v & Hv & Hb).
    simpl in Hb. rewrite Hb.
    assert (list_to_map (zip names vs) !! n = Some v) as ->; [|by split].
    apply (elem_of_list_to_map_1 (M := gmap string)); [by rewrite Hfst|].
    apply (list_elem_of_lookup_2 _ i).
    by rewrite lookup_zip_with, Hi, Hv.
Qed.

(** A call of [trigger(self, n1, ..., nk)] that binds gives every
    parameter a value and nothing else: a positional argument goes to the
    parameter at its position, a keyword argument to the parameter of its
    name, and a parameter that received neither takes its default; there
    are not more positional arguments than parameters and every keyword
    is a parameter. *)
Theorem bind_signature_binds (names : list string)
    (defaults args : list value) (kw kw' : kwargs) :
  bind_signature names defaults args kw = Ok kw' -> NoDup names ->
  (forall n, is_Some (kw' !! n) <-> n ∈ names)
  /\ (forall i n v, names !! i = Some n -> args !! i = Some v ->
        kw' !! n = Some v /\ kw !! n = None)
  /\ (forall n v, kw !! n = Some v -> kw' !! n = Some v)
  /\ (forall i n, names !! i = Some n -> args !! i = None ->
        kw !! n = None ->
        (length names - length defaults <= i)%nat
        /\ kw' !! n = defaults !! (i - (length names - length defaults))%nat)
  /\ (length args <= length names)%nat.
Proof.
  intros H Hnd.
  destruct (bind_signature_lookup _ _ _ _ _ H Hnd) as (Hlen & Hkw & Hdom & Hb).
  split_and!; [| | | |done].
  - intros n. split; [apply Hdom|].
    intros [i Hi]%list_elem_of_lookup. by apply (Hb i n).
  - intros i n v Hi Ha. destruct (Hb i n Hi) as [E [w Hw]].
    rewrite E in *. unfold bind_param in *. rewrite Ha in *.
    by destruct (kw !! n).
  - intros n v Hn.
    destruct (list_elem_of_lookup_1 names n) as [i Hi];
      [apply Hkw; by eexists|].
    destruct (Hb i n Hi) as [E [w Hw]]. rewrite E in *.
    unfold bind_param in *. rewrite Hn in *. by destruct (args !! i).
  - intros i n Hi Ha Hn. destruct (Hb i n Hi) as [E [w Hw]].
    rewrite E in *. unfold bind_param in *. rewrite Ha, Hn in *.
    case_bool_decide; [done|]. done.
Qed.

Lemma bind_signature_binds_witness :
  (forall n, is_Some ((<["a" := VInt 1]> (<["b" := VInt 2]> ∅) : kwargs) !! n)
             <-> n ∈ ["a"; "b"]%string)
  /\ (forall i n v, ["a"; "b"]%string !! i = Some n ->
        [VInt 1] !! i = Some v ->
        (<["a" := VInt 1]> (<["b" := VInt 2]> ∅) : kwargs) !! n = Some v
        /\ (∅ : kwargs) !! n = None)
  /\ (forall n v, (∅ : kwargs) !! n = Some v ->
        (<["a" := VInt 1]> (<["b" := VInt 2]> ∅) : kwargs) !! n = Some v)
  /\ (forall i n, ["a"; "b"]%string !! i = Some n -> [VInt 1] !! i = None ->
        (∅ : kwargs) !! n = None ->
        (length ["a"; "b"]%string - length [VInt 2] <= i)%nat
        /\ (<["a" := VInt 1]> (<["b" := VInt 2]> ∅) : kwargs) !! n
           = [VInt 2] !! (i - (length ["a"; "b"]%string
                               - length [VInt 2]))%nat)
  /\ (length [VInt 1] <= length ["a"; "b"]%string)%nat.
Proof.
  apply (bind_signature_binds ["a"; "b"]%string [VInt 2] [VInt 1] ∅).
  - reflexivity.
  - apply (bool_decide_unpack _). by vm_compute.
Defined.

Lemma bind_signature_Ok_params (names : list string)
    (defaults args : list value) (kw kw' : kwargs) :
  bind_signature names defaults args kw = Ok kw' ->
  (length args <= length names)%nat
  /\ (forall n, is_Some (kw !! n) -> n ∈ names)
  /\ (forall i n, names !! i = Some n ->
        is_Some (bind_param names defaults args kw i n)).
Proof.
  unfold bind_signature. intros H.
  destruct (bool_decide (length args ≤ length names)%nat) eqn:Hlen; [|done].
  apply bool_decide_eq_true in Hlen. simpl in H.
  destruct (forallb _ _) eqn:Hkw; [|done].
  destruct (mapM _ _) as [vs|] eqn:Hm; [|done].
  apply mapM_Some in Hm. split_and!; [done| |].
  - intros n [v Hn]. apply Is_true_true_2, forallb_True in Hkw.
    rewrite Forall_forall in Hkw. eapply bool_decide_unpack, Hkw.
    change (map fst (map_to_list kw)) with ((map_to_list kw).*1).
    apply list_elem_of_fmap. exists (n, v). by rewrite elem_of_map_to_list.
  - intros i n Hi.
    assert (Hz : zip (seq 0 (length names)) names !! i = Some (i, n)).
    { rewrite lookup_zip_with, Hi.
      rewrite lookup_seq_lt by by eapply lookup_lt_Some. done. }
    destruct (Forall2_lookup_l _ _ _ _ _ Hm Hz) as (v & _ & Hb).
    simpl in Hb. by rewrite Hb.
Qed.

Lemma bind_signature_Err (names : list string) (defaults args : list value)
    (kw : kwargs) (x : exn) :
  bind_signature names defaults args kw = Err x -> x = TypeError.
Proof.
  unfold bind_signature. destruct (_ && _); [|by intros [= <-]].
  destruct (mapM _ _); [done|by intros [= <-]].
Qed.

(** A call of [trigger(self, n1, ..., nk)] raises [TypeError], and nothing
    else, when there are more positional arguments than parameters, when a
    keyword is not a parameter, when a parameter gets a positional and a
    keyword argument, and when a parameter without default gets no
    argument. *)
Theorem bind_signature_rejects (names : list string)
    (defaults args : list value) (kw : kwargs) :
  ((length names < length args)%nat ->
   bind_signature names defaults args kw = Err TypeError)
  /\ (forall n, is_Some (kw !! n) -> n ∉ names ->
        bind_signature names defaults args kw = Err TypeError)
  /\ (forall i n, names !! i = Some n -> is_Some (args !! i) ->
        is_Some (kw !! n) ->
        bind_signature names defaults args kw = Err TypeError)
  /\ (forall i n, names !! i = Some n -> args !! i = None ->
        kw !! n = None -> (i < length names - length defaults)%nat ->
        bind_signature names defaults args kw = Err TypeError)
  /\ (forall x, bind_signature names defaults args kw = Err x ->
        x = TypeError).
Proof.
  assert (H : forall P : Prop,
            (forall kw', bind_signature names defaults args kw = Ok kw' ->
               ~ P) ->
            P -> bind_signature names defaults args kw = Err TypeError).
  { intros P HP p.
    destruct (bind_signature names defaults args kw) as [kw'|x] eqn:E.
    - by destruct (HP kw' eq_refl).
    - by rewrite (bind_signature_Err _ _ _ _ _ E). }
  split_and!.
  - apply H. intros kw' [Hl _]%bind_signature_Ok_params. lia.
  - intros n Hn. apply H. intros kw' (_ & Hk & _)%bind_signature_Ok_params.
    intros Hnin. by apply Hnin, Hk.
  - intros i n Hi [v Hv] [w Hw]. apply (H True); [|done].
    intros kw' (_ & _ & Hb)%bind_signature_Ok_params _.
    destruct (Hb i n Hi) as [u Hu]. unfold bind_param in Hu.
    by rewrite Hv, Hw in Hu.
  - intros i n Hi Ha Hn. apply H.
    intros kw' (_ & _ & Hb)%bind_signature_Ok_params Hlt.
    destruct (Hb i n Hi) as [u Hu]. unfold bind_param in Hu.
    rewrite Ha, Hn in Hu. rewrite bool_decide_eq_false_2 in Hu by lia. done.
  - apply bind_signature_Err.
Qed.

(** A call [e.trigger(...)] of an event with a fixed argument list, when
    no parameter is named [f]: a call that does not bind raises
    [TypeError], calls nothing and changes nothing; a call that binds runs
    the method [trigger] of the event that the module global [f] refers
    to, with no positional argument and with exactly the declared names as
    keyword arguments, and these are what every callback under ['all']
    receives. *)
Theorem call_trigger_fixed_signature (funcs : fid -> pyfunc) (e g : addr)
    (ev : event_obj) (names : list string) (defaults args : list value)
    (kw : kwargs) (s : state) :
  st_events s !! e = Some ev -> ev_wrapper ev = Some (names, defaults) ->
  NoDup names -> "f"%string ∉ names -> st_glob_f s = Some g ->
  match bind_signature names defaults args kw with
  | Err _ => call_trigger funcs e args kw s = (s, Err TypeError)
  | Ok kw' =>
      (forall n, is_Some (kw' !! n) <-> n ∈ names)
      /\ call_trigger funcs e args kw s = trigger funcs g [] kw' s
      /\ log_ext (verbatim g [] kw') (st_log s)
           (call_trigger funcs e args kw s).1
  end.
Proof.
  intros He Hw Hnd Hf Hg.
  unfold call_trigger, bind, get_event. rewrite He, Hw.
  destruct (bind_signature names defaults args kw) as [kw'|x] eqn:E.
  - destruct (bind_signature_lookup _ _ _ _ _ E Hnd) as (_ & _ & Hdom & Hb).
    assert (Hnone : kw' !! "f"%string = None).
    { destruct (kw' !! "f"%string) eqn:Hk; [|done].
      destruct Hf. apply Hdom. by eexists. }
    rewrite Hnone, Hg. split_and!; [|done|].
    + intros n. split; [apply Hdom|].
      intros [i Hi]%list_elem_of_lookup. by apply (Hb i n).
    + destruct (trigger funcs g [] kw' s) as [s' r] eqn:E'.
      eapply trigger_verbatim; [|exact E']. exists []. by rewrite app_nil_r.
  - by rewrite (bind_signature_Err _ _ _ _ _ E).
Qed.

Lemma call_trigger_fixed_signature_witness :
  match bind_signature ["a"; "b"]%string [VInt 10] [VInt 1] ∅ with
  | Err _ => call_trigger ex_funcs 0%nat [VInt 1] ∅ ex_state_sig
             = (ex_state_sig, Err TypeError)
  | Ok kw' =>
      (forall n, is_Some (kw' !! n) <-> n ∈ ["a"; "b"]%string)
      /\ call_trigger ex_funcs 0%nat [VInt 1] ∅ ex_state_sig
         = trigger ex_funcs 0%nat [] kw' ex_state_sig
      /\ log_ext (verbatim 0%nat [] kw') (st_log ex_state_sig)
           (call_trigger ex_funcs 0%nat [VInt 1] ∅ ex_state_sig).1
  end.
Proof.
  apply (call_trigger_fixed_signature ex_funcs 0%nat 0%nat ex_event_sig
           ["a"; "b"]%string [VInt 10] [VInt 1] ∅ ex_state_sig).
  - by vm_compute.
  - by vm_compute.
  - apply (bool_decide_unpack _). by vm_compute.
  - apply (bool_decide_unpack _). by vm_compute.
  - by vm_compute.
Defined.

(** ** What [add] appends *)

Lemma _add_single_prefix (cms : list cm) (target : value) (s : state) :
  cms `prefix_of` (_add_single cms target s).1.
Proof.
  unfold _add_single. destruct (_is_tuple_target target) as [[]|x]; [| |done].
  - destruct target as [|z|s0|l|g|a0|a0]; simpl; try done.
    destruct l as [|v1 l]; simpl; try done.
    destruct v1 as [|z|s0|l1|g|a0|a0]; simpl; try done;
      destruct l as [|v2 [|v3 l]]; simpl; try done.
    + by apply prefix_app_r.
    + destruct (st_containers s !! a0); simpl; [by apply prefix_app_r|done].
  - destruct target; simpl; try done; by apply prefix_app_r.
Qed.

Lemma add_each_prefix (l : list value) (cms : list cm) (s : state) :
  cms `prefix_of` (add_each cms l s).1.
Proof.
  revert cms. induction l as [|t l IH]; intros cms; simpl; [done|].
  destruct (_is_target t) as [[]|x]; [|apply IH|done].
  pose proof (_add_single_prefix cms t s) as H.
  destruct (_add_single cms t s) as [cms1 [[]|x]]; simpl in *; [|done].
  etrans; [exact H|apply IH].
Qed.

(** [add] only appends: whatever the targets are and however the call
    ends, the managers the suppressor had are still there, in the same
    order and unchanged, in front of the new ones. *)
Theorem add_only_appends (fuel : nat) (cms cms' : list cm)
    (to_suppress : list value) (s : state) (r : result unit) :
  add fuel cms to_suppress s = Some (cms', r) -> cms `prefix_of` cms'.
Proof.
  unfold add. destruct (unwrap fuel (VTuple to_suppress)) as [[v|x]|];
    [|by intros [= <- _]|done].
  destruct (_is_target v) as [[]|x]; [| |by intros [= <- _]].
  - pose proof (_add_single_prefix cms v s) as H.
    destruct (_add_single cms v s). by intros [= <- _].
  - destruct (is_iterable v); [|by intros [= <- _]].
    destruct (py_len v) as [[|n]|x]; [by intros [= <- _]| |by intros [= <- _]].
    pose proof (add_each_prefix (py_items v) cms s) as H.
    destruct (add_each cms (py_items v) s). by intros [= <- _].
Qed.

Lemma add_only_appends_witness :
  [new_cm (CmSuppress 1%nat)]
  `prefix_of` [new_cm (CmSuppress 1%nat); new_cm (CmSuppress 0%nat)].
Proof.
  apply (add_only_appends 2 [new_cm (CmSuppress 1%nat)] _ [VEvent 0%nat]
           ex_state (Ok tt)).
  reflexivity.
Defined.

Lemma simple_target_added (cms : list cm) (t : value) (m : cm) (s : state) :
  simple_target t = Some m ->
  _is_target t = Ok true /\ _add_single cms t s = (cms ++ [m], Ok tt)
  /\ is_callable t = false /\ unwrap 1 t = Some (Ok t).
Proof.
  destruct t as [|z|s0|l|g|a0|a0]; simpl; try done.
  - destruct l as [|v1 l]; try done.
    destruct v1 as [|z|s0|l1|g|a0|a0]; try done.
    destruct l as [|v2 [|v3 l]]; try done;
      destruct v2 as [|z|s0|l1|g|a1|a1]; try done.
    by intros [= <-].
  - by intros [= <-].
Qed.

Lemma add_each_simple (l : list value) (ms cms : list cm) (s : state) :
  mapM simple_target l = Some ms ->
  add_each cms l s = (cms ++ ms, Ok tt).
Proof.
  revert ms cms. induction l as [|t l IH]; intros ms cms; simpl.
  - intros [= <-]. by rewrite app_nil_r.
  - destruct (simple_target t) as [m|] eqn:Ht; [|done]. simpl.
    destruct (mapM simple_target l) as [ms'|]; [|done]. intros [= <-].
    destruct (simple_target_added cms t m s Ht) as (-> & -> & _).
    rewrite (IH ms' _ eq_refl). by rewrite <- (assoc_L (++)).
Qed.

(** [es.add(t1, ..., tn)], where every argument is an [Event] or an
    [(Event, callback)] pair: the call returns, and it appends one new
    manager for each argument, in the order of the arguments. *)
Theorem add_targets_in_order (fuel : nat) (cms ms : list cm)
    (to_suppress : list value) (s : state) :
  (2 <= fuel)%nat -> to_suppress <> [] ->
  mapM simple_target to_suppress = Some ms ->
  add fuel cms to_suppress s = Some (cms ++ ms, Ok tt).
Proof.
  intros Hfuel Hne Hms. destruct fuel as [|[|fuel]]; [lia|lia|].
  destruct to_suppress as [|t1 [|t2 l]]; [done| |].
  - simpl in Hms. destruct (simple_target t1) as [m|] eqn:Ht; [|done].
    injection Hms as <-.
    destruct (simple_target_added cms t1 m s Ht) as (H1 & H2 & _ & H4).
    unfold add.
    assert (unwrap (S (S fuel)) (VTuple [t1]) = Some (Ok t1)) as ->.
    { change (unwrap (S (S fuel)) (VTuple [t1])) with (unwrap (S fuel) t1).
      destruct t1 as [|z|s0|l|g|a0|a0]; try done.
      destruct l as [|v1 [|v2 [|v3 l]]]; done. }
    by rewrite H1, H2.
  - assert (Ht2 : is_callable t2 = false).
    { simpl in Hms. destruct (simple_target t1); [|done]. simpl in Hms.
      destruct (simple_target t2) as [m2|] eqn:Ht; [|done].
      by destruct (simple_target_added cms t2 m2 s Ht) as (_ & _ & H & _). }
    unfold add.
    assert (unwrap (S (S fuel)) (VTuple (t1 :: t2 :: l))
            = Some (Ok (VTuple (t1 :: t2 :: l)))) as -> by done.
    assert (_is_target (VTuple (t1 :: t2 :: l)) = Ok false) as ->.
    { unfold _is_target, _is_tuple_target. simpl.
      destruct l; simpl; [|done]. by rewrite Ht2, andb_false_r. }
    cbn [is_iterable py_len length py_items]. f_equal.
    by apply add_each_simple.
Qed.

Lemma add_targets_in_order_witness :
  add 2 [] [VEvent 1%nat; VTuple [VEvent 0%nat; VFunc 6%nat]] ex_state_two
  = Some ([] ++ [new_cm (CmSuppress 1%nat);
                 new_cm (CmSuppressCallback 0%nat (VFunc 6%nat))], Ok tt).
Proof.
  apply (add_targets_in_order 2 []).
  - lia.
  - discriminate.
  - reflexivity.
Defined.

(** ** A suppressor is used once *)

Lemma suppress_spent (funcs : fid -> pyfunc) (c : cm) (rest : list cm)
    (body : M unit) (s : state) :
  cm_state c = Finished ->
  EventSupressor_suppress funcs (c :: rest) body s
  = (s, c :: rest, Err RuntimeError).
Proof.
  intros Hc. unfold EventSupressor_suppress. simpl. unfold cm_enter.
  by rewrite Hc.
Qed.

Lemma cm_enter_not_fresh (funcs : fid -> pyfunc) (c : cm) (s : state) :
  match cm_enter funcs c s with
  | (_, c1, Ok _) => exists l, c1 = Cm (cm_gen c) (Suspended l)
  | (_, c1, Err _) => cm_state c1 = Finished
  end.
Proof.
  unfold cm_enter. destruct (cm_state c) as [|l|] eqn:Hc.
  - destruct (enter_kind _ _) as [s1 [l|x]]; [by eexists|done].
  - by destruct (exit_kind _ _ _ _) as [s1 [[]|x]].
  - done.
Qed.

(** After [with es.suppress(): body] on a suppressor that has a manager,
    however the statement ended, the suppressor is spent: a second
    [with es.suppress()] raises [RuntimeError] at the first manager, before
    anything is entered, without running its body and without changing
    anything. *)
Theorem EventSupressor_used_once (funcs : fid -> pyfunc) (cms : list cm)
    (body body' : M unit) (s : state) :
  preserves alive body -> cms <> [] ->
  exists s1 cms1 r1,
    EventSupressor_suppress funcs cms body s = (s1, cms1, r1)
    /\ EventSupressor_suppress funcs cms1 body' s1
       = (s1, cms1, Err RuntimeError).
Proof.
  intros Hbody Hne. rewrite EventSupressor_suppress_nested by done.
  destruct cms as [|c rest]; [done|]. simpl.
  pose proof (cm_enter_not_fresh funcs c s) as H1.
  destruct (cm_enter funcs c s) as [[s1 c1] [[]|x]].
  - destruct H1 as [l ->].
    destruct (nested_with funcs rest body s1) as [[s2 rest'] r].
    unfold cm_exit. simpl.
    destruct (exit_kind funcs (cm_gen c) l s2) as [s3 [[]|y]];
      eexists _, _, _; (split; [done|]); by apply suppress_spent.
  - eexists _, _, _. split; [done|]. by apply suppress_spent.
Qed.

Lemma EventSupressor_used_once_witness :
  exists s1 cms1 r1,
    EventSupressor_suppress ex_funcs ex_cms_two (raise Raised) ex_state_two
    = (s1, cms1, r1)
    /\ EventSupressor_suppress ex_funcs cms1 (ret tt) s1
       = (s1, cms1, Err RuntimeError).
Proof.
  apply (EventSupressor_used_once ex_funcs ex_cms_two (raise Raised) (ret tt)
           ex_state_two).
  - intros s. reflexivity.
  - by vm_compute.
Defined.

(** ** Which values are targets *)


(** ** Creating a container *)

(** [Events()] returns a new container and touches nothing else: no
    existing container, no event and no recorded call; the container holds
    no event, so iterating over it yields nothing and retrieving any name
    that ordinary lookup does not find raises [KeyError]. *)
Theorem Events_init_new (s : state) :
  exists c s',
    Events_init s = (s', Ok c)
    /\ st_containers s !! c = None
    /\ (forall a, a <> c -> st_containers s' !! a = st_containers s !! a)
    /\ st_events s' = st_events s /\ st_log s' = st_log s
    /\ (exists co, st_containers s' !! c = Some co /\ Events_iter co = [])
    /\ (forall name, name ∉ class_members -> name <> "_events"%string ->
          Events_getattr c name s' = (s', Err KeyError)).
Proof.
  exists (fresh_container s). eexists. split; [reflexivity|].
  split_and!; try done.
  - apply not_elem_of_dom. unfold fresh_container. apply is_fresh.
  - intros a Ha. simpl. by rewrite lookup_insert_ne.
  - eexists. simpl. rewrite lookup_insert_eq. split; [done|].
    unfold Events_iter. simpl. by rewrite map_to_list_empty.
  - intros name H1 H2.
    unfold Events_getattr, Events__getattr__, bind, get_container. simpl.
    rewrite lookup_insert_eq. simpl.
    rewrite !bool_decide_eq_false_2; [|done|set_solver]. simpl.
    by rewrite lookup_insert_eq.
Qed.
